(** * Inheritance resolution and structural merge of documentation records

    A shallow embedding of [docaggregate.py]: the structural merge
    ([deep_merge]), the base-name lookup ([get_base_names]), the memoised
    inheritance resolver ([build_merged_for_entry]) and the navigation walker
    ([iter_reference_objects]), first over values, then, for the merge and
    the resolver, over a store of mutable objects; the path helpers
    ([normalize_rel_path], [resolve_doc_rel_path], [path_to_url]), the lookup
    by path ([lookup_entry_for_nav_path]), the construction of the two
    indexes ([load_engine_objects]) and the loop of [main], without their
    input and output; followed by the properties proved about them. *)

From Stdlib Require Import List String Ascii ZArith Bool Lia Sorted Permutation Arith.
Import ListNotations.
Open Scope string_scope.
Open Scope list_scope.

Set Implicit Arguments.

(** ** YAML values

    [yaml.safe_load] produces nested Python objects.  The embedding covers the
    documents made of [None], booleans, integers, strings (as UTF-8 byte
    strings, whose lexicographic order is the code-point order Python uses),
    lists, and dicts with string keys.  A dict is an association list in
    insertion order, as Python iterates it. *)

#[local] Unset Elimination Schemes.
Inductive value : Type :=
| VNull
| VBool (b : bool)
| VInt (z : Z)
| VStr (s : string)
| VList (items : list value)
| VMap (fields : list (string * value)).
#[local] Set Elimination Schemes.

(** Python truthiness, as used by [or] and [if]. *)
Definition truthy (v : value) : bool :=
  match v with
  | VNull => false
  | VBool b => b
  | VInt z => negb (Z.eqb z 0)
  | VStr s => negb (String.eqb s "")
  | VList l => match l with [] => false | _ => true end
  | VMap m => match m with [] => false | _ => true end
  end.

(** ** Dicts keyed by strings *)

Module Dict.
Section Ops.
Context {V : Type}.

(** [d.get(k)] / [d[k]]. *)
Fixpoint get (k : string) (d : list (string * V)) : option V :=
  match d with
  | [] => None
  | (k', v) :: d' => if String.eqb k k' then Some v else get k d'
  end.

(** [k in d]. *)
Definition has (k : string) (d : list (string * V)) : bool :=
  match get k d with Some _ => true | None => false end.

(** [d[k] = v]: an existing key keeps its position, a new key goes last. *)
Fixpoint set (k : string) (v : V) (d : list (string * V)) : list (string * V) :=
  match d with
  | [] => [(k, v)]
  | (k', v') :: d' =>
      if String.eqb k k' then (k', v) :: d' else (k', v') :: set k v d'
  end.

(** [del d[k]]. *)
Definition del (k : string) (d : list (string * V)) : list (string * V) :=
  filter (fun kv => negb (String.eqb k (fst kv))) d.

Definition keys (d : list (string * V)) : list string := map fst d.
End Ops.
End Dict.

Definition dict : Type := list (string * value).

(** ** Exceptions *)

Inductive exn : Type :=
| TypeError        (* unhashable or unorderable member name *)
| KeyError
| RecursionError.  (* the recursion did not bottom out within the fuel *)

Inductive res (A : Type) : Type :=
| Ok (a : A)
| Raise (e : exn).
Arguments Ok {A} a.
Arguments Raise {A} e.

Definition bind {A B : Type} (m : res A) (k : A -> res B) : res B :=
  match m with
  | Ok a => k a
  | Raise e => Raise e
  end.

(** The computation did not exhaust the recursion budget. *)
Definition bounded {A : Type} (r : res A) : Prop := r <> Raise RecursionError.

Declare Scope res_scope.
Delimit Scope res_scope with res.
Notation "x <- m ;; k" := (bind m (fun x => k))
  (at level 61, m at next level, right associativity) : res_scope.
Notation "' p <- m ;; k" := (bind m (fun x => match x with p => k end))
  (at level 61, p pattern, m at next level, right associativity) : res_scope.
Open Scope res_scope.

(** ** Hashable keys

    Member names index the Python dict [named_items]; ancestors go through a
    Python [set].  A list or a dict is unhashable; [True] and [1] are the same
    key. *)

Inductive hkey : Type :=
| KNone
| KNum (z : Z)
| KStr (s : string).

Definition hash_key (v : value) : option hkey :=
  match v with
  | VNull => Some KNone
  | VBool b => Some (KNum (if b then 1 else 0)%Z)
  | VInt z => Some (KNum z)
  | VStr s => Some (KStr s)
  | VList _ | VMap _ => None
  end.

Definition hkey_eqb (a b : hkey) : bool :=
  match a, b with
  | KNone, KNone => true
  | KNum x, KNum y => Z.eqb x y
  | KStr s, KStr t => String.eqb s t
  | _, _ => false
  end.

(** [a <= b] on keys of one kind; [None] where Python's [<] raises. *)
Definition hkey_leb (a b : hkey) : option bool :=
  match a, b with
  | KNum x, KNum y => Some (Z.leb x y)
  | KStr s, KStr t => Some (String.leb s t)
  | _, _ => None
  end.

Definition is_num (k : hkey) : bool := match k with KNum _ => true | _ => false end.
Definition is_str (k : hkey) : bool := match k with KStr _ => true | _ => false end.

Section Sort.
Variable leb : hkey -> hkey -> bool.

Fixpoint insert_sorted (k : hkey) (l : list hkey) : list hkey :=
  match l with
  | [] => [k]
  | x :: l' => if leb k x then k :: l else x :: insert_sorted k l'
  end.

Fixpoint isort (l : list hkey) : list hkey :=
  match l with
  | [] => []
  | x :: l' => insert_sorted x (isort l')
  end.
End Sort.

Definition total_leb (a b : hkey) : bool :=
  match hkey_leb a b with Some r => r | None => true end.

(** [sorted(keys)] on the pairwise distinct keys of a dict: no comparison is
    made on fewer than two keys; otherwise every comparison sort compares two
    keys of different kinds as soon as two kinds are present, and raises. *)
Definition sorted (ks : list hkey) : res (list hkey) :=
  match ks with
  | [] | [_] => Ok ks
  | _ =>
      if forallb is_num ks || forallb is_str ks
      then Ok (isort total_leb ks)
      else Raise TypeError
  end.

(** The dict [named_items]. *)
Module Named.
Definition t : Type := list (hkey * value).

Fixpoint get (k : hkey) (d : t) : option value :=
  match d with
  | [] => None
  | (k', v) :: d' => if hkey_eqb k k' then Some v else get k d'
  end.

Fixpoint set (k : hkey) (v : value) (d : t) : t :=
  match d with
  | [] => [(k, v)]
  | (k', v') :: d' =>
      if hkey_eqb k k' then (k', v) :: d' else (k', v') :: set k v d'
  end.

Definition keys (d : t) : list hkey := map fst d.

(** [[named_items[n] for n in ks]]. *)
Fixpoint values (ks : list hkey) (d : t) : res (list value) :=
  match ks with
  | [] => Ok []
  | k :: ks' =>
      match get k d with
      | Some v => vs <- values ks' d ;; Ok (v :: vs)
      | None => Raise KeyError
      end
  end.
End Named.

(** ** The structural merge *)

Definition MERGE_LIST_KEYS : list string :=
  ["properties"; "methods"; "events"; "callbacks";
   "members"; "fields"; "items"; "parameters"].

Definition in_merge_list_keys (key : string) : bool :=
  existsb (String.eqb key) MERGE_LIST_KEYS.

(** [it["name"]] when [isinstance(it, dict) and "name" in it]. *)
Definition item_name (it : value) : option value :=
  match it with
  | VMap m => Dict.get "name" m
  | _ => None
  end.

(** The loop over the base items of a named member group. *)
Fixpoint base_items (base_val : list value) (merged : list value)
    (named_items : Named.t) : res (list value * Named.t) :=
  match base_val with
  | [] => Ok (merged, named_items)
  | it :: rest =>
      match item_name it with
      | Some nv =>
          match hash_key nv with
          | Some n => base_items rest merged (Named.set n it named_items)
          | None => Raise TypeError
          end
      | None => base_items rest (merged ++ [it]) named_items
      end
  end.

Section MergeLoops.
(** The recursive occurrence of [deep_merge]. *)
Variable merge : value -> value -> res value.

(** The loop over the child items of a named member group. *)
Fixpoint child_items (child_val : list value) (merged : list value)
    (named_items : Named.t) : res (list value * Named.t) :=
  match child_val with
  | [] => Ok (merged, named_items)
  | it :: rest =>
      match item_name it with
      | Some nv =>
          match hash_key nv with
          | Some n =>
              match Named.get n named_items with
              | Some old =>
                  m <- merge old it ;;
                  child_items rest merged (Named.set n m named_items)
              | None => child_items rest merged (Named.set n it named_items)
              end
          | None => Raise TypeError
          end
      | None => child_items rest (merged ++ [it]) named_items
      end
  end.

(** The [key in MERGE_LIST_KEYS] branch for two lists. *)
Definition merge_members (base_val child_val : list value) : res (list value) :=
  '(merged, named_items) <- base_items base_val [] [] ;;
  '(merged, named_items) <- child_items child_val merged named_items ;;
  ks <- sorted (Named.keys named_items) ;;
  tail <- Named.values ks named_items ;;
  Ok (merged ++ tail).

(** The loop [for key, child_val in child.items()] over [result]. *)
Fixpoint merge_fields (child : dict) (result : dict) : res dict :=
  match child with
  | [] => Ok result
  | (key, child_val) :: rest =>
      match Dict.get key result with
      | None => merge_fields rest (Dict.set key child_val result)
      | Some base_val =>
          match base_val, child_val with
          | VMap _, VMap _ =>
              r <- merge base_val child_val ;;
              merge_fields rest (Dict.set key r result)
          | VList bl, VList cl =>
              if in_merge_list_keys key then
                r <- merge_members bl cl ;;
                merge_fields rest (Dict.set key (VList r) result)
              else merge_fields rest (Dict.set key child_val result)
          | _, _ => merge_fields rest (Dict.set key child_val result)
          end
      end
  end.
End MergeLoops.

(** [deep_merge(base, child)].  [copy.deepcopy] is the identity on values;
    the store-level model further down accounts for sharing. *)
Fixpoint deep_merge (base child : value) {struct child} : res value :=
  match base, child with
  | VMap bfields, VMap cfields =>
      r <- merge_fields deep_merge cfields bfields ;; Ok (VMap r)
  | _, _ => Ok child
  end.

(** ** Base names *)

Definition BASE_KEYS : list string :=
  ["inherits"; "extends"; "superclass"; "superclasses"; "bases"].

(** [v for v in val if isinstance(v, str)]. *)
Fixpoint str_items (val : list value) : list string :=
  match val with
  | [] => []
  | VStr s :: rest => s :: str_items rest
  | _ :: rest => str_items rest
  end.

(** What one base-reference field contributes to [names]. *)
Definition field_names (val : value) : list string :=
  match val with
  | VStr s => [s]
  | VList l => str_items l
  | _ => []
  end.

(** The loop of [get_base_names] over the keys it tries. *)
Fixpoint base_names_loop (keys : list string) (obj : dict) (names : list string)
    : list string :=
  match keys with
  | [] => names
  | key :: rest =>
      match Dict.get key obj with
      | Some val => base_names_loop rest obj (names ++ field_names val)
      | None => base_names_loop rest obj names
      end
  end.

Definition get_base_names (obj : dict) : list string :=
  base_names_loop BASE_KEYS obj [].

(** ** Records, the by-name index and the resolution cache *)

Record entry : Type := mkEntry {
  entry_name : string;
  entry_kind : value;
  entry_path : string;
  entry_data : dict
}.

(** Instrumentation of one run: every call of the merge primitive made by the
    resolver and every view computed on a cache miss is logged. *)
Inductive event : Type :=
| Merged (base_name : string) (leaf_name : string)
| Computed (name : string).

Record state : Type := mkState {
  cache : list (string * dict);
  trace : list event
}.

Definition empty_state : state := mkState [] [].

(** The order-preserving de-duplication of [ancestors] through the set [seen]. *)
Fixpoint dedup_loop (ancestors : list value) (seen : list hkey)
    (deduped : list value) : res (list value) :=
  match ancestors with
  | [] => Ok deduped
  | a :: rest =>
      match hash_key a with
      | None => Raise TypeError
      | Some k =>
          if existsb (hkey_eqb k) seen
          then dedup_loop rest seen deduped
          else dedup_loop rest (k :: seen) (deduped ++ [a])
      end
  end.

(** [base_merged.get("_ancestors", [])] when it is a list, else nothing. *)
Definition base_ancestors (base_merged : dict) : list value :=
  match Dict.get "_ancestors" base_merged with
  | Some (VList l) => l
  | Some _ => []
  | None => []
  end.

Section Resolver.
(** The recursive occurrence of [build_merged_for_entry]. *)
Variable build : entry -> list (string * entry) -> state -> res (dict * state).

(** The loop [for base_name in base_names]. *)
Fixpoint bases_loop (leaf_name : string) (base_names : list string)
    (name_index : list (string * entry))
    (merged : dict) (ancestors : list value) (st : state)
    : res (dict * list value * state) :=
  match base_names with
  | [] => Ok (merged, ancestors, st)
  | base_name :: rest =>
      match Dict.get base_name name_index with
      | None => bases_loop leaf_name rest name_index merged ancestors st
      | Some base_entry =>
          '(base_merged, st) <- build base_entry name_index st ;;
          r <- deep_merge (VMap base_merged) (VMap merged) ;;
          match r with
          | VMap merged' =>
              bases_loop leaf_name rest name_index merged'
                (ancestors ++ VStr base_name :: base_ancestors base_merged)
                (mkState (cache st) (trace st ++ [Merged base_name leaf_name]))
          | _ => Raise TypeError
          end
      end
  end.
End Resolver.

(** The own-only rule for one field: the leaf's value or no field at all. *)
Definition own_only (key : string) (data merged : dict) : dict :=
  match Dict.get key data with
  | Some v => Dict.set key v merged
  | None => Dict.del key merged
  end.

(** [build_merged_for_entry(entry, name_index, cache)] as the module binds it
    at import time: the second of its two definitions.  The fuel bounds the
    depth of the recursion through base records. *)
Fixpoint build_merged_for_entry (fuel : nat) (e : entry)
    (name_index : list (string * entry)) (st : state) : res (dict * state) :=
  match fuel with
  | O => Raise RecursionError
  | S fuel' =>
      let name := entry_name e in
      match Dict.get name (cache st) with
      | Some v => Ok (v, st)
      | None =>
          let data := entry_data e in
          '(merged, ancestors, st) <-
             bases_loop (build_merged_for_entry fuel') name
               (get_base_names data) name_index data [] st ;;
          deduped <- dedup_loop ancestors [] [] ;;
          let merged := Dict.set "_ancestors" (VList deduped) merged in
          let merged := own_only "descendants" data merged in
          Ok (merged,
              mkState (Dict.set name merged (cache st))
                      (trace st ++ [Computed name]))
      end
  end.

(** The first definition of [build_merged_for_entry] in the file, which the
    second one shadows: it also forces [name], [inherits], [tags] and a
    non-empty [deprecation_message] from the leaf. *)
Fixpoint build_merged_for_entry_shadowed (fuel : nat) (e : entry)
    (name_index : list (string * entry)) (st : state) : res (dict * state) :=
  match fuel with
  | O => Raise RecursionError
  | S fuel' =>
      let name := entry_name e in
      match Dict.get name (cache st) with
      | Some v => Ok (v, st)
      | None =>
          let data := entry_data e in
          '(merged, ancestors, st) <-
             bases_loop (build_merged_for_entry_shadowed fuel') name
               (get_base_names data) name_index data [] st ;;
          deduped <- dedup_loop ancestors [] [] ;;
          let merged := Dict.set "_ancestors" (VList deduped) merged in
          let merged :=
            Dict.set "name"
              (match Dict.get "name" data with Some n => n | None => VStr name end)
              merged in
          let merged := own_only "inherits" data merged in
          let merged := own_only "descendants" data merged in
          let merged :=
            match Dict.get "tags" data with
            | Some t => Dict.set "tags" t merged
            | None => merged
            end in
          let merged :=
            match Dict.get "deprecation_message" data with
            | Some m => if truthy m then Dict.set "deprecation_message" m merged
                        else merged
            | None => merged
            end in
          Ok (merged,
              mkState (Dict.set name merged (cache st))
                      (trace st ++ [Computed name]))
      end
  end.

(** ** Path normalisation

    [str(Path(p).as_posix()).lstrip("./")] for the POSIX flavour of
    [pathlib]: empty and ["."] components are dropped, a leading slash (or
    exactly two) is kept as the root, the empty path prints as ["."]; then
    every leading ['.'] and ['/'] is stripped. *)

Definition slash : ascii := "/"%char.
Definition dot : ascii := "."%char.

(** [s.split("/")], with [cur] the component being read, reversed. *)
Fixpoint split_slash (s : string) (cur : string) : list string :=
  match s with
  | EmptyString => [cur]
  | String c s' =>
      if Ascii.eqb c slash then cur :: split_slash s' EmptyString
      else split_slash s' (cur ++ String c EmptyString)%string
  end.

Definition join_slash (parts : list string) : string :=
  String.concat "/" parts.

Fixpoint leading_slashes (s : string) : nat :=
  match s with
  | String c s' => if Ascii.eqb c slash then S (leading_slashes s') else O
  | EmptyString => O
  end.

Definition as_posix (p : string) : string :=
  let parts :=
    filter (fun c => negb (String.eqb c "" || String.eqb c "."))
           (split_slash p EmptyString) in
  let root :=
    match leading_slashes p with
    | O => ""
    | 2 => "//"
    | _ => "/"
    end in
  let body := (root ++ join_slash parts)%string in
  if String.eqb body "" then "." else body.

(** [s.lstrip("./")]. *)
Fixpoint lstrip_dot_slash (s : string) : string :=
  match s with
  | String c s' =>
      if Ascii.eqb c dot || Ascii.eqb c slash then lstrip_dot_slash s' else s
  | EmptyString => EmptyString
  end.

Definition normalize_rel_path (p : string) : string :=
  lstrip_dot_slash (as_posix p).

(** ** The navigation walker *)

(** One yielded reference: the dict with keys [path], [breadcrumbs], [node]. *)
Record reference : Type := mkReference {
  ref_path : string;
  ref_breadcrumbs : list dict;
  ref_node : value
}.

(** [a or b or c] over [node.get] results, kept only when truthy. *)
Fixpoint first_truthy (node : dict) (keys : list string) : option value :=
  match keys with
  | [] => None
  | k :: rest =>
      match Dict.get k node with
      | Some v => if truthy v then Some v else first_truthy node rest
      | None => first_truthy node rest
      end
  end.

Definition meta_field (key : string) (v : option value) : dict :=
  match v with
  | Some x => [(key, x)]
  | None => []
  end.

(** The dict [meta] of a node: [id], [title], [type], each only when truthy. *)
Definition node_meta (node : dict) : dict :=
  meta_field "id" (first_truthy node ["id"; "key"])
  ++ meta_field "title" (first_truthy node ["title"; "label"; "name"])
  ++ meta_field "type" (first_truthy node ["type"]).

(** [current_breadcrumbs]. *)
Definition extend_breadcrumbs (breadcrumbs : list dict) (node : dict) : list dict :=
  match node_meta node with
  | [] => breadcrumbs
  | meta => breadcrumbs ++ [meta]
  end.

(** What the node itself yields. *)
Definition own_reference (node : dict) (current_breadcrumbs : list dict)
    : list reference :=
  match Dict.get "path" node with
  | Some (VStr p) =>
      [mkReference (normalize_rel_path p) current_breadcrumbs (VMap node)]
  | _ => []
  end.

(** [iter_reference_objects(node, breadcrumbs)]: the generator's yields, in
    order. *)
Fixpoint iter_reference_objects (node : value) (breadcrumbs : list dict)
    : list reference :=
  match node with
  | VMap fields =>
      let current_breadcrumbs := extend_breadcrumbs breadcrumbs fields in
      own_reference fields current_breadcrumbs
      ++ flat_map
           (fun kv =>
              let '(_, value) := kv in
              match value with
              | VMap _ | VList _ => iter_reference_objects value current_breadcrumbs
              | _ => []
              end) fields
  | VList items =>
      flat_map (fun item => iter_reference_objects item breadcrumbs) items
  | _ => []
  end.

(** ** Induction on values *)

Section ValueInd.
Variable P : value -> Prop.
Hypothesis HNull : P VNull.
Hypothesis HBool : forall b, P (VBool b).
Hypothesis HInt : forall z, P (VInt z).
Hypothesis HStr : forall s, P (VStr s).
Hypothesis HList : forall l, Forall P l -> P (VList l).
Hypothesis HMap : forall m, Forall (fun kv => P (snd kv)) m -> P (VMap m).

Fixpoint value_ind (v : value) : P v :=
  match v with
  | VNull => HNull
  | VBool b => HBool b
  | VInt z => HInt z
  | VStr s => HStr s
  | VList l =>
      HList ((fix all (l : list value) : Forall P l :=
                match l with
                | [] => Forall_nil _
                | x :: l' => Forall_cons x (value_ind x) (all l')
                end) l)
  | VMap m =>
      HMap ((fix all (m : dict) : Forall (fun kv => P (snd kv)) m :=
               match m with
               | [] => Forall_nil _
               | kv :: m' => Forall_cons kv (value_ind (snd kv)) (all m')
               end) m)
  end.
End ValueInd.

(** ** Specification-side definitions *)

(** What the specification describes for [get_base_names]: only the first
    present field of the priority list contributes. *)
Fixpoint first_present_base_names (keys : list string) (obj : dict) : list string :=
  match keys with
  | [] => []
  | key :: rest =>
      match Dict.get key obj with
      | Some val => field_names val
      | None => first_present_base_names rest obj
      end
  end.

(** What each present field contributes, in the order of [BASE_KEYS]. *)
Definition all_present_base_names (keys : list string) (obj : dict) : list string :=
  flat_map (fun key => match Dict.get key obj with
                       | Some val => field_names val
                       | None => []
                       end) keys.

(** The map nodes met on a way down the navigation tree from a node to a
    map [target] below it (or the node itself): the outermost first, [target]
    last. *)
Inductive descends : value -> list dict -> dict -> Prop :=
| descends_here fields :
    descends (VMap fields) [fields] fields
| descends_field fields key v trail target :
    In (key, v) fields ->
    descends v trail target ->
    descends (VMap fields) (fields :: trail) target
| descends_item items v trail target :
    In v items ->
    descends v trail target ->
    descends (VList items) trail target.

Definition nonempty (meta : dict) : bool :=
  match meta with [] => false | _ => true end.

(** One breadcrumb per node of the trail that has a breadcrumb field. *)
Definition trail_breadcrumbs (trail : list dict) : list dict :=
  filter nonempty (map node_meta trail).

(** The navigation tree of the specification's example. *)
Definition example_nav : value :=
  VMap [("title", VStr "Root");
        ("children",
         VList [VMap [("path", VStr "classes/Foo.yaml")];
                VMap [("path", VStr "classes/Bar.yaml"); ("title", VStr "Bar")]])].

(** What the walker yields below a map node, after the node itself. *)
Definition children_references (fields : dict) (current_breadcrumbs : list dict)
    : list reference :=
  flat_map
    (fun kv => iter_reference_objects (snd kv) current_breadcrumbs) fields.

(** A Python dict holds each key once. *)
Definition wf_dict {V : Type} (d : list (string * V)) : Prop :=
  NoDup (Dict.keys d).

(** The base-reference relation of an index is well founded below [e]. *)
Inductive resolvable (name_index : list (string * entry)) : entry -> Prop :=
| resolvable_bases e :
    (forall base_name base_entry,
        In base_name (get_base_names (entry_data e)) ->
        Dict.get base_name name_index = Some base_entry ->
        resolvable name_index base_entry) ->
    resolvable name_index e.

(** The names whose views were computed during the run, oldest first. *)
Fixpoint computed_names (tr : list event) : list string :=
  match tr with
  | [] => []
  | Computed n :: tr' => n :: computed_names tr'
  | Merged _ _ :: tr' => computed_names tr'
  end.

(** No view was computed twice, and every computed view is in the cache. *)
Definition no_duplicate_work (st : state) : Prop :=
  NoDup (computed_names (trace st))
  /\ forall n, In n (computed_names (trace st)) -> Dict.get n (cache st) <> None.

(** Two records that name each other as base, and one that names itself. *)
Definition cyc_a : entry :=
  mkEntry "A" (VStr "class") "classes/A.yaml"
    [("name", VStr "A"); ("inherits", VStr "B")].

Definition cyc_b : entry :=
  mkEntry "B" (VStr "class") "classes/B.yaml"
    [("name", VStr "B"); ("inherits", VStr "A")].

Definition cyc_self : entry :=
  mkEntry "S" (VStr "class") "classes/S.yaml"
    [("name", VStr "S"); ("inherits", VList [VStr "S"])].

Definition cyclic_index : list (string * entry) :=
  [("A", cyc_a); ("B", cyc_b); ("S", cyc_self)].

(** A diamond: D has the bases B and C, which both have the base A. *)
Definition dia_a : entry :=
  mkEntry "A" (VStr "class") "classes/A.yaml"
    [("name", VStr "A"); ("summary", VStr "top")].

Definition dia_b : entry :=
  mkEntry "B" (VStr "class") "classes/B.yaml"
    [("name", VStr "B"); ("inherits", VStr "A")].

Definition dia_c : entry :=
  mkEntry "C" (VStr "class") "classes/C.yaml"
    [("name", VStr "C"); ("inherits", VStr "A")].

Definition dia_d : entry :=
  mkEntry "D" (VStr "class") "classes/D.yaml"
    [("name", VStr "D"); ("inherits", VList [VStr "B"; VStr "C"])].

Definition diamond_index : list (string * entry) :=
  [("A", dia_a); ("B", dia_b); ("C", dia_c); ("D", dia_d)].

(** Every record is indexed under its own name, as [load_engine_objects]
    builds the index. *)
Definition index_by_name (name_index : list (string * entry)) : Prop :=
  forall n e, Dict.get n name_index = Some e -> entry_name e = n.

(** [z] is the record of a declared base of [x]. *)
Definition base_of (name_index : list (string * entry)) (x z : entry) : Prop :=
  exists b, In b (get_base_names (entry_data x))
            /\ Dict.get b name_index = Some z.

Inductive reaches (name_index : list (string * entry)) : entry -> entry -> Prop :=
| reaches_refl x : reaches name_index x x
| reaches_step x y z :
    base_of name_index x y -> reaches name_index y z ->
    reaches name_index x z.

(** A record a resolution of [e] can be called on: [e] itself or a record of
    the index. *)
Definition visited (name_index : list (string * entry)) (e x : entry) : Prop :=
  x = e \/ exists n, Dict.get n name_index = Some x.

(** The names [cyc] hold a cycle of base references: every record under one
    of these names declares a base whose record is again under one of these
    names. *)
Definition closed_cycle (name_index : list (string * entry)) (e : entry)
    (cyc : list string) : Prop :=
  forall x, visited name_index e x -> In (entry_name x) cyc ->
    exists b y,
      In b (get_base_names (entry_data x))
      /\ Dict.get b name_index = Some y
      /\ In (entry_name y) cyc.

(** The cache holds no view under these names. *)
Definition uncached (names : list string) (st : state) : Prop :=
  forall n, In n names -> Dict.get n (cache st) = None.

(** The state after a cache miss on [e] ends with the view [merged]. *)
Definition cache_view (e : entry) (merged : dict) (st : state) : state :=
  mkState (Dict.set (entry_name e) merged (cache st))
          (trace st ++ [Computed (entry_name e)]).

(** The body of [build_merged_for_entry] after its loop over the bases. *)
Definition finish_view (e : entry) (loop : dict * list value * state)
    : res (dict * state) :=
  let '(merged, ancestors, st) := loop in
  deduped <- dedup_loop ancestors [] [] ;;
  let merged := Dict.set "_ancestors" (VList deduped) merged in
  let merged := own_only "descendants" (entry_data e) merged in
  Ok (merged, cache_view e merged st).

(** A record whose only declared base, Ghost, is not in the index. *)
Definition ghost_leaf : entry :=
  mkEntry "Leaf" (VStr "class") "classes/Leaf.yaml"
    [("name", VStr "Leaf"); ("inherits", VStr "Ghost");
     ("summary", VStr "a leaf")].

(** The merge stays within the recursion budget on this child. *)
Definition merge_bounded_at (merge : value -> value -> res value)
    (child : value) : Prop :=
  forall base, bounded (merge base child).

(** What one iteration of [merge_fields] stores under [key]. *)
Definition merged_value (merge : value -> value -> res value) (key : string)
    (base_val : option value) (child_val : value) : res value :=
  match base_val with
  | None => Ok child_val
  | Some base_val =>
      match base_val, child_val with
      | VMap _, VMap _ => merge base_val child_val
      | VList bl, VList cl =>
          if in_merge_list_keys key
          then r <- merge_members merge bl cl ;; Ok (VList r)
          else Ok child_val
      | _, _ => Ok child_val
      end
  end.

Definition wf_index (name_index : list (string * entry)) : Prop :=
  forall n e, Dict.get n name_index = Some e -> wf_dict (entry_data e).

Definition wf_state (st : state) : Prop :=
  forall n v, Dict.get n (cache st) = Some v -> wf_dict v.

Definition is_map (v : value) : bool :=
  match v with VMap _ => true | _ => false end.

Definition is_list (v : value) : bool :=
  match v with VList _ => true | _ => false end.

(** No record of the index other than [e] declares the field [key]. *)
Definition others_lack (key : string) (idx : list (string * entry))
    (e : entry) : Prop :=
  forall n be, Dict.get n idx = Some be -> be <> e ->
               Dict.get key (entry_data be) = None.

(** No cached view carries the field [key]. *)
Definition cache_lacks (key : string) (st : state) : Prop :=
  forall n v, Dict.get n (cache st) = Some v -> Dict.get key v = None.

(** What one resolution does to the run's state: no duplicate work, the
    cache only grows, and it grows by records reached from [e]. *)
Definition run_step (idx : list (string * entry)) (e : entry)
    (st st' : state) : Prop :=
  no_duplicate_work st'
  /\ (forall y, Dict.get y (cache st) <> None -> Dict.get y (cache st') <> None)
  /\ (forall y, Dict.get y (cache st) = None ->
                Dict.get y (cache st') <> None ->
                exists ey, Dict.get y idx = Some ey /\ reaches idx e ey).

(** A small hierarchy: Leaf extends Base, Base inherits Root. *)
Definition root_entry : entry :=
  mkEntry "Root" (VStr "class") "classes/Root.yaml"
    [("name", VStr "Root"); ("summary", VStr "the root")].

Definition base_entry : entry :=
  mkEntry "Base" (VStr "class") "classes/Base.yaml"
    [("name", VStr "Base"); ("inherits", VStr "Root")].

Definition leaf_entry : entry :=
  mkEntry "Leaf" (VStr "class") "classes/Leaf.yaml"
    [("name", VStr "Leaf"); ("extends", VStr "Base");
     ("deprecation_message", VStr "use Other instead")].

(** A record whose file declares no [name]: it is indexed under its file
    stem. *)
Definition unnamed_entry : entry :=
  mkEntry "Anon" VNull "classes/Anon.yaml" [("inherits", VStr "Base")].

Definition small_index : list (string * entry) :=
  [("Root", root_entry); ("Base", base_entry); ("Leaf", leaf_entry);
   ("Anon", unnamed_entry)].

(** ** Named member groups: vocabulary of the statements *)

(** The key under which [named_items] stores a member. *)
Definition member_key (it : value) : option hkey :=
  match item_name it with
  | Some nv => hash_key nv
  | None => None
  end.

Definition is_unnamed (it : value) : bool :=
  match item_name it with None => true | Some _ => false end.

(** The entries kept positionally. *)
Definition unnamed (l : list value) : list value := filter is_unnamed l.

(** The named members of a sequence with their keys, in order. *)
Fixpoint keyed (l : list value) : Named.t :=
  match l with
  | [] => []
  | it :: l' =>
      match member_key it with
      | Some k => (k, it) :: keyed l'
      | None => keyed l'
      end
  end.

(** Python's order on names of one kind. *)
Definition key_le (a b : hkey) : Prop := total_leb a b = true.

(** Names that [sorted] can order: at most one name, or names that are all
    numbers, or all strings. *)
Definition one_kind (ks : list hkey) : Prop :=
  List.length ks <= 1
  \/ forallb is_num ks = true
  \/ forallb is_str ks = true.

(** The entry is a member stored under the key [k]. *)
Definition keyed_as (k : hkey) (it : value) : bool :=
  match member_key it with
  | Some k' => hkey_eqb k k'
  | None => false
  end.

(** The members of a sequence stored under the key [k], in order. *)
Definition members_named (k : hkey) (l : list value) : list value :=
  filter (keyed_as k) l.

Fixpoint last_opt {A : Type} (l : list A) : option A :=
  match l with
  | [] => None
  | x :: l' => match last_opt l' with
               | Some y => Some y
               | None => Some x
               end
  end.

(** The members [cs] merged one after another, in order, into [m]. *)
Fixpoint merge_chain (m : value) (cs : list value) : res value :=
  match cs with
  | [] => Ok m
  | c :: cs' => m' <- deep_merge m c ;; merge_chain m' cs'
  end.

(** [m] is what the members [cs] give when merged in order into [start], or
    into the first of them when there is no [start]. *)
Definition chain_from (start : option value) (cs : list value) (m : value)
    : Prop :=
  match start, cs with
  | Some b, _ => merge_chain b cs = Ok m
  | None, c :: cs' => merge_chain c cs' = Ok m
  | None, [] => False
  end.

(** What the merged group holds for a name: the child members of that name
    merged in order into the last base member of that name. *)
Definition group_member (bl cl : list value) (k : hkey) (m : value) : Prop :=
  chain_from (last_opt (members_named k bl)) (members_named k cl) m.

Definition is_vstr (v : value) : bool :=
  match v with VStr _ => true | _ => false end.

(** A field called [name] holds a string. *)
Definition name_is_str (kv : string * value) : bool :=
  negb (String.eqb (fst kv) "name") || is_vstr (snd kv).

(** Every [name] field anywhere in the value is a string. *)
Fixpoint str_names (v : value) : bool :=
  match v with
  | VList l => forallb str_names l
  | VMap m => forallb (fun kv => name_is_str kv && str_names (snd kv)) m
  | _ => true
  end.

(** Two child members of one name and no base member: neither child member
    is in the merged group. *)
Definition dup_child : value :=
  VMap [("members",
         VList [VMap [("name", VStr "Y"); ("a", VInt 1)];
                VMap [("name", VStr "Y"); ("b", VInt 2)]])].

Definition dup_base : value := VMap [("members", VList [])].

(** Member names of two kinds: an integer in the base, a string in the
    child. *)
Definition mixed_base : value :=
  VMap [("members", VList [VMap [("name", VInt 1)]])].

Definition mixed_child : value :=
  VMap [("members", VList [VMap [("name", VStr "a")]])].

(** The example of the specification: base member X, child members X, Y. *)
Definition example_base : value :=
  VMap [("members", VList [VMap [("name", VStr "X"); ("desc", VStr "b")]])].

Definition example_child : value :=
  VMap [("members",
         VList [VMap [("name", VStr "X"); ("desc", VStr "c")];
                VMap [("name", VStr "Y"); ("desc", VStr "c2")]])].

(** The members stored in [named_items] have string keys and string names
    throughout. *)
Definition named_ok (named : Named.t) : Prop :=
  Forall (fun kv => is_str (fst kv) = true /\ str_names (snd kv) = true) named.

(** [deep_merge] returns on string-named operands, for this child. *)
Definition merges_str_named (child : value) : Prop :=
  forall base,
    str_names base = true -> str_names child = true ->
    exists r, deep_merge base child = Ok r /\ str_names r = true.

(** ** The same code over a store

    Python lists and dicts are mutable objects reached through references;
    [copy.deepcopy] matters only there.  In this second embedding a list or a
    dict lives at a location of the store, scalars are immediate, and every
    function threads the store.  The entries and the by-name index are only
    read by the resolver: they are kept as records holding a reference to the
    body.  The cache maps names to references to views. *)

Module Store.

Inductive ref : Type :=
| RNull
| RBool (b : bool)
| RInt (z : Z)
| RStr (s : string)
| RObj (l : nat).

Inductive obj : Type :=
| OList (items : list ref)
| ODict (fields : list (string * ref)).

Definition heap : Type := list obj.

Definition refs_of (o : obj) : list ref :=
  match o with
  | OList items => items
  | ODict fields => map snd fields
  end.

(** A new object goes to the next free location. *)
Definition alloc (o : obj) (h : heap) : nat * heap :=
  (List.length h, h ++ [o]).

Fixpoint write (l : nat) (o : obj) (h : heap) : heap :=
  match h, l with
  | [], _ => []
  | _ :: t, O => o :: t
  | x :: t, S l' => x :: write l' o t
  end.

(** [isinstance(r, list)] / [isinstance(r, dict)], with the content. *)
Definition as_list (h : heap) (r : ref) : option (nat * list ref) :=
  match r with
  | RObj l => match nth_error h l with
              | Some (OList items) => Some (l, items)
              | _ => None
              end
  | _ => None
  end.

Definition as_dict (h : heap) (r : ref) : option (nat * list (string * ref)) :=
  match r with
  | RObj l => match nth_error h l with
              | Some (ODict fields) => Some (l, fields)
              | _ => None
              end
  | _ => None
  end.

(** [y.append(a)]. *)
Definition list_append (y : nat) (a : ref) (h : heap) : res heap :=
  match nth_error h y with
  | Some (OList items) => Ok (write y (OList (items ++ [a])) h)
  | _ => Raise TypeError
  end.

(** [y[k] = v]. *)
Definition dict_store (y : nat) (k : string) (v : ref) (h : heap) : res heap :=
  match nth_error h y with
  | Some (ODict fields) => Ok (write y (ODict (Dict.set k v fields)) h)
  | _ => Raise TypeError
  end.

(** [del y[k]]. *)
Definition dict_delete (y : nat) (k : string) (h : heap) : res heap :=
  match nth_error h y with
  | Some (ODict fields) => Ok (write y (ODict (Dict.del k fields)) h)
  | _ => Raise TypeError
  end.

Fixpoint memo_get (l : nat) (memo : list (nat * nat)) : option nat :=
  match memo with
  | [] => None
  | (l', y) :: memo' => if Nat.eqb l l' then Some y else memo_get l memo'
  end.

Section Copy.
(** The recursive occurrence of [deepcopy(x, memo)]. *)
Variable copy : ref -> list (nat * nat) -> heap ->
                res (ref * list (nat * nat) * heap).

(** [for a in x: y.append(deepcopy(a, memo))]. *)
Fixpoint copy_items (items : list ref) (y : nat) (memo : list (nat * nat))
    (h : heap) : res (list (nat * nat) * heap) :=
  match items with
  | [] => Ok (memo, h)
  | a :: rest =>
      '(a', memo, h) <- copy a memo h ;;
      h <- list_append y a' h ;;
      copy_items rest y memo h
  end.

(** [for key, value in x.items(): y[key] = deepcopy(value, memo)]. *)
Fixpoint copy_fields (fields : list (string * ref)) (y : nat)
    (memo : list (nat * nat)) (h : heap) : res (list (nat * nat) * heap) :=
  match fields with
  | [] => Ok (memo, h)
  | (key, v) :: rest =>
      '(v', memo, h) <- copy v memo h ;;
      h <- dict_store y key v' h ;;
      copy_fields rest y memo h
  end.
End Copy.

(** [copy.deepcopy(x, memo)]: scalars are returned as they are; a list or a
    dict already copied is found in the memo; otherwise the empty copy is
    allocated, registered in the memo, and filled.  The content of [x] is
    read once: [x] is not written while it is copied. *)
Fixpoint deepcopy_memo (fuel : nat) (x : ref) (memo : list (nat * nat))
    (h : heap) : res (ref * list (nat * nat) * heap) :=
  match x with
  | RObj l =>
      match fuel with
      | O => Raise RecursionError
      | S fuel' =>
          match memo_get l memo with
          | Some y => Ok (RObj y, memo, h)
          | None =>
              match nth_error h l with
              | None => Raise KeyError
              | Some (OList items) =>
                  let '(y, h) := alloc (OList []) h in
                  '(memo, h) <-
                     copy_items (deepcopy_memo fuel') items y ((l, y) :: memo) h ;;
                  Ok (RObj y, memo, h)
              | Some (ODict fields) =>
                  let '(y, h) := alloc (ODict []) h in
                  '(memo, h) <-
                     copy_fields (deepcopy_memo fuel') fields y ((l, y) :: memo) h ;;
                  Ok (RObj y, memo, h)
              end
          end
      end
  | _ => Ok (x, memo, h)
  end.

Definition deepcopy (fuel : nat) (x : ref) (h : heap) : res (ref * heap) :=
  '(y, _, h) <- deepcopy_memo fuel x [] h ;; Ok (y, h).

(** The hash key of a name; a list or a dict is unhashable. *)
Definition ref_key (r : ref) : option hkey :=
  match r with
  | RNull => Some KNone
  | RBool b => Some (KNum (if b then 1 else 0)%Z)
  | RInt z => Some (KNum z)
  | RStr s => Some (KStr s)
  | RObj _ => None
  end.

(** The local dict [named_items], from names to references. *)
Fixpoint named_get (k : hkey) (d : list (hkey * ref)) : option ref :=
  match d with
  | [] => None
  | (k', v) :: d' => if hkey_eqb k k' then Some v else named_get k d'
  end.

Fixpoint named_set (k : hkey) (v : ref) (d : list (hkey * ref))
    : list (hkey * ref) :=
  match d with
  | [] => [(k, v)]
  | (k', v') :: d' =>
      if hkey_eqb k k' then (k', v) :: d' else (k', v') :: named_set k v d'
  end.

(** [it["name"]] when [isinstance(it, dict) and "name" in it]. *)
Definition item_name (h : heap) (it : ref) : option ref :=
  match as_dict h it with
  | Some (_, fields) => Dict.get "name" fields
  | None => None
  end.

Section Merge.
(** The recursive occurrences of [deep_merge] and [copy.deepcopy]. *)
Variable merge : ref -> ref -> heap -> res (ref * heap).
Variable copy : ref -> heap -> res (ref * heap).

(** [for it in base_val], filling the list at [merged] and [named_items]. *)
Fixpoint base_items (base_val : list ref) (merged : nat)
    (named_items : list (hkey * ref)) (h : heap)
    : res (list (hkey * ref) * heap) :=
  match base_val with
  | [] => Ok (named_items, h)
  | it :: rest =>
      '(it_copy, h) <- copy it h ;;
      match item_name h it_copy with
      | Some nv =>
          match ref_key nv with
          | Some n => base_items rest merged (named_set n it_copy named_items) h
          | None => Raise TypeError
          end
      | None =>
          h <- list_append merged it_copy h ;;
          base_items rest merged named_items h
      end
  end.

(** [for it in child_val]. *)
Fixpoint child_items (child_val : list ref) (merged : nat)
    (named_items : list (hkey * ref)) (h : heap)
    : res (list (hkey * ref) * heap) :=
  match child_val with
  | [] => Ok (named_items, h)
  | it :: rest =>
      '(it_copy, h) <- copy it h ;;
      match item_name h it_copy with
      | Some nv =>
          match ref_key nv with
          | Some n =>
              match named_get n named_items with
              | Some old =>
                  '(m, h) <- merge old it_copy h ;;
                  child_items rest merged (named_set n m named_items) h
              | None =>
                  child_items rest merged (named_set n it_copy named_items) h
              end
          | None => Raise TypeError
          end
      | None =>
          h <- list_append merged it_copy h ;;
          child_items rest merged named_items h
      end
  end.

(** [for n in sorted(named_items.keys()): merged.append(named_items[n])]. *)
Fixpoint append_named (ks : list hkey) (named_items : list (hkey * ref))
    (merged : nat) (h : heap) : res heap :=
  match ks with
  | [] => Ok h
  | n :: rest =>
      match named_get n named_items with
      | Some v =>
          h <- list_append merged v h ;;
          append_named rest named_items merged h
      | None => Raise KeyError
      end
  end.

(** The [key in MERGE_LIST_KEYS] branch: the reference to the new list. *)
Definition merge_members (base_val child_val : list ref) (h : heap)
    : res (ref * heap) :=
  let '(merged, h) := alloc (OList []) h in
  '(named_items, h) <- base_items base_val merged [] h ;;
  '(named_items, h) <- child_items child_val merged named_items h ;;
  ks <- sorted (map fst named_items) ;;
  h <- append_named ks named_items merged h ;;
  Ok (RObj merged, h).

(** What one iteration of the loop over [child.items()] stores under [key],
    given [result[key]] when the key is there. *)
Definition merged_ref (key : string) (base_val : option ref) (child_val : ref)
    (h : heap) : res (ref * heap) :=
  match base_val with
  | None => copy child_val h
  | Some base_val =>
      match as_dict h base_val, as_dict h child_val with
      | Some _, Some _ => merge base_val child_val h
      | _, _ =>
          match as_list h base_val, as_list h child_val with
          | Some (_, bl), Some (_, cl) =>
              if in_merge_list_keys key then merge_members bl cl h
              else copy child_val h
          | _, _ => copy child_val h
          end
      end
  end.

(** [for key, child_val in child.items()], writing into the dict at
    [result]; the items of [child] are read once: [child] is not written
    while the loop runs. *)
Fixpoint merge_fields (child : list (string * ref)) (result : nat) (h : heap)
    : res heap :=
  match child with
  | [] => Ok h
  | (key, child_val) :: rest =>
      match nth_error h result with
      | Some (ODict rfields) =>
          '(x, h) <- merged_ref key (Dict.get key rfields) child_val h ;;
          h <- dict_store result key x h ;;
          merge_fields rest result h
      | _ => Raise TypeError
      end
  end.
End Merge.

(** [deep_merge(base, child)] over the store. *)
Fixpoint deep_merge (fuel : nat) (base child : ref) (h : heap)
    : res (ref * heap) :=
  match fuel with
  | O => Raise RecursionError
  | S fuel' =>
      match as_dict h base, as_dict h child with
      | Some _, Some (_, cfields) =>
          '(result, h) <- deepcopy fuel' base h ;;
          match result with
          | RObj y =>
              h <- merge_fields (deep_merge fuel') (deepcopy fuel') cfields y h ;;
              Ok (result, h)
          | _ => Raise TypeError
          end
      | _, _ => deepcopy fuel' child h
      end
  end.

(** Entries as the resolver reads them: [entry["name"]] and [entry["data"]],
    a reference to the body, which [load_engine_objects] makes a dict. *)
Record entry : Type := mkEntry {
  entry_name : string;
  entry_data : ref
}.

(** [v for v in val if isinstance(v, str)]. *)
Fixpoint str_items (val : list ref) : list string :=
  match val with
  | [] => []
  | RStr s :: rest => s :: str_items rest
  | _ :: rest => str_items rest
  end.

Definition field_names (h : heap) (val : ref) : list string :=
  match val with
  | RStr s => [s]
  | _ => match as_list h val with
         | Some (_, items) => str_items items
         | None => []
         end
  end.

Definition get_base_names (h : heap) (obj : list (string * ref)) : list string :=
  flat_map (fun key => match Dict.get key obj with
                       | Some val => field_names h val
                       | None => []
                       end) BASE_KEYS.

(** [base_merged.get("_ancestors", [])] when it is a list. *)
Definition base_ancestors (h : heap) (base_merged : ref) : list ref :=
  match as_dict h base_merged with
  | Some (_, fields) =>
      match Dict.get "_ancestors" fields with
      | Some a => match as_list h a with
                  | Some (_, items) => items
                  | None => []
                  end
      | None => []
      end
  | None => []
  end.

(** The de-duplication through the set [seen]; the list [deduped] holds
    hashable references only. *)
Fixpoint dedup_loop (ancestors : list ref) (seen : list hkey)
    (deduped : list ref) : res (list ref) :=
  match ancestors with
  | [] => Ok deduped
  | a :: rest =>
      match ref_key a with
      | None => Raise TypeError
      | Some k =>
          if existsb (hkey_eqb k) seen
          then dedup_loop rest seen deduped
          else dedup_loop rest (k :: seen) (deduped ++ [a])
      end
  end.

Section Resolver.
(** The recursive occurrence of [build_merged_for_entry]; the merge and the
    copy at the current recursion budget. *)
Variable build : entry -> list (string * entry) -> list (string * ref) -> heap ->
                 res (ref * list (string * ref) * heap).
Variable merge : ref -> ref -> heap -> res (ref * heap).

(** The loop [for base_name in base_names]; [ancestors] is local. *)
Fixpoint bases_loop (base_names : list string)
    (name_index : list (string * entry)) (merged : ref) (ancestors : list ref)
    (cache : list (string * ref)) (h : heap)
    : res (ref * list ref * list (string * ref) * heap) :=
  match base_names with
  | [] => Ok (merged, ancestors, cache, h)
  | base_name :: rest =>
      match Dict.get base_name name_index with
      | None => bases_loop rest name_index merged ancestors cache h
      | Some base_entry =>
          '(base_merged, cache, h) <- build base_entry name_index cache h ;;
          '(merged, h) <- merge base_merged merged h ;;
          bases_loop rest name_index merged
            (ancestors ++ RStr base_name :: base_ancestors h base_merged)
            cache h
      end
  end.
End Resolver.

(** [build_merged_for_entry(entry, name_index, cache)] over the store, as
    bound at import time. *)
Fixpoint build_merged_for_entry (fuel : nat) (e : entry)
    (name_index : list (string * entry)) (cache : list (string * ref))
    (h : heap) : res (ref * list (string * ref) * heap) :=
  match fuel with
  | O => Raise RecursionError
  | S fuel' =>
      let name := entry_name e in
      match Dict.get name cache with
      | Some v => Ok (v, cache, h)
      | None =>
          (* data = entry["data"] or {} *)
          match as_dict h (entry_data e) with
          | None => Raise TypeError
          | Some (_, fields) =>
              let '(data, h) :=
                match fields with
                | [] => let '(d, h) := alloc (ODict []) h in (RObj d, h)
                | _ => (entry_data e, h)
                end in
              '(merged, h) <- deepcopy fuel' data h ;;
              '(merged, ancestors, cache, h) <-
                 bases_loop (build_merged_for_entry fuel') (deep_merge fuel')
                   (get_base_names h fields) name_index merged [] cache h ;;
              deduped <- dedup_loop ancestors [] [] ;;
              let '(d, h) := alloc (OList deduped) h in
              match merged with
              | RObj m =>
                  h <- dict_store m "_ancestors" (RObj d) h ;;
                  h <- match Dict.get "descendants" fields with
                       | Some dv =>
                           '(c, h) <- deepcopy fuel' dv h ;;
                           dict_store m "descendants" c h
                       | None => dict_delete m "descendants" h
                       end ;;
                  Ok (merged, Dict.set name merged cache, h)
              | _ => Raise TypeError
              end
          end
      end
  end.

End Store.

(** ** Vocabulary of the frame properties *)

Module StoreSpec.
Import Store.

(** [r] is a scalar, or an object allocated at or after [n]. *)
Definition fresh (n : nat) (h : heap) (r : ref) : Prop :=
  match r with
  | RObj y => n <= y < List.length h
  | _ => True
  end.

(** No object allocated at or after [n] references one allocated before. *)
Definition closed_from (n : nat) (h : heap) : Prop :=
  forall l o, n <= l -> nth_error h l = Some o -> Forall (fresh n h) (refs_of o).

(** The store has grown and every object allocated before [m] is as it was. *)
Definition frame (m : nat) (h h' : heap) : Prop :=
  List.length h <= List.length h'
  /\ forall l, l < m -> nth_error h' l = nth_error h l.

(** A computation that returns a reference: it writes to no object that
    existed when it started, and what it returns is a scalar or was allocated
    by it, and reaches only objects allocated at or after [n]. *)
Definition allocates (n : nat) (f : heap -> res (ref * heap)) : Prop :=
  forall h r h',
    n <= List.length h -> closed_from n h ->
    f h = Ok (r, h') ->
    frame (List.length h) h h' /\ closed_from n h' /\ fresh (List.length h) h' r.

Definition memo_fresh (n : nat) (h : heap) (memo : list (nat * nat)) : Prop :=
  Forall (fun p => n <= snd p < List.length h) memo.

Definition refs_fresh {K : Type} (n : nat) (h : heap) (d : list (K * ref)) : Prop :=
  Forall (fun kv => fresh n h (snd kv)) d.

(** What a copy with a memo guarantees. *)
Definition copy_spec (n : nat)
    (copy : ref -> list (nat * nat) -> heap ->
            res (ref * list (nat * nat) * heap)) : Prop :=
  forall x memo h r memo' h',
    n <= List.length h -> closed_from n h -> memo_fresh n h memo ->
    copy x memo h = Ok (r, memo', h') ->
    frame (List.length h) h h'
    /\ closed_from n h'
    /\ memo_fresh n h' memo'
    /\ fresh n h' r
    /\ (memo = [] -> fresh (List.length h) h' r).

(** What one resolution guarantees, for a run whose views live at or after
    [n]. *)
Definition build_spec (n : nat)
    (build : entry -> list (string * entry) -> list (string * ref) -> heap ->
             res (ref * list (string * ref) * heap)) : Prop :=
  forall e idx cache h v cache' h',
    n <= List.length h -> closed_from n h -> refs_fresh n h cache ->
    build e idx cache h = Ok (v, cache', h') ->
    frame (List.length h) h h'
    /\ closed_from n h'
    /\ refs_fresh n h' cache'
    /\ fresh n h' v.

(** The pure value a reference stands for, read off the store. *)
Fixpoint reify (fuel : nat) (h : heap) (r : ref) : option value :=
  match r with
  | RNull => Some VNull
  | RBool b => Some (VBool b)
  | RInt z => Some (VInt z)
  | RStr s => Some (VStr s)
  | RObj l =>
      match fuel with
      | O => None
      | S fuel' =>
          match nth_error h l with
          | None => None
          | Some (OList items) =>
              option_map VList
                (fold_right (fun a acc =>
                               match reify fuel' h a, acc with
                               | Some v, Some vs => Some (v :: vs)
                               | _, _ => None
                               end) (Some []) items)
          | Some (ODict fields) =>
              option_map VMap
                (fold_right (fun kv acc =>
                               match reify fuel' h (snd kv), acc with
                               | Some v, Some vs => Some ((fst kv, v) :: vs)
                               | _, _ => None
                               end) (Some []) fields)
          end
      end
  end.

(** A store holding the bodies of two records, Base (with a list of tags)
    and Leaf, which inherits Base. *)
Definition ex_heap : heap :=
  [ODict [("name", RStr "Base"); ("tags", RObj 1); ("members", RObj 3)];
   OList [RStr "core"];
   ODict [("name", RStr "Leaf"); ("inherits", RStr "Base"); ("members", RObj 5)];
   OList [RObj 4];
   ODict [("name", RStr "X"); ("desc", RStr "b")];
   OList [RObj 6; RObj 7];
   ODict [("name", RStr "X"); ("desc", RStr "c")];
   ODict [("name", RStr "Y"); ("desc", RStr "c2")]].

Definition ex_base : entry := mkEntry "Base" (RObj 0).
Definition ex_leaf : entry := mkEntry "Leaf" (RObj 2).

Definition ex_index : list (string * entry) :=
  [("Base", ex_base); ("Leaf", ex_leaf)].

End StoreSpec.

(** The same two records as values, and the resolution of Leaf. *)
Definition ex_base_body : dict :=
  [("name", VStr "Base"); ("tags", VList [VStr "core"]);
   ("members", VList [VMap [("name", VStr "X"); ("desc", VStr "b")]])].

Definition ex_leaf_body : dict :=
  [("name", VStr "Leaf"); ("inherits", VStr "Base");
   ("members", VList [VMap [("name", VStr "X"); ("desc", VStr "c")];
                      VMap [("name", VStr "Y"); ("desc", VStr "c2")]])].

Definition ex_value_index : list (string * entry) :=
  [("Base", mkEntry "Base" VNull "classes/Base.yaml" ex_base_body);
   ("Leaf", mkEntry "Leaf" VNull "classes/Leaf.yaml" ex_leaf_body)].

Definition resolve_example : res (dict * state) :=
  build_merged_for_entry 4
    (mkEntry "Leaf" VNull "classes/Leaf.yaml" ex_leaf_body)
    ex_value_index empty_state.

(** ** Documentation paths, URLs and the lookup by path *)

(** [s.startswith(prefix)]. *)
Definition startswith (prefix s : string) : bool := String.prefix prefix s.

(** [s[n:]]. *)
Fixpoint str_drop (n : nat) (s : string) : string :=
  match n, s with
  | O, _ => s
  | S n', String _ s' => str_drop n' s'
  | S _, EmptyString => EmptyString
  end.

(** [s[:n]]. *)
Fixpoint str_take (n : nat) (s : string) : string :=
  match n, s with
  | O, _ => EmptyString
  | S n', String c s' => String c (str_take n' s')
  | S _, EmptyString => EmptyString
  end.

(** [s.endswith(suffix)]. *)
Definition endswith (suffix s : string) : bool :=
  Nat.leb (String.length suffix) (String.length s)
  && String.eqb (str_drop (String.length s - String.length suffix) s) suffix.

(** [s[:-n]] for a positive [n]. *)
Definition drop_last (n : nat) (s : string) : string :=
  str_take (String.length s - n) s.

(** [s.removesuffix(suffix)]. *)
Definition removesuffix (suffix s : string) : string :=
  if negb (String.eqb suffix "") && endswith suffix s
  then drop_last (String.length suffix) s
  else s.

(** [s.lower()] on the UTF-8 bytes: the ASCII capitals.  Python lowercases
    other letters too, but the result is only tested for the ASCII suffix
    [.yaml], and no character outside ASCII has a lowercase form that ends in
    one of the letters of that suffix. *)
Definition lower_char (c : ascii) : ascii :=
  let n := nat_of_ascii c in
  if Nat.leb 65 n && Nat.leb n 90 then ascii_of_nat (n + 32) else c.

Fixpoint lower (s : string) : string :=
  match s with
  | EmptyString => EmptyString
  | String c s' => String (lower_char c) (lower s')
  end.

(** [s.lstrip("/")]. *)
Fixpoint lstrip_slash (s : string) : string :=
  match s with
  | String c s' => if Ascii.eqb c slash then lstrip_slash s' else s
  | EmptyString => EmptyString
  end.

(** [s.rstrip("/")]. *)
Fixpoint rstrip_slash (s : string) : string :=
  match s with
  | EmptyString => EmptyString
  | String c s' =>
      let r := rstrip_slash s' in
      if String.eqb r "" && Ascii.eqb c slash then EmptyString else String c r
  end.

(** The list [prefixes] of [resolve_doc_rel_path]. *)
Definition prefixes : list string :=
  ["reference/engine/"; "/reference/engine/";
   "en-us/reference/engine/"; "/en-us/reference/engine/";
   "engine/"; "/engine/"].

(** The loop [for prefix in prefixes] with its fall-through [return p]. *)
Fixpoint strip_prefix (ps : list string) (p : string) : string :=
  match ps with
  | [] => p
  | prefix :: rest =>
      if startswith prefix p then str_drop (String.length prefix) p
      else strip_prefix rest p
  end.

Definition resolve_doc_rel_path (nav_path : string) : string :=
  strip_prefix prefixes (normalize_rel_path nav_path).

Definition ENGINE_BASE_URL : string :=
  "https://create.roblox.com/docs/reference/engine".

Definition path_to_url (rel_yaml_path : string) : string :=
  let slug :=
    if endswith ".yaml" (lower rel_yaml_path) then drop_last 5 rel_yaml_path
    else rel_yaml_path in
  (rstrip_slash ENGINE_BASE_URL ++ "/" ++ lstrip_slash slug)%string.

(** The list [candidates] of [lookup_entry_for_nav_path]. *)
Definition candidates (base_rel : string) : list string :=
  base_rel
  :: (if endswith ".yaml" (lower base_rel) then []
      else [(base_rel ++ ".yaml")%string]).

(** The loop [for cand in candidates]; [None] is the pair [(None, None)]. *)
Fixpoint lookup_candidates (cands : list string)
    (path_index : list (string * entry)) : option (string * entry) :=
  match cands with
  | [] => None
  | cand :: rest =>
      let key := normalize_rel_path cand in
      match Dict.get key path_index with
      | Some e => Some (key, e)
      | None => lookup_candidates rest path_index
      end
  end.

Definition lookup_entry_for_nav_path (raw_nav_path : string)
    (path_index : list (string * entry)) : option (string * entry) :=
  lookup_candidates (candidates (resolve_doc_rel_path raw_nav_path)) path_index.

(** ** Loading the records *)

(** One file found under the documentation root: its path relative to the
    root in POSIX form, the stem of its name, and its body after
    [load_yaml(yaml_path) or {}], for a file that is empty or holds a
    mapping. *)
Record yaml_file : Type := mkFile {
  file_rel : string;
  file_stem : string;
  file_data : dict
}.

(** [d.get(k)]. *)
Definition get_or_none (k : string) (d : dict) : value :=
  match Dict.get k d with
  | Some v => v
  | None => VNull
  end.

(** [a or b]. *)
Definition or_else (a b : value) : value := if truthy a then a else b.

(** The entry built for one file.  The entries of this embedding carry a
    string name; a body whose [name] is truthy and not a string is outside
    it. *)
Definition entry_of_file (f : yaml_file) : option entry :=
  let data := file_data f in
  match or_else (get_or_none "name" data) (VStr (file_stem f)) with
  | VStr name =>
      Some (mkEntry name
              (or_else (get_or_none "type" data) (get_or_none "kind" data))
              (file_rel f) data)
  | _ => None
  end.

(** The loop over the files, in the order [rglob] yields them. *)
Fixpoint load_loop (files : list yaml_file)
    (name_index path_index : list (string * entry))
    : option (list (string * entry) * list (string * entry)) :=
  match files with
  | [] => Some (name_index, path_index)
  | f :: rest =>
      match entry_of_file f with
      | None => None
      | Some e =>
          load_loop rest
            (Dict.set (entry_name e) e name_index)
            (Dict.set (normalize_rel_path (file_rel f)) e path_index)
      end
  end.

Definition load_engine_objects (files : list yaml_file)
    : option (list (string * entry) * list (string * entry)) :=
  load_loop files [] [].

(** ** The main loop *)

(** The dict [record] written for one navigation object. *)
Record record : Type := mkRecord {
  record_id : string;
  record_name : string;
  record_kind : value;
  record_path : string;
  record_url : string;
  record_breadcrumbs : list dict;
  record_reference_node : value;
  record_raw_yaml : dict;
  record_merged_yaml : dict
}.

(** The loop [for obj in nav_objects] of [main], with the records in the
    order they are written and the counter [missing]; [count_written] is the
    length of [written].  Writing the files is left out. *)
Fixpoint main_loop (fuel : nat) (nav_objects : list reference)
    (name_index path_index : list (string * entry)) (merged_cache : state)
    (written : list record) (missing : nat)
    : res (list record * nat * state) :=
  match nav_objects with
  | [] => Ok (written, missing, merged_cache)
  | obj :: rest =>
      let raw_nav_path := ref_path obj in
      match lookup_entry_for_nav_path raw_nav_path path_index with
      | None =>
          main_loop fuel rest name_index path_index merged_cache written
            (S missing)
      | Some (doc_rel_path, e) =>
          '(merged_yaml, merged_cache) <-
             build_merged_for_entry fuel e name_index merged_cache ;;
          let record :=
            mkRecord ("engine/" ++ removesuffix ".yaml" doc_rel_path)%string
              (entry_name e) (entry_kind e) doc_rel_path
              (path_to_url doc_rel_path)
              (ref_breadcrumbs obj) (ref_node obj) (entry_data e)
              merged_yaml in
          main_loop fuel rest name_index path_index merged_cache
            (written ++ [record]) missing
      end
  end.

(** [main] after the two indexes are loaded: the walk over the navigation
    tree [load_yaml(REFERENCE_YAML) or {}] and the loop, from an empty
    cache. *)
Definition main (fuel : nat) (name_index path_index : list (string * entry))
    (ref_data : value) : res (list record * nat * state) :=
  main_loop fuel (iter_reference_objects (or_else ref_data (VMap [])) [])
    name_index path_index empty_state [] 0.

(** ** Vocabulary of the further properties *)

(** A yielded reference seen from an enclosing walk that had already
    collected [breadcrumbs]. *)
Definition under (breadcrumbs : list dict) (r : reference) : reference :=
  mkReference (ref_path r) (breadcrumbs ++ ref_breadcrumbs r) (ref_node r).

(** The computation does not raise [KeyError]. *)
Definition no_key_error {A : Type} (r : res A) : Prop := r <> Raise KeyError.

(** The merge does not raise [KeyError] on this child. *)
Definition merge_no_key_error_at (merge : value -> value -> res value)
    (child : value) : Prop :=
  forall base, no_key_error (merge base child).

(** The keys of the child that the base does not have, in the child's
    order. *)
Definition new_keys (base child : dict) : list string :=
  filter (fun k => negb (Dict.has k base)) (Dict.keys child).

(** The base value and the child value of one key are both maps, or both
    lists under a member-group key: the only cases in which the child's value
    does not simply replace the base's. *)
Definition merged_in_depth (key : string) (base_val child_val : value) : bool :=
  (is_map base_val && is_map child_val)
  || (is_list base_val && is_list child_val && in_merge_list_keys key).

(** What the first definition of [build_merged_for_entry] stores under
    [name]: [data.get("name", entry["name"])]. *)
Definition leaf_name (e : entry) : value :=
  match Dict.get "name" (entry_data e) with
  | Some n => n
  | None => VStr (entry_name e)
  end.

(** ** Vocabulary of the path properties *)

Fixpoint no_slash (s : string) : bool :=
  match s with
  | EmptyString => true
  | String c s' => negb (Ascii.eqb c slash) && no_slash s'
  end.

(** A component that [pathlib] keeps: not empty, not [.], without slash. *)
Definition part_ok (c : string) : bool :=
  no_slash c && negb (String.eqb c "" || String.eqb c ".").

(** The string starts with a character other than [.] and [/]. *)
Definition clean_head (s : string) : bool :=
  match s with
  | String c _ => negb (Ascii.eqb c dot || Ascii.eqb c slash)
  | EmptyString => false
  end.

(** A normalised relative path: empty, or components that [pathlib] keeps,
    the first of which does not start with a dot. *)
Definition normal_path (q : string) : Prop :=
  q = ""
  \/ exists c rest,
       q = join_slash (c :: rest)
       /\ forallb part_ok (c :: rest) = true
       /\ clean_head c = true.

(** The leading dots of a component removed. *)
Fixpoint strip_dots (c : string) : string :=
  match c with
  | String ch c' => if Ascii.eqb ch dot then strip_dots c' else c
  | EmptyString => EmptyString
  end.

(** The prefixes of [resolve_doc_rel_path] that can match a normalised
    path. *)
Definition live_prefixes : list string :=
  ["reference/engine/"; "en-us/reference/engine/"; "engine/"].

(** The entries of a path index were built from files of the list, each
    under the normalised path of its file. *)
Definition paths_of_files (files : list yaml_file)
    (path_index : list (string * entry)) : Prop :=
  forall k e, Dict.get k path_index = Some e ->
    exists f, In f files /\ entry_of_file f = Some e
              /\ k = normalize_rel_path (entry_path e).

(** The entries of a name index were built from files of the list. *)
Definition names_of_files (files : list yaml_file)
    (name_index : list (string * entry)) : Prop :=
  forall n e, Dict.get n name_index = Some e ->
    exists f, In f files /\ entry_of_file f = Some e.

(** The names under which the files are indexed, in the order of the
    files. *)
Definition file_names (files : list yaml_file) : list string :=
  flat_map (fun f => match entry_of_file f with
                     | Some e => [entry_name e]
                     | None => []
                     end) files.

(** What [main] writes for a navigation object found in the path index. *)
Definition record_of (path_index : list (string * entry))
    (nav_objects : list reference) (r : record) : Prop :=
  exists e obj,
    In obj nav_objects
    /\ Dict.get (record_path r) path_index = Some e
    /\ record_name r = entry_name e
    /\ record_kind r = entry_kind e
    /\ record_raw_yaml r = entry_data e
    /\ record_breadcrumbs r = ref_breadcrumbs obj
    /\ record_reference_node r = ref_node obj.

(** * Properties *)

(** ** Tactics for concrete record sets *)

Ltac solve_wf_dict :=
  unfold wf_dict; simpl; repeat constructor; simpl; intuition discriminate.

Ltac solve_resolvable :=
  repeat (constructor; intros ? ? Hin Hget; simpl in Hin;
          repeat (destruct Hin as [<-|Hin]; [simpl in Hget; try discriminate Hget;
                                              injection Hget as <-|]);
          try contradiction).

(** ** Dicts *)

Section DictFacts.
Context {V : Type}.
Implicit Types (d : list (string * V)) (k : string) (v : V).

Lemma get_set_same k v d : Dict.get k (Dict.set k v d) = Some v.
Proof.
  induction d as [|[k' v'] d IH]; simpl.
  - now rewrite String.eqb_refl.
  - destruct (String.eqb k k') eqn:E; simpl; rewrite E; auto.
Qed.

Lemma get_set_other k k' v d :
  k <> k' -> Dict.get k (Dict.set k' v d) = Dict.get k d.
Proof.
  intros Hne. induction d as [|[k0 v0] d IH]; simpl.
  - apply String.eqb_neq in Hne. now rewrite Hne.
  - destruct (String.eqb k' k0) eqn:E; simpl.
    + apply String.eqb_eq in E. subst k0.
      apply String.eqb_neq in Hne. now rewrite Hne.
    + now rewrite IH.
Qed.

Lemma get_del_same k d : Dict.get k (Dict.del k d) = None.
Proof.
  unfold Dict.del. induction d as [|[k0 v0] d IH]; simpl; auto.
  destruct (String.eqb k k0) eqn:E; simpl; auto. now rewrite E.
Qed.

Lemma get_del_other k k' d :
  k <> k' -> Dict.get k (Dict.del k' d) = Dict.get k d.
Proof.
  intros Hne. unfold Dict.del. induction d as [|[k0 v0] d IH]; simpl; auto.
  destruct (String.eqb k' k0) eqn:E; simpl.
  - apply String.eqb_eq in E. subst k0.
    apply String.eqb_neq in Hne. now rewrite Hne.
  - now rewrite IH.
Qed.

Lemma set_same_id k v d : Dict.get k d = Some v -> Dict.set k v d = d.
Proof.
  induction d as [|[k0 v0] d IH]; simpl; [discriminate|].
  destruct (String.eqb k k0) eqn:E.
  - intros H. injection H as ->. reflexivity.
  - intros H. now rewrite IH.
Qed.

Lemma del_absent k d : Dict.get k d = None -> Dict.del k d = d.
Proof.
  unfold Dict.del. induction d as [|[k0 v0] d IH]; simpl; auto.
  destruct (String.eqb k k0) eqn:E; [discriminate|].
  intros H. simpl. now rewrite IH.
Qed.

Lemma get_None_keys k d : Dict.get k d = None <-> ~ In k (Dict.keys d).
Proof.
  induction d as [|[k0 v0] d IH]; simpl; [tauto|].
  destruct (String.eqb_spec k k0) as [->|Hne].
  - split; [discriminate | intros H; exfalso; apply H; now left].
  - rewrite IH. split; [intros H [E|Hin]; [congruence | auto] | tauto].
Qed.

Lemma get_In k v d : Dict.get k d = Some v -> In (k, v) d.
Proof.
  induction d as [|[k0 v0] d IH]; simpl; [discriminate|].
  destruct (String.eqb_spec k k0) as [->|Hne].
  - intros H. injection H as ->. now left.
  - auto.
Qed.

Lemma In_get k v d : wf_dict d -> In (k, v) d -> Dict.get k d = Some v.
Proof.
  unfold wf_dict. induction d as [|[k0 v0] d IH]; simpl; [tauto|].
  intros Hnd [E|Hin].
  - injection E as -> ->. now rewrite String.eqb_refl.
  - inversion Hnd as [|? ? Hnotin Hnd']; subst.
    destruct (String.eqb_spec k k0) as [->|Hne].
    + exfalso. apply Hnotin. change (In (fst (k0, v)) (map fst d)).
      now apply in_map.
    + auto.
Qed.

Lemma keys_set k v d k' :
  In k' (Dict.keys (Dict.set k v d)) <-> k' = k \/ In k' (Dict.keys d).
Proof.
  induction d as [|[k0 v0] d IH]; simpl.
  - intuition congruence.
  - destruct (String.eqb_spec k k0) as [->|Hne]; simpl.
    + intuition congruence.
    + rewrite IH. intuition congruence.
Qed.

Lemma wf_set k v d : wf_dict d -> wf_dict (Dict.set k v d).
Proof.
  unfold wf_dict. induction d as [|[k0 v0] d IH]; simpl; intros Hnd.
  - constructor; [tauto | constructor].
  - inversion Hnd as [|? ? Hnotin Hnd']; subst.
    destruct (String.eqb_spec k k0) as [->|Hne]; simpl.
    + now constructor.
    + constructor; [|auto].
      intros Hin. apply keys_set in Hin. destruct Hin; [congruence | auto].
Qed.

Lemma wf_del k d : wf_dict d -> wf_dict (Dict.del k d).
Proof.
  unfold wf_dict, Dict.del. induction d as [|[k0 v0] d IH]; simpl; intros Hnd; auto.
  inversion Hnd as [|? ? Hnotin Hnd']; subst.
  destruct (String.eqb k k0); simpl; auto.
  constructor; auto.
  intros Hin. apply Hnotin. unfold Dict.keys in *.
  apply in_map_iff in Hin. destruct Hin as (kv & E & Hin).
  apply filter_In in Hin. apply in_map_iff. exists kv. tauto.
Qed.
End DictFacts.

(** ** The base-name lookup *)

Lemma base_names_loop_acc keys obj names :
  base_names_loop keys obj names = names ++ all_present_base_names keys obj.
Proof.
  revert names. induction keys as [|key rest IH]; intros names; simpl.
  - now rewrite app_nil_r.
  - destruct (Dict.get key obj) as [val|]; rewrite IH; simpl.
    + now rewrite app_assoc.
    + reflexivity.
Qed.

Lemma str_items_In l s : In s (str_items l) <-> In (VStr s) l.
Proof.
  induction l as [|v l IH]; simpl; [tauto|].
  destruct v; simpl; rewrite IH;
    try (split; [auto | intros [H|H]; [discriminate H | exact H]]).
  split; (intros [H|H]; [left; congruence | auto]).
Qed.

(** C4, as stated, fails: a body with both [inherits] and [extends] gets the
    names of both fields, not only those of [inherits]. *)
Lemma get_base_names_not_first_present :
  get_base_names [("inherits", VStr "A"); ("extends", VStr "B")]
  <> first_present_base_names BASE_KEYS
       [("inherits", VStr "A"); ("extends", VStr "B")].
Proof. vm_compute. discriminate. Qed.

(** C4, amended: [get_base_names] returns the names of every present
    base-reference field, concatenated in the fixed order inherits, extends,
    superclass, superclasses, bases; a string value contributes that one name
    and a sequence value contributes exactly its string elements. *)
Theorem get_base_names_all_present (obj : dict) :
  get_base_names obj = all_present_base_names BASE_KEYS obj
  /\ (forall s, field_names (VStr s) = [s])
  /\ (forall l s, In s (field_names (VList l)) <-> In (VStr s) l).
Proof.
  split; [|split].
  - unfold get_base_names. now rewrite base_names_loop_acc.
  - reflexivity.
  - intros l s. apply str_items_In.
Qed.

(** ** The navigation walker *)

Lemma extend_breadcrumbs_trail breadcrumbs fields :
  extend_breadcrumbs breadcrumbs fields
  = breadcrumbs ++ trail_breadcrumbs [fields].
Proof.
  unfold extend_breadcrumbs, trail_breadcrumbs. simpl.
  destruct (node_meta fields); simpl; [now rewrite app_nil_r | reflexivity].
Qed.

Lemma iter_scalar_child v breadcrumbs :
  match v with
  | VMap _ | VList _ => iter_reference_objects v breadcrumbs
  | _ => []
  end = iter_reference_objects v breadcrumbs.
Proof. destruct v; reflexivity. Qed.

Lemma iter_map_unfold fields breadcrumbs :
  iter_reference_objects (VMap fields) breadcrumbs
  = own_reference fields (extend_breadcrumbs breadcrumbs fields)
    ++ children_references fields (extend_breadcrumbs breadcrumbs fields).
Proof.
  simpl. f_equal. unfold children_references.
  apply flat_map_ext. intros [k v]. simpl. apply iter_scalar_child.
Qed.

Lemma iter_list_unfold items breadcrumbs :
  iter_reference_objects (VList items) breadcrumbs
  = flat_map (fun item => iter_reference_objects item breadcrumbs) items.
Proof. reflexivity. Qed.

Lemma own_reference_In fields bc r :
  In r (own_reference fields bc) <->
  exists p, Dict.get "path" fields = Some (VStr p)
            /\ r = mkReference (normalize_rel_path p) bc (VMap fields).
Proof.
  unfold own_reference.
  destruct (Dict.get "path" fields) as [[| | |p| |]|]; simpl;
    try (split; [tauto | intros (p' & H & _); discriminate H]).
  split.
  - intros [H|[]]. exists p. auto.
  - intros (p' & H & ->). injection H as ->. now left.
Qed.

Lemma iter_reference_objects_descends node :
  forall breadcrumbs r,
    In r (iter_reference_objects node breadcrumbs) <->
    exists trail target p,
      descends node trail target
      /\ Dict.get "path" target = Some (VStr p)
      /\ r = mkReference (normalize_rel_path p)
                         (breadcrumbs ++ trail_breadcrumbs trail) (VMap target).
Proof.
  induction node as [| | | |items IH|fields IH] using value_ind;
    intros breadcrumbs r;
    try (simpl; split; [tauto | intros (t & g & p & D & _); inversion D]).
  - rewrite iter_list_unfold, in_flat_map. split.
    + intros (item & Hin & Hr).
      rewrite Forall_forall in IH. apply (IH item Hin) in Hr.
      destruct Hr as (trail & target & p & D & Hp & ->).
      exists trail, target, p. split; [|auto].
      eapply descends_item; eauto.
    + intros (trail & target & p & D & Hp & ->).
      inversion D as [| |items' v trail' target' Hin D']; subst.
      exists v. split; [exact Hin|].
      rewrite Forall_forall in IH. apply (IH v Hin).
      exists trail, target, p. auto.
  - rewrite iter_map_unfold, in_app_iff, own_reference_In.
    unfold children_references. rewrite in_flat_map.
    rewrite extend_breadcrumbs_trail. split.
    + intros [(p & Hp & ->)|((k, v) & Hin & Hr)].
      * exists [fields], fields, p. split; [constructor | auto].
      * rewrite Forall_forall in IH. apply (IH (k, v) Hin) in Hr.
        destruct Hr as (trail & target & p & D & Hp & ->).
        exists (fields :: trail), target, p. split; [|split; [exact Hp|]].
        -- eapply descends_field; eauto.
        -- f_equal. rewrite <- app_assoc. f_equal.
           unfold trail_breadcrumbs. simpl.
           destruct (nonempty (node_meta fields)); reflexivity.
    + intros (trail & target & p & D & Hp & ->).
      inversion D as [|fields' k v trail' target' Hin D'|]; subst.
      * left. exists p. auto.
      * right. exists (k, v). split; [exact Hin|].
        rewrite Forall_forall in IH. apply (IH (k, v) Hin).
        exists trail', target, p. split; [exact D'|split; [exact Hp|]].
        f_equal. rewrite <- app_assoc. f_equal.
        unfold trail_breadcrumbs. simpl.
        destruct (nonempty (node_meta fields)); reflexivity.
Qed.

(** C9: the walker is a depth-first pre-order traversal.  A map node carrying
    a string [path] is yielded first, before everything found below it; a
    reference is yielded exactly for each map with a string [path] reached
    from the root, and its breadcrumbs are the given ones followed by one
    entry for each node on the way down, the referencing node included, that
    has a (truthy) breadcrumb field; on the example tree the yields are the
    two references for Foo and Bar, in document order, with breadcrumbs
    [title Root] and [title Root; title Bar]. *)
Theorem iter_reference_objects_preorder :
  (forall fields breadcrumbs p,
      Dict.get "path" fields = Some (VStr p) ->
      iter_reference_objects (VMap fields) breadcrumbs
      = mkReference (normalize_rel_path p)
                    (extend_breadcrumbs breadcrumbs fields) (VMap fields)
        :: children_references fields (extend_breadcrumbs breadcrumbs fields))
  /\ (forall node breadcrumbs r,
        In r (iter_reference_objects node breadcrumbs) <->
        exists trail target p,
          descends node trail target
          /\ Dict.get "path" target = Some (VStr p)
          /\ r = mkReference (normalize_rel_path p)
                             (breadcrumbs ++ trail_breadcrumbs trail)
                             (VMap target))
  /\ iter_reference_objects example_nav []
     = [ mkReference "classes/Foo.yaml" [[("title", VStr "Root")]]
           (VMap [("path", VStr "classes/Foo.yaml")]);
         mkReference "classes/Bar.yaml"
           [[("title", VStr "Root")]; [("title", VStr "Bar")]]
           (VMap [("path", VStr "classes/Bar.yaml"); ("title", VStr "Bar")]) ].
Proof.
  split; [|split].
  - intros fields breadcrumbs p Hp. rewrite iter_map_unfold.
    unfold own_reference. now rewrite Hp.
  - intros node breadcrumbs r. apply iter_reference_objects_descends.
  - reflexivity.
Qed.

Lemma iter_reference_objects_preorder_witness :
  iter_reference_objects (VMap [("path", VStr "./classes/Foo.yaml")]) []
  = [mkReference "classes/Foo.yaml" [] (VMap [("path", VStr "./classes/Foo.yaml")])].
Proof.
  destruct iter_reference_objects_preorder as [H _].
  apply (H [("path", VStr "./classes/Foo.yaml")] [] "./classes/Foo.yaml").
  reflexivity.
Defined.

(** ** Induction on values that also reaches the items of list fields *)

Lemma value_ind_members (P : value -> Prop) :
  P VNull ->
  (forall b, P (VBool b)) ->
  (forall z, P (VInt z)) ->
  (forall s, P (VStr s)) ->
  (forall l, Forall P l -> P (VList l)) ->
  (forall m,
      Forall (fun kv => P (snd kv)
                        /\ forall cl, snd kv = VList cl -> Forall P cl) m ->
      P (VMap m)) ->
  forall v, P v.
Proof.
  intros HNull HBool HInt HStr HList HMap v.
  enough (H : P v /\ forall cl, v = VList cl -> Forall P cl) by apply H.
  induction v as [| | | |l IH|m IH] using value_ind.
  1-4: split; [auto | intros cl E; discriminate E].
  - assert (Hl : Forall P l).
    { rewrite Forall_forall in *. intros x Hx. now apply IH. }
    split; [auto|]. intros cl E. injection E as <-. exact Hl.
  - split; [|intros cl E; discriminate E].
    apply HMap. exact IH.
Qed.

(** ** The merge never exhausts the recursion budget *)

Lemma bounded_bind {A B : Type} (m : res A) (k : A -> res B) :
  bounded m -> (forall a, m = Ok a -> bounded (k a)) -> bounded (bind m k).
Proof.
  unfold bounded. destruct m as [a|e]; simpl; intros Hm Hk.
  - now apply Hk.
  - intros E. apply Hm. congruence.
Qed.

Lemma base_items_bounded bl : forall merged named,
  bounded (base_items bl merged named).
Proof.
  induction bl as [|it bl IH]; intros merged named; simpl; [discriminate|].
  destruct (item_name it) as [nv|]; [|apply IH].
  destruct (hash_key nv); [apply IH | discriminate].
Qed.

Lemma sorted_bounded ks : bounded (sorted ks).
Proof.
  unfold sorted. destruct ks as [|k [|k' ks]]; try discriminate.
  destruct (_ || _); discriminate.
Qed.

Lemma values_bounded ks named : bounded (Named.values ks named).
Proof.
  induction ks as [|k ks IH]; simpl; [discriminate|].
  destruct (Named.get k named); [|discriminate].
  apply bounded_bind; [exact IH | discriminate].
Qed.

Section MergeBounded.
Variable merge : value -> value -> res value.

Lemma child_items_bounded cl :
  Forall (merge_bounded_at merge) cl ->
  forall merged named, bounded (child_items merge cl merged named).
Proof.
  induction 1 as [|it cl Hit Hcl IH]; intros merged named; simpl;
    [discriminate|].
  destruct (item_name it) as [nv|]; [|apply IH].
  destruct (hash_key nv) as [n|]; [|discriminate].
  destruct (Named.get n named) as [old|]; [|apply IH].
  apply bounded_bind; [apply Hit | intros; apply IH].
Qed.

Lemma merge_members_bounded bl cl :
  Forall (merge_bounded_at merge) cl -> bounded (merge_members merge bl cl).
Proof.
  intros Hcl. unfold merge_members.
  apply bounded_bind; [apply base_items_bounded|]. intros [merged named] _.
  apply bounded_bind; [now apply child_items_bounded|].
  intros [merged' named'] _.
  apply bounded_bind; [apply sorted_bounded|]. intros ks _.
  apply bounded_bind; [apply values_bounded | discriminate].
Qed.

Lemma merge_fields_bounded child :
  Forall (fun kv => merge_bounded_at merge (snd kv)
                    /\ forall cl, snd kv = VList cl ->
                                  Forall (merge_bounded_at merge) cl) child ->
  forall result, bounded (merge_fields merge child result).
Proof.
  induction 1 as [|[key child_val] child [Hv Hl] Hchild IH]; intros result;
    simpl in *; [discriminate|].
  destruct (Dict.get key result) as [base_val|]; [|apply IH].
  destruct base_val; try apply IH;
    destruct child_val; try apply IH.
  - destruct (in_merge_list_keys key); [|apply IH].
    apply bounded_bind; [|intros; apply IH].
    apply merge_members_bounded. now apply Hl.
  - apply bounded_bind; [apply Hv | intros; apply IH].
Qed.
End MergeBounded.

Lemma deep_merge_bounded child : forall base, bounded (deep_merge base child).
Proof.
  induction child as [| | | |l IH|m IH] using value_ind_members;
    intros base; try (destruct base; discriminate).
  destruct base; try discriminate. simpl.
  apply bounded_bind; [|discriminate].
  apply merge_fields_bounded. exact IH.
Qed.

Lemma deep_merge_maps b c r :
  deep_merge (VMap b) (VMap c) = Ok r -> exists m, r = VMap m.
Proof.
  simpl. destruct (merge_fields deep_merge c b) as [m|e]; simpl; [|discriminate].
  intros H. injection H as <-. now exists m.
Qed.

(** ** The resolver: unfolding *)

Lemma build_zero e idx st :
  build_merged_for_entry 0 e idx st = Raise RecursionError.
Proof. reflexivity. Qed.

Lemma build_hit fuel e idx st v :
  Dict.get (entry_name e) (cache st) = Some v ->
  build_merged_for_entry (S fuel) e idx st = Ok (v, st).
Proof. intros H. simpl. now rewrite H. Qed.

Lemma build_miss fuel e idx st :
  Dict.get (entry_name e) (cache st) = None ->
  build_merged_for_entry (S fuel) e idx st
  = bind (bases_loop (build_merged_for_entry fuel) (entry_name e)
            (get_base_names (entry_data e)) idx (entry_data e) [] st)
         (finish_view e).
Proof.
  intros H. simpl. rewrite H. f_equal.
Qed.

Lemma finish_view_cached e loop v st' :
  finish_view e loop = Ok (v, st') ->
  Dict.get (entry_name e) (cache st') = Some v.
Proof.
  destruct loop as [[merged ancestors] st]. unfold finish_view.
  destruct (dedup_loop ancestors [] []) as [deduped|]; simpl; [|discriminate].
  intros H. injection H as <- <-. simpl. apply get_set_same.
Qed.

Lemma build_result_cached fuel e idx st v st' :
  build_merged_for_entry fuel e idx st = Ok (v, st') ->
  Dict.get (entry_name e) (cache st') = Some v.
Proof.
  destruct fuel as [|fuel]; [discriminate|].
  destruct (Dict.get (entry_name e) (cache st)) as [w|] eqn:Hc.
  - rewrite (build_hit _ _ _ _ Hc). intros H. injection H as <- <-. exact Hc.
  - rewrite (build_miss _ _ _ _ Hc).
    destruct (bases_loop _ _ _ _ _ _ _) as [loop|]; simpl; [|discriminate].
    apply finish_view_cached.
Qed.

(** ** Idempotence within one run *)

(** C6: once a record has been resolved in a run, resolving it again returns
    the same view and leaves the run's state as it is: the cache is not
    written and the instrumentation trace gains no event, so the merge
    primitive is not called and nothing is recomputed. *)
Theorem build_merged_for_entry_cache_hit fuel e idx st v st' :
  build_merged_for_entry fuel e idx st = Ok (v, st') ->
  forall fuel', build_merged_for_entry (S fuel') e idx st' = Ok (v, st').
Proof.
  intros H fuel'. apply build_hit. eapply build_result_cached. exact H.
Qed.

Lemma build_merged_for_entry_cache_hit_witness :
  exists v st',
    build_merged_for_entry 1 ghost_leaf [] empty_state = Ok (v, st')
    /\ trace st' = [Computed "Leaf"]
    /\ build_merged_for_entry 1 ghost_leaf [] st' = Ok (v, st').
Proof.
  eexists. eexists. split; [reflexivity|]. split; [reflexivity|].
  apply (@build_merged_for_entry_cache_hit 1 ghost_leaf [] empty_state).
  reflexivity.
Defined.

(** ** Missing base references *)

Lemma bases_loop_skip (build : entry -> list (string * entry) -> state ->
                               res (dict * state))
    leaf names idx : forall merged ancestors st,
  bases_loop build leaf names idx merged ancestors st
  = bases_loop build leaf (filter (fun b => Dict.has b idx) names) idx
      merged ancestors st.
Proof.
  induction names as [|b names IH]; intros merged ancestors st; simpl; auto.
  unfold Dict.has at 1. destruct (Dict.get b idx) as [be|] eqn:Hb; simpl.
  - rewrite Hb.
    destruct (build be idx st) as [[base_merged st1]|]; simpl; auto.
    destruct (merge_fields deep_merge merged base_merged); simpl; auto.
  - apply IH.
Qed.

Lemma bases_loop_all_unknown (build : entry -> list (string * entry) -> state ->
                                      res (dict * state))
    leaf names idx merged ancestors st :
  (forall b, In b names -> Dict.get b idx = None) ->
  bases_loop build leaf names idx merged ancestors st
  = Ok (merged, ancestors, st).
Proof.
  intros Hall. rewrite bases_loop_skip.
  replace (filter (fun b => Dict.has b idx) names) with (@nil string);
    [reflexivity|].
  symmetry. induction names as [|b names IH]; simpl; auto.
  unfold Dict.has at 1. rewrite (Hall b (or_introl eq_refl)).
  apply IH. intros b' Hb'. apply Hall. now right.
Qed.

Lemma own_only_unchanged key data merged :
  Dict.get key merged = Dict.get key data ->
  own_only key data merged = merged.
Proof.
  unfold own_only. intros H. destruct (Dict.get key data) as [v|].
  - now apply set_same_id.
  - now apply del_absent.
Qed.

(** C7: a declared base name without a record in the index is skipped: the
    loop over the bases behaves as if the unknown names were not declared, so
    they add no ancestor and raise nothing; and a record all of whose declared
    bases are unknown resolves, on a cache miss, to its own body with
    [_ancestors] set to the empty list. *)
Theorem unknown_base_skipped fuel e idx st :
  (forall merged ancestors,
      bases_loop (build_merged_for_entry fuel) (entry_name e)
        (get_base_names (entry_data e)) idx merged ancestors st
      = bases_loop (build_merged_for_entry fuel) (entry_name e)
          (filter (fun b => Dict.has b idx) (get_base_names (entry_data e)))
          idx merged ancestors st)
  /\ (Dict.get (entry_name e) (cache st) = None ->
      (forall b, In b (get_base_names (entry_data e)) -> Dict.get b idx = None) ->
      build_merged_for_entry (S fuel) e idx st
      = Ok (Dict.set "_ancestors" (VList []) (entry_data e),
            cache_view e (Dict.set "_ancestors" (VList []) (entry_data e)) st)).
Proof.
  split.
  - intros merged ancestors. apply bases_loop_skip.
  - intros Hmiss Hall. rewrite (build_miss _ _ _ _ Hmiss).
    rewrite (bases_loop_all_unknown _ _ _ _ _ _ _ Hall). simpl.
    rewrite own_only_unchanged; [reflexivity|].
    apply get_set_other. discriminate.
Qed.

Lemma unknown_base_skipped_witness :
  build_merged_for_entry 1 ghost_leaf [] empty_state
  = Ok ([("name", VStr "Leaf"); ("inherits", VStr "Ghost");
         ("summary", VStr "a leaf"); ("_ancestors", VList [])],
        mkState [("Leaf", [("name", VStr "Leaf"); ("inherits", VStr "Ghost");
                           ("summary", VStr "a leaf"); ("_ancestors", VList [])])]
                [Computed "Leaf"]).
Proof.
  apply (proj2 (unknown_base_skipped 0 ghost_leaf [] empty_state)).
  - reflexivity.
  - intros b _. reflexivity.
Defined.

(** ** The merge, one field at a time *)

Section MergeFields.
Variable merge : value -> value -> res value.

Lemma merge_fields_cons key child_val rest result :
  merge_fields merge ((key, child_val) :: rest) result
  = bind (merged_value merge key (Dict.get key result) child_val)
         (fun x => merge_fields merge rest (Dict.set key x result)).
Proof.
  simpl. unfold merged_value.
  destruct (Dict.get key result) as [base_val|]; [|reflexivity].
  destruct base_val; try reflexivity; destruct child_val; try reflexivity.
  - destruct (in_merge_list_keys key); [|reflexivity].
    destruct (merge_members merge items items0); reflexivity.
Qed.

(** Keys that only the base has are retained. *)
Lemma merge_fields_base_only child : forall result r k,
  merge_fields merge child result = Ok r ->
  Dict.get k child = None ->
  Dict.get k r = Dict.get k result.
Proof.
  induction child as [|[key cv] rest IH]; intros result r k.
  - simpl. intros H _. now injection H as <-.
  - rewrite merge_fields_cons. simpl.
    destruct (String.eqb_spec k key) as [->|Hne]; [discriminate|].
    destruct (merged_value _ _ _ _) as [x|]; simpl; [|discriminate].
    intros H Hk. rewrite (IH _ _ _ H Hk). now apply get_set_other.
Qed.

(** The merged dict holds each key once when the base does. *)
Lemma merge_fields_wf child : forall result r,
  merge_fields merge child result = Ok r -> wf_dict result -> wf_dict r.
Proof.
  induction child as [|[key cv] rest IH]; intros result r.
  - simpl. intros H. now injection H as <-.
  - rewrite merge_fields_cons.
    destruct (merged_value _ _ _ _) as [x|]; simpl; [|discriminate].
    intros H Hwf. apply (IH _ _ H). now apply wf_set.
Qed.

(** What the merge stores under a key of the child. *)
Lemma merge_fields_child_key child : forall result r k cv,
  wf_dict child ->
  merge_fields merge child result = Ok r ->
  Dict.get k child = Some cv ->
  exists x, merged_value merge k (Dict.get k result) cv = Ok x
            /\ Dict.get k r = Some x.
Proof.
  induction child as [|[key cv0] rest IH]; intros result r k cv Hwf.
  - discriminate.
  - rewrite merge_fields_cons. simpl.
    inversion Hwf as [|? ? Hnotin Hwf']; subst.
    destruct (String.eqb_spec k key) as [->|Hne].
    + intros H Hcv. injection Hcv as ->.
      destruct (merged_value _ _ _ _) as [x|]; simpl in H; [|discriminate].
      exists x. split; [reflexivity|].
      rewrite (merge_fields_base_only _ _ key H).
      * apply get_set_same.
      * now apply get_None_keys.
    + destruct (merged_value merge key _ _) as [x|]; simpl; [|discriminate].
      intros H Hcv.
      destruct (IH _ _ _ _ Hwf' H Hcv) as (y & Hy & Hr).
      exists y. split; [|exact Hr].
      rewrite get_set_other in Hy by exact Hne. exact Hy.
Qed.

(** A child value that is not a map, and not a list under a member-group
    key, replaces whatever the base has. *)
Lemma merged_value_child_wins key base_val cv :
  is_map cv = false ->
  (is_list cv = true -> in_merge_list_keys key = false) ->
  merged_value merge key base_val cv = Ok cv.
Proof.
  intros Hm Hl. unfold merged_value.
  destruct base_val as [b|]; [|reflexivity].
  destruct b; try reflexivity; destruct cv; try reflexivity; try discriminate.
  now rewrite Hl.
Qed.
End MergeFields.

Lemma deep_merge_maps_fields b c r :
  deep_merge (VMap b) (VMap c) = Ok (VMap r) ->
  merge_fields deep_merge c b = Ok r.
Proof.
  simpl. destruct (merge_fields deep_merge c b) as [m|e]; simpl; [|discriminate].
  intros H. now injection H as <-.
Qed.

(** ** The loop over the bases: an invariant rule *)

Section BasesLoop.
Variable build : entry -> list (string * entry) -> state -> res (dict * state).
Variable leaf : string.
Variable idx : list (string * entry).
Variable I : dict -> list value -> state -> Prop.

Lemma bases_loop_invariant names :
  (forall merged ancestors st b be base_merged st1 merged',
      I merged ancestors st ->
      In b names ->
      Dict.get b idx = Some be ->
      build be idx st = Ok (base_merged, st1) ->
      merge_fields deep_merge merged base_merged = Ok merged' ->
      I merged' (ancestors ++ VStr b :: base_ancestors base_merged)
        (mkState (cache st1) (trace st1 ++ [Merged b leaf]))) ->
  forall merged ancestors st merged' ancestors' st',
    I merged ancestors st ->
    bases_loop build leaf names idx merged ancestors st
    = Ok (merged', ancestors', st') ->
    I merged' ancestors' st'.
Proof.
  induction names as [|b names IH]; intros Hstep merged ancestors st m' a' s'.
  - simpl. intros HI H. now injection H as <- <- <-.
  - simpl. intros HI.
    destruct (Dict.get b idx) as [be|] eqn:Hb.
    + destruct (build be idx st) as [[base_merged st1]|] eqn:Hbuild; simpl;
        [|discriminate].
      destruct (merge_fields deep_merge merged base_merged) as [r|] eqn:Hm;
        simpl; [|discriminate].
      apply IH.
      * intros. eapply Hstep; eauto. now right.
      * eapply Hstep; eauto. now left.
    + apply IH; [|exact HI].
      intros. eapply Hstep; eauto. now right.
Qed.
End BasesLoop.

(** ** Views hold each key once *)

Lemma own_only_wf key data merged :
  wf_dict merged -> wf_dict (own_only key data merged).
Proof.
  unfold own_only. destruct (Dict.get key data); [apply wf_set | apply wf_del].
Qed.

Lemma wf_state_set st n v tr :
  wf_state st -> wf_dict v ->
  wf_state (mkState (Dict.set n v (cache st)) tr).
Proof.
  intros Hst Hv n' v'. simpl.
  destruct (String.eqb_spec n' n) as [->|Hne].
  - rewrite get_set_same. intros H. now injection H as <-.
  - rewrite get_set_other by exact Hne. apply Hst.
Qed.

Lemma build_wf idx : wf_index idx ->
  forall fuel e st v st',
    wf_state st -> wf_dict (entry_data e) ->
    build_merged_for_entry fuel e idx st = Ok (v, st') ->
    wf_dict v /\ wf_state st'.
Proof.
  intros Hidx. induction fuel as [|fuel IH]; intros e st v st' Hst He;
    [discriminate|].
  destruct (Dict.get (entry_name e) (cache st)) as [w|] eqn:Hc.
  - rewrite (build_hit _ _ _ _ Hc). intros H. injection H as <- <-.
    split; [eapply Hst; eauto | exact Hst].
  - rewrite (build_miss _ _ _ _ Hc).
    destruct (bases_loop _ _ _ _ _ _ _) as [[[merged ancestors] st1]|] eqn:Hloop;
      simpl; [|discriminate].
    assert (Hinv : wf_dict merged /\ wf_state st1).
    { refine (@bases_loop_invariant _ _ _
                (fun m _ s => wf_dict m /\ wf_state s)
                _ _ _ _ _ _ _ _ (conj He Hst) Hloop).
      intros m a s b be bm s1 m' [Hm Hs] _ Hb Hbuild Hmerge.
      destruct (IH be s bm s1 Hs (Hidx _ _ Hb) Hbuild) as [Hbm Hs1].
      split; [|exact Hs1].
      eapply merge_fields_wf; eauto. }
    destruct Hinv as [Hm Hs1].
    destruct (dedup_loop ancestors [] []) as [deduped|]; simpl; [|discriminate].
    intros H. injection H as <- <-.
    assert (Hv : wf_dict (own_only "descendants" (entry_data e)
                            (Dict.set "_ancestors" (VList deduped) merged))).
    { apply own_only_wf. now apply wf_set. }
    split; [exact Hv|]. unfold cache_view. now apply wf_state_set.
Qed.

(** ** Fields of the leaf in its view *)

Lemma own_only_get_other k key data merged :
  k <> key -> Dict.get k (own_only key data merged) = Dict.get k merged.
Proof.
  intros Hne. unfold own_only. destruct (Dict.get key data).
  - now apply get_set_other.
  - now apply get_del_other.
Qed.

Lemma own_only_get_same key data merged :
  Dict.get key (own_only key data merged) = Dict.get key data.
Proof.
  unfold own_only. destruct (Dict.get key data) eqn:E.
  - apply get_set_same.
  - apply get_del_same.
Qed.

(** A field of the leaf whose value is not a map, and not a list under a
    member-group key, reaches the view unchanged, whatever the bases hold. *)
Lemma leaf_value_wins idx k m : wf_index idx ->
  k <> "_ancestors" ->
  is_map m = false ->
  (is_list m = true -> in_merge_list_keys k = false) ->
  forall fuel e st v st',
    wf_state st -> wf_dict (entry_data e) ->
    Dict.get (entry_name e) (cache st) = None ->
    Dict.get k (entry_data e) = Some m ->
    build_merged_for_entry fuel e idx st = Ok (v, st') ->
    Dict.get k v = Some m.
Proof.
  intros Hidx Hk Hmap Hlist fuel e st v st' Hst He Hc Hget.
  destruct fuel as [|fuel]; [discriminate|].
  rewrite (build_miss _ _ _ _ Hc).
  destruct (bases_loop _ _ _ _ _ _ _) as [[[merged ancestors] st1]|] eqn:Hloop;
    simpl; [|discriminate].
  assert (Hinv : (wf_dict merged /\ Dict.get k merged = Some m) /\ wf_state st1).
  { refine (@bases_loop_invariant _ _ _
              (fun d _ s => (wf_dict d /\ Dict.get k d = Some m) /\ wf_state s)
              _ _ _ _ _ _ _ _ (conj (conj He Hget) Hst) Hloop).
    intros d a s b be bm s1 d' [[Hd Hdk] Hs] _ Hb Hbuild Hmerge.
    destruct (@build_wf idx Hidx _ _ _ _ _ Hs (Hidx _ _ Hb) Hbuild)
      as [Hbm Hs1].
    split; [split|exact Hs1].
    - eapply merge_fields_wf; eauto.
    - destruct (merge_fields_child_key _ _ _ Hd Hmerge Hdk) as (x & Hx & Hr).
      rewrite merged_value_child_wins in Hx by assumption.
      injection Hx as <-. exact Hr. }
  destruct Hinv as [[_ Hmk] _].
  destruct (dedup_loop ancestors [] []) as [deduped|]; simpl; [|discriminate].
  intros H. injection H as <- _.
  destruct (String.eqb_spec k "descendants") as [->|Hd].
  - rewrite own_only_get_same. exact Hget.
  - rewrite own_only_get_other by exact Hd.
    rewrite get_set_other by exact Hk. exact Hmk.
Qed.

(** ** Well-founded base references *)

Lemma reaches_trans idx x y z :
  reaches idx x y -> reaches idx y z -> reaches idx x z.
Proof.
  induction 1 as [|x y w Hxy Hyw IH]; auto.
  intros Hz. eapply reaches_step; eauto.
Qed.

(** A well-founded base relation has no cycle. *)
Lemma resolvable_acyclic idx x :
  resolvable idx x -> forall z, base_of idx x z -> ~ reaches idx z x.
Proof.
  induction 1 as [x Hres IH]. intros z Hxz Hzx.
  destruct Hxz as (b & Hin & Hget).
  inversion Hzx as [|z' y x' Hzy Hyx]; subst.
  - apply (IH b x Hin Hget x); [exists b; auto | constructor].
  - apply (IH b z Hin Hget y Hzy).
    eapply reaches_trans; [exact Hyx|].
    eapply reaches_step; [exists b; eauto | constructor].
Qed.

(** ** The deprecation notice *)

Lemma reaches_base idx x be y :
  base_of idx x be -> reaches idx be y -> reaches idx x y.
Proof. intros Hb Hr. eapply reaches_step; eauto. Qed.

(** A field that only [e] declares is in no view of a record from which [e]
    cannot be reached. *)
Lemma views_lack idx e key :
  key <> "_ancestors" ->
  others_lack key idx e ->
  forall fuel x st v st',
    (exists n, Dict.get n idx = Some x) ->
    (forall y, reaches idx x y -> y <> e) ->
    cache_lacks key st ->
    build_merged_for_entry fuel x idx st = Ok (v, st') ->
    Dict.get key v = None /\ cache_lacks key st'.
Proof.
  intros Hkey Hothers.
  induction fuel as [|fuel IH]; intros x st v st' [nx Hx] Hreach Hcache;
    [discriminate|].
  destruct (Dict.get (entry_name x) (cache st)) as [w|] eqn:Hc.
  - rewrite (build_hit _ _ _ _ Hc). intros H. injection H as <- <-.
    split; [eapply Hcache; eauto | exact Hcache].
  - rewrite (build_miss _ _ _ _ Hc).
    destruct (bases_loop _ _ _ _ _ _ _) as [[[merged ancestors] st1]|] eqn:Hloop;
      simpl; [|discriminate].
    assert (Hdata : Dict.get key (entry_data x) = None).
    { apply (Hothers nx x Hx). apply Hreach. constructor. }
    assert (Hinv : Dict.get key merged = None /\ cache_lacks key st1).
    { refine (@bases_loop_invariant _ _ _
                (fun d _ s => Dict.get key d = None /\ cache_lacks key s)
                _ _ _ _ _ _ _ _ (conj Hdata Hcache) Hloop).
      intros d a s b be bm s1 d' [Hd Hs] Hin Hb Hbuild Hmerge.
      assert (Hbe : base_of idx x be) by (exists b; auto).
      destruct (IH be s bm s1) as [Hbm Hs1]; eauto.
      { intros y Hy. apply Hreach. eapply reaches_base; eauto. }
      split; [|exact Hs1].
      rewrite (merge_fields_base_only _ _ _ key Hmerge Hd). exact Hbm. }
    destruct Hinv as [Hm Hs1].
    destruct (dedup_loop ancestors [] []) as [deduped|]; simpl; [|discriminate].
    intros H. injection H as <- <-.
    assert (Hv : Dict.get key
                   (own_only "descendants" (entry_data x)
                      (Dict.set "_ancestors" (VList deduped) merged)) = None).
    { destruct (String.eqb_spec key "descendants") as [->|Hd].
      - rewrite own_only_get_same. exact Hdata.
      - rewrite own_only_get_other by exact Hd.
        rewrite get_set_other by exact Hkey. exact Hm. }
    split; [exact Hv|].
    intros n w. unfold cache_view. simpl.
    destruct (String.eqb_spec n (entry_name x)) as [->|Hne].
    + rewrite get_set_same. intros H. now injection H as <-.
    + rewrite get_set_other by exact Hne. apply Hs1.
Qed.

(** A field of the leaf that no other record declares and no cached view
    carries reaches the view unchanged, when the base references are well
    founded below the leaf. *)
Lemma leaf_value_kept idx k m : wf_index idx ->
  k <> "_ancestors" ->
  forall fuel e st v st',
    wf_state st -> wf_dict (entry_data e) ->
    resolvable idx e -> others_lack k idx e -> cache_lacks k st ->
    Dict.get (entry_name e) (cache st) = None ->
    Dict.get k (entry_data e) = Some m ->
    build_merged_for_entry fuel e idx st = Ok (v, st') ->
    Dict.get k v = Some m.
Proof.
  intros Hidx Hk fuel e st v st' Hst He Hres Hothers Hcache Hc Hget.
  destruct fuel as [|fuel]; [discriminate|].
  rewrite (build_miss _ _ _ _ Hc).
  destruct (bases_loop _ _ _ _ _ _ _) as [[[merged ancestors] st1]|] eqn:Hloop;
    simpl; [|discriminate].
  assert (Hinv : (wf_dict merged /\ Dict.get k merged = Some m)
                 /\ (wf_state st1 /\ cache_lacks k st1)).
  { refine (@bases_loop_invariant _ _ _
              (fun d _ s => (wf_dict d /\ Dict.get k d = Some m)
                            /\ (wf_state s /\ cache_lacks k s))
              _ _ _ _ _ _ _ _ (conj (conj He Hget) (conj Hst Hcache)) Hloop).
    intros d a s b be bm s1 d' [[Hd Hdk] [Hs Hsk]] Hin Hb Hbuild Hmerge.
    assert (Hbe : base_of idx e be) by (exists b; auto).
    destruct (@build_wf idx Hidx _ _ _ _ _ Hs (Hidx _ _ Hb) Hbuild)
      as [Hbm Hs1].
    destruct (@views_lack idx e k Hk Hothers fuel be s bm s1) as [Hbk Hs1k];
      eauto.
    { intros y Hy ->. exact (resolvable_acyclic Hres Hbe Hy). }
    split; [split|split; assumption].
    - eapply merge_fields_wf; eauto.
    - destruct (merge_fields_child_key _ _ _ Hd Hmerge Hdk) as (x & Hx & Hr).
      rewrite Hbk in Hx. simpl in Hx. injection Hx as <-. exact Hr. }
  destruct Hinv as [[_ Hmk] _].
  destruct (dedup_loop ancestors [] []) as [deduped|]; simpl; [|discriminate].
  intros H. injection H as <- _.
  destruct (String.eqb_spec k "descendants") as [->|Hd].
  - rewrite own_only_get_same. exact Hget.
  - rewrite own_only_get_other by exact Hd.
    rewrite get_set_other by exact Hk. exact Hmk.
Qed.

(** C8: a leaf that declares a [deprecation_message] keeps exactly that value
    in its freshly resolved view when no other record of a well-founded
    index, and no cached view, carries a notice; and when the value is an
    ordinary one (a string or another scalar, or a sequence: anything but a
    nested map) it is kept whatever the bases carry. *)
Theorem deprecation_message_of_leaf idx fuel e st v st' m :
  wf_index idx -> wf_state st -> wf_dict (entry_data e) ->
  Dict.get (entry_name e) (cache st) = None ->
  Dict.get "deprecation_message" (entry_data e) = Some m ->
  (resolvable idx e
   /\ others_lack "deprecation_message" idx e
   /\ cache_lacks "deprecation_message" st)
  \/ is_map m = false ->
  build_merged_for_entry fuel e idx st = Ok (v, st') ->
  Dict.get "deprecation_message" v = Some m.
Proof.
  intros Hidx Hst He Hc Hget [(Hres & Hothers & Hcache)|Hmap] Hbuild.
  - eapply (@leaf_value_kept idx "deprecation_message" m); eauto.
    discriminate.
  - eapply (@leaf_value_wins idx "deprecation_message" m); eauto.
    discriminate.
Qed.

Lemma small_index_wf : wf_index small_index.
Proof.
  intros n e. unfold small_index. simpl.
  repeat match goal with
         | |- (if ?b then _ else _) = _ -> _ => destruct b
         end;
    intros H; try discriminate H; injection H as <-; solve_wf_dict.
Qed.

Lemma small_index_resolvable : resolvable small_index leaf_entry.
Proof. solve_resolvable. Qed.

Lemma small_index_others_lack :
  others_lack "deprecation_message" small_index leaf_entry.
Proof.
  intros n be. unfold small_index. simpl.
  repeat match goal with
         | |- (if ?b then _ else _) = _ -> _ => destruct b
         end;
    intros H; try discriminate H; injection H as <-; intros Hne;
    try reflexivity.
  now elim Hne.
Qed.

Lemma deprecation_message_of_leaf_witness :
  exists v st',
    build_merged_for_entry 3 leaf_entry small_index empty_state = Ok (v, st')
    /\ Dict.get "deprecation_message" v = Some (VStr "use Other instead").
Proof.
  eexists. eexists. split; [reflexivity|].
  eapply (@deprecation_message_of_leaf small_index 3 leaf_entry empty_state
            _ _ (VStr "use Other instead")).
  - exact small_index_wf.
  - intros n v H. discriminate H.
  - solve_wf_dict.
  - reflexivity.
  - reflexivity.
  - left. split; [exact small_index_resolvable|].
    split; [exact small_index_others_lack | intros n v H; discriminate H].
  - reflexivity.
Defined.

(** ** Own-only fields that the bound definition does not enforce *)

(** C3 at a failing input: Leaf declares [extends: Base] and no [inherits];
    Base declares [inherits: Root].  The view of Leaf carries Base's
    [inherits], where the shadowed first definition removes the field. *)
Theorem inherits_leaks_into_view :
  Dict.get "inherits" (entry_data leaf_entry) = None
  /\ (exists v st',
         build_merged_for_entry 3 leaf_entry small_index empty_state
         = Ok (v, st')
         /\ Dict.get "inherits" v = Some (VStr "Root"))
  /\ (exists v st',
         build_merged_for_entry_shadowed 3 leaf_entry small_index empty_state
         = Ok (v, st')
         /\ Dict.get "inherits" v = None).
Proof.
  split; [reflexivity|].
  split; eexists; eexists; (split; [reflexivity|]); reflexivity.
Qed.

(** C5 at a failing input: the body of Anon declares no [name] and the
    record is indexed under its file stem; its base Base declares
    [name: Base].  The view of Anon is named Base, where the shadowed first
    definition forces the indexed name. *)
Theorem name_leaks_into_view :
  Dict.get "name" (entry_data unnamed_entry) = None
  /\ entry_name unnamed_entry = "Anon"
  /\ (exists v st',
         build_merged_for_entry 4 unnamed_entry small_index empty_state
         = Ok (v, st')
         /\ Dict.get "name" v = Some (VStr "Base"))
  /\ (exists v st',
         build_merged_for_entry_shadowed 4 unnamed_entry small_index empty_state
         = Ok (v, st')
         /\ Dict.get "name" v = Some (VStr "Anon")).
Proof.
  split; [reflexivity|]. split; [reflexivity|].
  split; eexists; eexists; (split; [reflexivity|]); reflexivity.
Qed.

(** ** Termination of the resolver *)

Lemma cyclic_resolution_overflows fuel :
  build_merged_for_entry fuel cyc_a cyclic_index empty_state
  = Raise RecursionError
  /\ build_merged_for_entry fuel cyc_b cyclic_index empty_state
     = Raise RecursionError
  /\ build_merged_for_entry fuel cyc_self cyclic_index empty_state
     = Raise RecursionError.
Proof.
  induction fuel as [|fuel (IHa & IHb & IHs)]; [repeat split|].
  repeat split; rewrite build_miss by reflexivity.
  - change (get_base_names (entry_data cyc_a)) with ["B"].
    cbn [bases_loop].
    change (Dict.get "B" cyclic_index) with (Some cyc_b).
    cbv beta iota. now rewrite IHb.
  - change (get_base_names (entry_data cyc_b)) with ["A"].
    cbn [bases_loop].
    change (Dict.get "A" cyclic_index) with (Some cyc_a).
    cbv beta iota. now rewrite IHa.
  - change (get_base_names (entry_data cyc_self)) with ["S"].
    cbn [bases_loop].
    change (Dict.get "S" cyclic_index) with (Some cyc_self).
    cbv beta iota. now rewrite IHs.
Qed.

(** C2, as stated, fails: with A declaring base B and B declaring base A, no
    recursion depth suffices to resolve A from an empty cache; nor does any
    for a record that names itself. *)
Lemma cyclic_resolution_never_returns :
  ~ (exists fuel,
        bounded (build_merged_for_entry fuel cyc_a cyclic_index empty_state))
  /\ ~ (exists fuel,
          bounded (build_merged_for_entry fuel cyc_self cyclic_index
                     empty_state)).
Proof.
  split; intros [fuel H]; apply H; apply cyclic_resolution_overflows.
Qed.

Lemma dedup_loop_bounded ancestors : forall seen deduped,
  bounded (dedup_loop ancestors seen deduped).
Proof.
  induction ancestors as [|a rest IH]; intros seen deduped; simpl;
    [discriminate|].
  destruct (hash_key a); [|discriminate].
  destruct (existsb _ seen); apply IH.
Qed.

Lemma finish_view_bounded e loop : bounded (finish_view e loop).
Proof.
  destruct loop as [[merged ancestors] st]. unfold finish_view.
  apply bounded_bind; [apply dedup_loop_bounded | discriminate].
Qed.

Section LoopBounded.
Variable build : entry -> list (string * entry) -> state -> res (dict * state).
Variable leaf : string.
Variable idx : list (string * entry).

Lemma bases_loop_bounded names :
  (forall b be, In b names -> Dict.get b idx = Some be ->
                forall st, bounded (build be idx st)) ->
  forall merged ancestors st,
    bounded (bases_loop build leaf names idx merged ancestors st).
Proof.
  induction names as [|b names IH]; intros Hb merged ancestors st;
    cbn [bases_loop]; [discriminate|].
  assert (Hrest : forall b' be, In b' names -> Dict.get b' idx = Some be ->
                                forall st, bounded (build be idx st)).
  { intros b' be Hin. apply Hb. now right. }
  destruct (Dict.get b idx) as [be|] eqn:Hget; [|now apply IH].
  apply bounded_bind; [apply (Hb b be); [now left | exact Hget]|].
  intros [base_merged st1] _.
  apply bounded_bind; [apply deep_merge_bounded|].
  intros r Hr. destruct (deep_merge_maps _ _ Hr) as [m ->]. now apply IH.
Qed.

(** A deeper recursion budget does not change a result already obtained. *)
Lemma bases_loop_stable (build' : entry -> list (string * entry) -> state ->
                                   res (dict * state)) names :
  (forall be st r, build be idx st = r -> bounded r -> build' be idx st = r) ->
  forall merged ancestors st r,
    bases_loop build leaf names idx merged ancestors st = r ->
    bounded r ->
    bases_loop build' leaf names idx merged ancestors st = r.
Proof.
  intros Hb. induction names as [|b names IH]; intros merged ancestors st r;
    simpl; auto.
  destruct (Dict.get b idx) as [be|]; [|apply IH].
  destruct (build be idx st) as [[base_merged st1]|ex] eqn:Hbuild.
  - rewrite (Hb _ _ _ Hbuild) by discriminate. simpl.
    destruct (merge_fields deep_merge merged base_merged); simpl; auto.
  - simpl. intros <- Hbound.
    rewrite (Hb _ _ _ Hbuild); [reflexivity|].
    intros E. apply Hbound. injection E as ->. reflexivity.
Qed.
End LoopBounded.

Lemma build_stable_step idx : forall fuel e st r,
  build_merged_for_entry fuel e idx st = r -> bounded r ->
  build_merged_for_entry (S fuel) e idx st = r.
Proof.
  induction fuel as [|fuel IH]; intros e st r.
  - simpl. intros <- H. now elim H.
  - destruct (Dict.get (entry_name e) (cache st)) as [w|] eqn:Hc.
    + now rewrite !(build_hit _ _ _ _ Hc).
    + rewrite (build_miss (S fuel) _ _ _ Hc), (build_miss fuel _ _ _ Hc).
      intros H Hbound.
      destruct (bases_loop (build_merged_for_entry fuel) _ _ _ _ _ _)
        as [loop|ex] eqn:Hloop.
      * rewrite (bases_loop_stable _ _ _ (build_merged_for_entry (S fuel))
                   _ IH _ _ _ Hloop) by discriminate.
        exact H.
      * rewrite (bases_loop_stable _ _ _ (build_merged_for_entry (S fuel))
                   _ IH _ _ _ Hloop); [exact H|].
        intros E. apply Hbound. rewrite <- H. injection E as ->. reflexivity.
Qed.

Lemma build_stable idx fuel fuel' e st r :
  fuel <= fuel' ->
  build_merged_for_entry fuel e idx st = r -> bounded r ->
  build_merged_for_entry fuel' e idx st = r.
Proof.
  induction 1 as [|fuel' Hle IH]; auto.
  intros H Hb. apply build_stable_step; auto.
Qed.

Lemma uniform_budget idx (names : list string) :
  (forall b be, In b names -> Dict.get b idx = Some be ->
     exists n, forall m st, n <= m ->
       bounded (build_merged_for_entry m be idx st)) ->
  exists n, forall b be, In b names -> Dict.get b idx = Some be ->
     forall m st, n <= m -> bounded (build_merged_for_entry m be idx st).
Proof.
  induction names as [|b names IH]; intros H.
  - exists 0. intros b be [].
  - destruct IH as [n Hn].
    { intros b' be Hin. apply H. now right. }
    destruct (Dict.get b idx) as [be|] eqn:Hget.
    + destruct (H b be (or_introl eq_refl) Hget) as [nb Hnb].
      exists (Nat.max n nb). intros b' be' [<-|Hin] Hget' m st Hm.
      * rewrite Hget in Hget'. injection Hget' as <-. apply Hnb. lia.
      * apply (Hn b' be' Hin Hget'). lia.
    + exists n. intros b' be' [<-|Hin] Hget' m st Hm.
      * rewrite Hget in Hget'. discriminate.
      * now apply (Hn b' be' Hin Hget').
Qed.

Lemma resolvable_bounded idx e :
  resolvable idx e ->
  exists n, forall m st, n <= m ->
    bounded (build_merged_for_entry m e idx st).
Proof.
  induction 1 as [e _ IH].
  destruct (uniform_budget idx (get_base_names (entry_data e)) IH) as [n Hn].
  exists (S n). intros m st Hm.
  destruct m as [|m]; [lia|].
  destruct (Dict.get (entry_name e) (cache st)) as [w|] eqn:Hc.
  - rewrite (build_hit _ _ _ _ Hc). discriminate.
  - rewrite (build_miss _ _ _ _ Hc).
    apply bounded_bind; [|intros; apply finish_view_bounded].
    apply bases_loop_bounded. intros b be Hin Hget st'.
    apply (Hn b be Hin Hget). lia.
Qed.

(** ** No record is computed twice *)

Lemma computed_names_app tr tr' :
  computed_names (tr ++ tr') = computed_names tr ++ computed_names tr'.
Proof.
  induction tr as [|[b l|n] tr IH]; simpl; auto. now rewrite IH.
Qed.

Lemma get_Some_or_None {V : Type} k (d : list (string * V)) :
  Dict.get k d = None \/ Dict.get k d <> None.
Proof. destruct (Dict.get k d); [right; discriminate | now left]. Qed.

Section NoDuplicateWork.
Variable idx : list (string * entry).
Hypothesis Hnames : index_by_name idx.

Lemma build_run_step : forall fuel e st v st',
  Dict.get (entry_name e) idx = Some e ->
  resolvable idx e ->
  no_duplicate_work st ->
  build_merged_for_entry fuel e idx st = Ok (v, st') ->
  run_step idx e st st'.
Proof.
  induction fuel as [|fuel IH]; intros e st v st' Hself Hres Hinv;
    [discriminate|].
  destruct (Dict.get (entry_name e) (cache st)) as [w|] eqn:Hc.
  - rewrite (build_hit _ _ _ _ Hc). intros H. injection H as _ <-.
    split; [exact Hinv|]. split; [auto|]. intros y Hy Hy'. now elim Hy'.
  - rewrite (build_miss _ _ _ _ Hc).
    destruct (bases_loop _ _ _ _ _ _ _) as [[[merged ancestors] st1]|] eqn:Hloop;
      simpl; [|discriminate].
    set (J := fun (_ : dict) (_ : list value) (s : state) =>
                no_duplicate_work s
                /\ (forall y, Dict.get y (cache st) <> None ->
                              Dict.get y (cache s) <> None)
                /\ (forall y, Dict.get y (cache st) = None ->
                              Dict.get y (cache s) <> None ->
                              exists ey be, Dict.get y idx = Some ey
                                            /\ base_of idx e be
                                            /\ reaches idx be ey)).
    assert (HJ : J merged ancestors st1).
    { refine (@bases_loop_invariant _ _ _ J _ _ _ _ _ _ _ _ _ Hloop).
      - intros m a s b be bm s1 m' (Hs & Hgrow & Hnew) Hin Hb Hbuild _.
        assert (Hbe : base_of idx e be) by (exists b; auto).
        destruct (IH be s bm s1) as (Hs1 & Hgrow1 & Hnew1); auto.
        { pose proof (Hnames b Hb) as Hn. rewrite Hn. exact Hb. }
        { inversion Hres as [e' Hbases]; subst. eapply Hbases; eauto. }
        unfold J. simpl. split; [|split].
        + destruct Hs1 as [Hnd Hin1]. unfold no_duplicate_work. simpl.
          rewrite computed_names_app. simpl. rewrite app_nil_r. auto.
        + auto.
        + intros y Hy Hy1.
          destruct (get_Some_or_None y (cache s)) as [Hys|Hys].
          * destruct (Hnew1 y Hys Hy1) as (ey & Hey & Hreach).
            exists ey, be. auto.
          * apply Hnew; auto.
      - unfold J. split; [exact Hinv|]. split; [auto|].
        intros y Hy Hy'. now elim Hy'. }
    destruct HJ as ((Hnd & Hin1) & Hgrow & Hnew).
    destruct (dedup_loop ancestors [] []) as [deduped|]; simpl; [|discriminate].
    intros H. injection H as _ <-.
    unfold run_step, no_duplicate_work, cache_view. simpl.
    rewrite computed_names_app. simpl.
    split; [split|split].
    + apply NoDup_app; auto.
      * constructor; [intros []|constructor].
      * intros n Hn [<-|[]].
        destruct (Hnew (entry_name e) Hc (Hin1 _ Hn)) as (ey & be & Hey & Hbe & Hr).
        rewrite Hself in Hey. injection Hey as <-.
        exact (resolvable_acyclic Hres Hbe Hr).
    + intros n Hn. apply in_app_or in Hn.
      destruct (String.eqb_spec n (entry_name e)) as [->|Hne].
      * rewrite get_set_same. discriminate.
      * rewrite get_set_other by exact Hne.
        destruct Hn as [Hn|[E|[]]]; [auto | congruence].
    + intros y Hy.
      destruct (String.eqb_spec y (entry_name e)) as [->|Hne].
      * rewrite get_set_same. discriminate.
      * rewrite get_set_other by exact Hne. auto.
    + intros y Hy.
      destruct (String.eqb_spec y (entry_name e)) as [->|Hne].
      * intros _. exists e. split; [exact Hself | constructor].
      * rewrite get_set_other by exact Hne. intros Hy1.
        destruct (Hnew y Hy Hy1) as (ey & be & Hey & Hbe & Hr).
        exists ey. split; [exact Hey|]. eapply reaches_step; eauto.
Qed.
End NoDuplicateWork.

Lemma diamond_resolvable : resolvable diamond_index dia_d.
Proof. solve_resolvable. Qed.

Lemma diamond_by_name : index_by_name diamond_index.
Proof.
  intros n e. unfold diamond_index. simpl.
  repeat match goal with
         | |- (if ?b then _ else _) = _ -> _ =>
             let E := fresh "E" in destruct b eqn:E;
             [apply String.eqb_eq in E; subst|]
         end;
    intros H; try discriminate H; injection H as <-; reflexivity.
Qed.

Lemma empty_state_no_work : no_duplicate_work empty_state.
Proof. split; [constructor | intros n []]. Qed.

(** ** Cycles *)

Section Cycle.
Variable idx : list (string * entry).
Variable e : entry.
Variable cyc : list string.
Hypothesis Hcyc : closed_cycle idx e cyc.

Section CycleLoop.
Variable build : entry -> list (string * entry) -> state -> res (dict * state).
Variable leaf : string.
Hypothesis Hkeep : forall be s bm s1,
  visited idx e be -> uncached cyc s ->
  build be idx s = Ok (bm, s1) -> uncached cyc s1.
Hypothesis Hfail : forall be s r,
  visited idx e be -> In (entry_name be) cyc -> uncached cyc s ->
  build be idx s <> Ok r.

Lemma bases_loop_uncached names : forall merged ancestors st r,
  uncached cyc st ->
  bases_loop build leaf names idx merged ancestors st = Ok r ->
  uncached cyc (snd r).
Proof.
  intros merged ancestors st [[m' a'] s'] Hst Hloop. simpl.
  refine (@bases_loop_invariant build leaf idx (fun _ _ s => uncached cyc s)
            names _ merged ancestors st m' a' s' Hst Hloop).
  intros m a s b be bm s1 m1 Hs _ Hb Hbuild _.
  assert (Hs1 : uncached cyc s1).
  { eapply Hkeep; eauto. right. eauto. }
  exact Hs1.
Qed.

Lemma bases_loop_on_cycle names : forall merged ancestors st r,
  uncached cyc st ->
  (exists b y, In b names /\ Dict.get b idx = Some y /\ In (entry_name y) cyc) ->
  bases_loop build leaf names idx merged ancestors st <> Ok r.
Proof.
  induction names as [|b0 names IH]; intros merged ancestors st r Hst
    (b & y & Hin & Hb & Hy).
  - destruct Hin.
  - cbn [bases_loop].
    destruct (Dict.get b0 idx) as [be|] eqn:Hb0.
    + destruct (build be idx st) as [[bm st1]|] eqn:Hbuild; cbn [bind];
        [|discriminate].
      destruct Hin as [->|Hin].
      * exfalso. rewrite Hb in Hb0. injection Hb0 as ->.
        eapply Hfail; [| |exact Hst|exact Hbuild]; [right; eauto | exact Hy].
      * assert (Hst1 : uncached cyc st1).
        { eapply Hkeep; eauto. right. eauto. }
        destruct (deep_merge (VMap bm) (VMap merged)) as [[| | | | |m1]|];
          cbn [bind]; try discriminate.
        apply IH; [exact Hst1 | eauto].
    + destruct Hin as [->|Hin]; [congruence|].
      apply IH; [exact Hst | eauto].
Qed.
End CycleLoop.

Lemma cycle_step : forall fuel x st,
  visited idx e x -> uncached cyc st ->
  (In (entry_name x) cyc ->
   forall r, build_merged_for_entry fuel x idx st <> Ok r)
  /\ (forall v st', build_merged_for_entry fuel x idx st = Ok (v, st') ->
                    uncached cyc st').
Proof.
  induction fuel as [|fuel IH]; intros x st Hx Hst.
  - split; [intros _ r H; discriminate H | intros v st' H; discriminate H].
  - assert (Hkeep : forall be s bm s1,
               visited idx e be -> uncached cyc s ->
               build_merged_for_entry fuel be idx s = Ok (bm, s1) ->
               uncached cyc s1).
    { intros be s bm s1 Hbe Hs. apply (proj2 (IH be s Hbe Hs)). }
    assert (Hfail : forall be s r,
               visited idx e be -> In (entry_name be) cyc -> uncached cyc s ->
               build_merged_for_entry fuel be idx s <> Ok r).
    { intros be s r Hbe Hin Hs. apply (proj1 (IH be s Hbe Hs) Hin). }
    assert (Hfirst : In (entry_name x) cyc ->
              forall r, build_merged_for_entry (S fuel) x idx st <> Ok r).
    { intros Hin r. rewrite build_miss by (now apply Hst).
      destruct (bases_loop _ _ _ _ _ _ _) as [loop|] eqn:Hloop; cbn [bind];
        [|discriminate].
      exfalso. revert Hloop.
      apply (@bases_loop_on_cycle _ (entry_name x) Hkeep Hfail); [exact Hst|].
      apply Hcyc; assumption. }
    split; [exact Hfirst|].
    intros v st'.
    destruct (Dict.get (entry_name x) (cache st)) as [w|] eqn:Hc.
    + rewrite (build_hit _ _ _ _ Hc). intros H. now injection H as _ <-.
    + intros Hrun.
      destruct (in_dec string_dec (entry_name x) cyc) as [Hin|Hout];
        [exfalso; exact (Hfirst Hin _ Hrun)|].
      rewrite (build_miss _ _ _ _ Hc) in Hrun.
      destruct (bases_loop _ _ _ _ _ _ _) as [[[merged ancestors] st1]|]
        eqn:Hloop; cbn [bind] in Hrun; [|discriminate].
      pose proof (@bases_loop_uncached _ (entry_name x) Hkeep _ _ _ _ _ Hst Hloop)
        as Hst1. simpl in Hst1.
      unfold finish_view in Hrun.
      destruct (dedup_loop ancestors [] []) as [deduped|]; cbn [bind] in Hrun;
        [|discriminate].
      injection Hrun as _ <-. intros n Hn. unfold cache_view. simpl.
      rewrite get_set_other; [now apply Hst1|].
      intros ->. contradiction.
Qed.
End Cycle.

Lemma cyclic_index_cycle : closed_cycle cyclic_index cyc_a ["A"; "B"].
Proof.
  assert (Hidx : forall n x, Dict.get n cyclic_index = Some x ->
                             x = cyc_a \/ x = cyc_b \/ x = cyc_self).
  { intros n x. unfold cyclic_index. simpl.
    repeat match goal with
           | |- (if ?b then _ else _) = _ -> _ => destruct b
           end;
      intros H; try discriminate H; injection H as <-; auto. }
  intros x Hx Hin.
  assert (Hcase : x = cyc_a \/ x = cyc_b \/ x = cyc_self).
  { destruct Hx as [->|[n Hn]]; [auto | eapply Hidx; eauto]. }
  destruct Hcase as [->|[->| ->]].
  - exists "B", cyc_b. simpl. auto.
  - exists "A", cyc_a. simpl. auto.
  - simpl in Hin. destruct Hin as [H|[H|[]]]; discriminate H.
Qed.

(** C2, amended: on a record set whose base references are well founded
    below a record, resolving that record returns (a view, or the exception
    of a malformed member list) within a bounded recursion depth, from any
    cache, and a deeper budget does not change the result; when moreover the
    index is keyed by record name and the record is itself the entry the
    index holds for its name, a run that starts without duplicate work never
    computes a view twice: a repeated (diamond) ancestor is served from the
    cache.  On a cycle of base references, resolving a record of the cycle
    from a cache that holds no record of the cycle never returns a view,
    whatever the recursion depth. *)
Theorem acyclic_resolution_terminates idx e :
  (resolvable idx e ->
   exists fuel, forall st, exists r,
     bounded r
     /\ forall fuel', fuel <= fuel' ->
                      build_merged_for_entry fuel' e idx st = r)
  /\ (resolvable idx e ->
      index_by_name idx ->
      Dict.get (entry_name e) idx = Some e ->
      forall fuel st v st',
        no_duplicate_work st ->
        build_merged_for_entry fuel e idx st = Ok (v, st') ->
        no_duplicate_work st')
  /\ (forall cyc st,
        closed_cycle idx e cyc ->
        In (entry_name e) cyc ->
        uncached cyc st ->
        forall fuel r, build_merged_for_entry fuel e idx st <> Ok r).
Proof.
  split; [|split].
  - intros Hres. destruct (resolvable_bounded Hres) as [n Hn].
    exists n. intros st.
    exists (build_merged_for_entry n e idx st). split.
    + apply Hn. lia.
    + intros fuel' Hle. eapply build_stable; eauto.
  - intros Hres Hnames Hself fuel st v st' Hinv Hbuild.
    destruct (@build_run_step idx Hnames fuel e st v st' Hself Hres Hinv
                Hbuild) as [H _].
    exact H.
  - intros cyc st Hcyc Hin Hst fuel r.
    apply (proj1 (@cycle_step idx e cyc Hcyc fuel e st (or_introl eq_refl) Hst)).
    exact Hin.
Qed.

Lemma acyclic_resolution_terminates_witness :
  (exists v st',
      build_merged_for_entry 3 dia_d diamond_index empty_state = Ok (v, st')
      /\ computed_names (trace st') = ["A"; "B"; "C"; "D"]
      /\ no_duplicate_work st')
  /\ forall fuel r,
       build_merged_for_entry fuel cyc_a cyclic_index
         (mkState [("S", [("name", VStr "S")])] []) <> Ok r.
Proof.
  split.
  - eexists. eexists. split; [reflexivity|]. split; [reflexivity|].
    eapply (proj1 (proj2 (acyclic_resolution_terminates diamond_index dia_d))
              diamond_resolvable diamond_by_name eq_refl 3 empty_state).
    + exact empty_state_no_work.
    + reflexivity.
  - apply (proj2 (proj2 (acyclic_resolution_terminates cyclic_index cyc_a))
             ["A"; "B"]).
    + exact cyclic_index_cycle.
    + simpl. auto.
    + intros n Hn. simpl in Hn. destruct Hn as [<-|[<-|[]]]; reflexivity.
Defined.

(** ** Keys and the dict [named_items] *)

Lemma hkey_eqb_eq a b : hkey_eqb a b = true <-> a = b.
Proof.
  destruct a, b; simpl; try (split; [discriminate | congruence]);
    try tauto.
  - rewrite Z.eqb_eq. split; congruence.
  - rewrite String.eqb_eq. split; congruence.
Qed.

Lemma hkey_eqb_refl a : hkey_eqb a a = true.
Proof. now apply hkey_eqb_eq. Qed.

Lemma hkey_eqb_neq a b : hkey_eqb a b = false <-> a <> b.
Proof.
  rewrite <- hkey_eqb_eq. destruct (hkey_eqb a b); split; congruence.
Qed.

Lemma named_get_set_same k v d : Named.get k (Named.set k v d) = Some v.
Proof.
  induction d as [|[k' v'] d IH]; simpl.
  - now rewrite hkey_eqb_refl.
  - destruct (hkey_eqb k k') eqn:E; simpl; rewrite E; auto.
Qed.

Lemma named_get_set_other k k' v d :
  k <> k' -> Named.get k (Named.set k' v d) = Named.get k d.
Proof.
  intros Hne. induction d as [|[k0 v0] d IH]; simpl.
  - apply hkey_eqb_neq in Hne. now rewrite Hne.
  - destruct (hkey_eqb k' k0) eqn:E; simpl.
    + apply hkey_eqb_eq in E. subst k0.
      apply hkey_eqb_neq in Hne. now rewrite Hne.
    + now rewrite IH.
Qed.

Lemma named_get_None k d : Named.get k d = None <-> ~ In k (Named.keys d).
Proof.
  induction d as [|[k0 v0] d IH]; simpl; [tauto|].
  destruct (hkey_eqb k k0) eqn:E.
  - apply hkey_eqb_eq in E. subst.
    split; [discriminate | intros H; exfalso; apply H; now left].
  - apply hkey_eqb_neq in E. rewrite IH.
    split; [intros H [E'|Hin]; [congruence | auto] | tauto].
Qed.

Lemma named_get_In k v d : Named.get k d = Some v -> In (k, v) d.
Proof.
  induction d as [|[k0 v0] d IH]; simpl; [discriminate|].
  destruct (hkey_eqb k k0) eqn:E.
  - apply hkey_eqb_eq in E. subst. intros H. injection H as ->. now left.
  - auto.
Qed.

Lemma named_In_get k v d :
  NoDup (Named.keys d) -> In (k, v) d -> Named.get k d = Some v.
Proof.
  induction d as [|[k0 v0] d IH]; simpl; [tauto|].
  intros Hnd [E|Hin].
  - injection E as -> ->. now rewrite hkey_eqb_refl.
  - inversion Hnd as [|? ? Hnotin Hnd']; subst.
    destruct (hkey_eqb k k0) eqn:E.
    + apply hkey_eqb_eq in E. subst. exfalso. apply Hnotin.
      change (In (fst (k0, v)) (map fst d)). now apply in_map.
    + auto.
Qed.

Lemma named_set_fresh k v d :
  Named.get k d = None -> Named.set k v d = d ++ [(k, v)].
Proof.
  induction d as [|[k0 v0] d IH]; simpl; auto.
  destruct (hkey_eqb k k0); [discriminate|].
  intros H. now rewrite IH.
Qed.

Lemma named_keys_set k v d k' :
  In k' (Named.keys (Named.set k v d)) <-> k' = k \/ In k' (Named.keys d).
Proof.
  induction d as [|[k0 v0] d IH]; simpl.
  - intuition congruence.
  - destruct (hkey_eqb k k0) eqn:E; simpl.
    + apply hkey_eqb_eq in E. subst. intuition congruence.
    + rewrite IH. intuition congruence.
Qed.

Lemma named_set_NoDup k v d :
  NoDup (Named.keys d) -> NoDup (Named.keys (Named.set k v d)).
Proof.
  induction d as [|[k0 v0] d IH]; simpl; intros Hnd.
  - constructor; [tauto | constructor].
  - inversion Hnd as [|? ? Hnotin Hnd']; subst.
    destruct (hkey_eqb k k0) eqn:E; simpl.
    + now constructor.
    + constructor; [|auto].
      intros Hin. apply named_keys_set in Hin. destruct Hin as [->|Hin]; auto.
      rewrite hkey_eqb_refl in E. discriminate.
Qed.

(** ** Sorting the names *)

Lemma total_leb_total a b : total_leb a b = false -> total_leb b a = true.
Proof.
  unfold total_leb. destruct a, b; simpl; try discriminate; auto.
  - intros H. apply Z.leb_gt in H. apply Z.leb_le. lia.
  - intros H. destruct (String.leb_total s s0) as [H'|H']; congruence.
Qed.

Lemma insert_sorted_perm k l :
  Permutation (k :: l) (insert_sorted total_leb k l).
Proof.
  induction l as [|x l IH]; simpl; auto.
  destruct (total_leb k x); auto.
  eapply perm_trans; [apply perm_swap|]. now constructor.
Qed.

Lemma isort_perm l : Permutation l (isort total_leb l).
Proof.
  induction l as [|x l IH]; simpl; auto.
  eapply perm_trans; [|apply insert_sorted_perm]. now constructor.
Qed.

Lemma insert_sorted_sorted k l :
  Sorted key_le l -> Sorted key_le (insert_sorted total_leb k l).
Proof.
  induction 1 as [|x l Hs IH Hhd]; simpl.
  - repeat constructor.
  - destruct (total_leb k x) eqn:E.
    + constructor; [now constructor | now constructor].
    + constructor; [exact IH|].
      destruct l as [|y l]; simpl.
      * constructor. now apply total_leb_total.
      * destruct (total_leb k y); constructor.
        -- now apply total_leb_total.
        -- now inversion Hhd.
Qed.

Lemma isort_sorted l : Sorted key_le (isort total_leb l).
Proof.
  induction l as [|x l IH]; simpl; [constructor|].
  now apply insert_sorted_sorted.
Qed.

Lemma sorted_spec ks ks' :
  sorted ks = Ok ks' -> Permutation ks ks' /\ Sorted key_le ks'.
Proof.
  unfold sorted. destruct ks as [|k [|k' ks]].
  - intros H. injection H as <-. split; constructor.
  - intros H. injection H as <-. split; [auto | repeat constructor].
  - destruct (_ || _); [|discriminate].
    intros H. injection H as <-.
    split; [apply (isort_perm (k :: k' :: ks))
           | apply (isort_sorted (k :: k' :: ks))].
Qed.

Lemma forallb_perm (f : hkey -> bool) ks ks' :
  Permutation ks ks' -> forallb f ks = true -> forallb f ks' = true.
Proof.
  intros Hperm H. rewrite forallb_forall in *. intros x Hx.
  apply H. eapply Permutation_in; [apply Permutation_sym; exact Hperm|exact Hx].
Qed.

Lemma sorted_one_kind ks ks' : sorted ks = Ok ks' -> one_kind ks'.
Proof.
  intros H. pose proof (sorted_spec _ H) as [Hperm _]. revert H.
  unfold sorted, one_kind. destruct ks as [|k [|k' ks]].
  - intros H. injection H as <-. left. simpl. lia.
  - intros H. injection H as <-. left. simpl. lia.
  - destruct (forallb is_num (k :: k' :: ks)) eqn:En.
    + intros _. right. left. eapply forallb_perm; eauto.
    + destruct (forallb is_str (k :: k' :: ks)) eqn:Es; [|discriminate].
      intros _. right. right. eapply forallb_perm; eauto.
Qed.

Lemma sorted_str ks :
  forallb is_str ks = true -> exists ks', sorted ks = Ok ks'.
Proof.
  unfold sorted. destruct ks as [|k [|k' ks]]; eauto.
  intros ->. rewrite orb_true_r. eauto.
Qed.

Lemma values_spec d ks : forall vs,
  Named.values ks d = Ok vs ->
  Forall2 (fun k v => Named.get k d = Some v) ks vs.
Proof.
  induction ks as [|k ks IH]; simpl; intros vs.
  - intros H. injection H as <-. constructor.
  - destruct (Named.get k d) as [v|] eqn:Hk; [|discriminate].
    destruct (Named.values ks d) as [vs'|]; simpl; [|discriminate].
    intros H. injection H as <-. constructor; auto.
Qed.

Lemma values_total d ks :
  (forall k, In k ks -> Named.get k d <> None) ->
  exists vs, Named.values ks d = Ok vs.
Proof.
  induction ks as [|k ks IH]; simpl; intros H; [eauto|].
  destruct (Named.get k d) as [v|] eqn:Hk.
  - destruct IH as [vs ->]; [intros; apply H; auto|]. simpl. eauto.
  - exfalso. apply (H k); auto.
Qed.

(** ** The two loops over the members of a group *)

Lemma member_key_unnamed it :
  is_unnamed it = true -> member_key it = None.
Proof.
  unfold is_unnamed, member_key. destruct (item_name it); [discriminate|auto].
Qed.

Lemma keyed_keys_In l k : In k (Named.keys (keyed l)) ->
  exists it, In it l /\ member_key it = Some k.
Proof.
  induction l as [|it l IH]; simpl; [tauto|].
  destruct (member_key it) as [k0|] eqn:E; simpl.
  - intros [<-|Hin]; [eauto|]. destruct (IH Hin) as (it' & ? & ?). eauto.
  - intros Hin. destruct (IH Hin) as (it' & ? & ?). eauto.
Qed.

Lemma members_named_cons k it l :
  members_named k (it :: l)
  = if keyed_as k it then it :: members_named k l else members_named k l.
Proof. reflexivity. Qed.

Lemma keyed_as_key it n k :
  member_key it = Some n -> keyed_as k it = hkey_eqb k n.
Proof. unfold keyed_as. now intros ->. Qed.

Lemma keyed_as_unnamed it k : member_key it = None -> keyed_as k it = false.
Proof. unfold keyed_as. now intros ->. Qed.

Lemma base_items_spec bl : forall merged named merged' named',
  base_items bl merged named = Ok (merged', named') ->
  merged' = merged ++ unnamed bl
  /\ (forall k, Named.get k named'
                = match last_opt (members_named k bl) with
                  | Some b => Some b
                  | None => Named.get k named
                  end)
  /\ (forall k, In k (Named.keys named')
                <-> In k (Named.keys named) \/ In k (Named.keys (keyed bl)))
  /\ (NoDup (Named.keys named) -> NoDup (Named.keys named')).
Proof.
  induction bl as [|it bl IH]; intros merged named merged' named'.
  - simpl. intros H. injection H as <- <-.
    rewrite app_nil_r. repeat split; auto; tauto.
  - cbn [base_items keyed]. unfold unnamed. cbn [filter].
    destruct (item_name it) as [nv|] eqn:Hname.
    + destruct (hash_key nv) as [n|] eqn:Hn; [|discriminate].
      assert (Hk : member_key it = Some n)
        by (unfold member_key; now rewrite Hname).
      assert (Hu : is_unnamed it = false)
        by (unfold is_unnamed; now rewrite Hname).
      rewrite Hk, Hu.
      intros Hrun.
      destruct (IH _ _ _ _ Hrun) as (Hm & Hget & Hkeys & Hnodup).
      split; [exact Hm|]. split; [|split].
      * intros k. rewrite Hget, members_named_cons, (@keyed_as_key it n k Hk).
        destruct (hkey_eqb k n) eqn:E.
        -- apply hkey_eqb_eq in E. subst k. cbn [last_opt].
           destruct (last_opt (members_named n bl)); [reflexivity|].
           apply named_get_set_same.
        -- apply hkey_eqb_neq in E.
           destruct (last_opt (members_named k bl)); [reflexivity|].
           now apply named_get_set_other.
      * intros k. rewrite Hkeys, named_keys_set. cbn [Named.keys map fst].
        split; [intros [[->|H1]|H1] | intros [H1|[<-|H1]]]; simpl; auto.
      * intros Hn0. apply Hnodup. now apply named_set_NoDup.
    + assert (Hk : member_key it = None)
        by (unfold member_key; now rewrite Hname).
      assert (Hu : is_unnamed it = true)
        by (unfold is_unnamed; now rewrite Hname).
      rewrite Hk, Hu.
      intros Hrun.
      destruct (IH _ _ _ _ Hrun) as (Hm & Hget & Hkeys & Hnodup).
      split; [|split; [|auto]].
      * rewrite Hm, <- app_assoc. reflexivity.
      * intros k. rewrite Hget, members_named_cons, (@keyed_as_unnamed it k Hk).
        reflexivity.
Qed.

Lemma chain_from_step old it m cs v :
  deep_merge old it = Ok m ->
  (chain_from (Some old) (it :: cs) v <-> chain_from (Some m) cs v).
Proof. intros H. unfold chain_from. cbn [merge_chain]. now rewrite H. Qed.

Lemma child_items_spec cl : forall merged named merged' named',
  child_items deep_merge cl merged named = Ok (merged', named') ->
  merged' = merged ++ unnamed cl
  /\ (forall k v,
        Named.get k named' = Some v
        <-> chain_from (Named.get k named) (members_named k cl) v)
  /\ (forall k, In k (Named.keys named')
                <-> In k (Named.keys named) \/ In k (Named.keys (keyed cl)))
  /\ (NoDup (Named.keys named) -> NoDup (Named.keys named')).
Proof.
  induction cl as [|it cl IH]; intros merged named merged' named'.
  - simpl. intros H. injection H as <- <-.
    rewrite app_nil_r. split; [reflexivity|]. split; [|split; [tauto|auto]].
    intros k v. unfold chain_from. cbn [members_named filter merge_chain].
    destruct (Named.get k named) as [b|]; [|split; [discriminate|tauto]].
    split; congruence.
  - cbn [child_items keyed]. unfold unnamed. cbn [filter].
    destruct (item_name it) as [nv|] eqn:Hname.
    + destruct (hash_key nv) as [n|] eqn:Hn; [|discriminate].
      assert (Hk : member_key it = Some n)
        by (unfold member_key; now rewrite Hname).
      assert (Hu : is_unnamed it = false)
        by (unfold is_unnamed; now rewrite Hname).
      rewrite Hk, Hu.
      destruct (Named.get n named) as [old|] eqn:Hold.
      * destruct (deep_merge old it) as [m|] eqn:Hmerge; cbn [bind];
          [|discriminate].
        intros Hrun.
        destruct (IH _ _ _ _ Hrun) as (Hm & Hget & Hkeys & Hnodup).
        split; [exact Hm|]. split; [|split].
        -- intros k v. rewrite Hget, members_named_cons, (@keyed_as_key it n k Hk).
           destruct (hkey_eqb k n) eqn:E.
           ++ apply hkey_eqb_eq in E. subst k. rewrite Hold.
              rewrite named_get_set_same. symmetry.
              now apply chain_from_step.
           ++ apply hkey_eqb_neq in E.
              rewrite named_get_set_other by exact E. reflexivity.
        -- intros k. rewrite Hkeys, named_keys_set. cbn [Named.keys map fst].
           split; [intros [[->|H1]|H1] | intros [H1|[<-|H1]]]; simpl; auto.
        -- intros Hn0. apply Hnodup. now apply named_set_NoDup.
      * intros Hrun.
        destruct (IH _ _ _ _ Hrun) as (Hm & Hget & Hkeys & Hnodup).
        split; [exact Hm|]. split; [|split].
        -- intros k v. rewrite Hget, members_named_cons, (@keyed_as_key it n k Hk).
           destruct (hkey_eqb k n) eqn:E.
           ++ apply hkey_eqb_eq in E. subst k. rewrite Hold.
              rewrite named_get_set_same. reflexivity.
           ++ apply hkey_eqb_neq in E.
              rewrite named_get_set_other by exact E. reflexivity.
        -- intros k. rewrite Hkeys, named_keys_set. cbn [Named.keys map fst].
           split; [intros [[->|H1]|H1] | intros [H1|[<-|H1]]]; simpl; auto.
        -- intros Hn0. apply Hnodup. now apply named_set_NoDup.
    + assert (Hk : member_key it = None)
        by (unfold member_key; now rewrite Hname).
      assert (Hu : is_unnamed it = true)
        by (unfold is_unnamed; now rewrite Hname).
      rewrite Hk, Hu.
      intros Hrun.
      destruct (IH _ _ _ _ Hrun) as (Hm & Hget & Hkeys & Hnodup).
      split; [|split; [|auto]].
      * rewrite Hm, <- app_assoc. reflexivity.
      * intros k v. rewrite Hget, members_named_cons, (@keyed_as_unnamed it k Hk).
        reflexivity.
Qed.

Lemma Forall2_combine {A B : Type} (R : A -> B -> Prop) ks vs :
  Forall2 R ks vs ->
  map fst (combine ks vs) = ks
  /\ map snd (combine ks vs) = vs
  /\ forall k v, In (k, v) (combine ks vs) -> R k v.
Proof.
  induction 1 as [|k v ks vs HR _ (IH1 & IH2 & IH3)]; simpl.
  - repeat split. intros k v [].
  - rewrite IH1, IH2. repeat split.
    intros k' v' [E|Hin]; [injection E as <- <-; auto | auto].
Qed.

(** ** The merged member group *)

Lemma member_hashable_or_unnamed it k :
  member_key it = Some k -> is_unnamed it = false.
Proof.
  unfold member_key, is_unnamed. destruct (item_name it); [auto|discriminate].
Qed.

Lemma merge_members_spec bl cl out :
  merge_members deep_merge bl cl = Ok out ->
  exists named,
    out = unnamed bl ++ unnamed cl ++ map snd named
    /\ Sorted key_le (map fst named)
    /\ NoDup (map fst named)
    /\ (forall k, In k (map fst named)
                  <-> In k (Named.keys (keyed bl)) \/ In k (Named.keys (keyed cl)))
    /\ (forall k m, In (k, m) named -> group_member bl cl k m)
    /\ one_kind (map fst named).
Proof.
  unfold merge_members.
  destruct (base_items bl [] []) as [[m1 n1]|] eqn:Hbase; cbn [bind];
    [|discriminate].
  destruct (child_items deep_merge cl m1 n1) as [[m2 n2]|] eqn:Hchild;
    cbn [bind]; [|discriminate].
  destruct (sorted (Named.keys n2)) as [ks|] eqn:Hsort; cbn [bind];
    [|discriminate].
  destruct (Named.values ks n2) as [vs|] eqn:Hvals; cbn [bind]; [|discriminate].
  intros H. injection H as <-.
  destruct (base_items_spec _ _ _ Hbase) as (Hm1 & Hget1 & Hkeys1 & Hnd1).
  destruct (child_items_spec _ _ _ Hchild) as (Hm2 & Hget2 & Hkeys2 & Hnd2).
  destruct (sorted_spec _ Hsort) as [Hperm Hsorted].
  destruct (Forall2_combine (values_spec _ _ Hvals)) as (Hfst & Hsnd & Hin).
  exists (combine ks vs). rewrite Hfst, Hsnd.
  split; [|split; [exact Hsorted|split; [|split; [|split]]]].
  - rewrite Hm2, Hm1. simpl. now rewrite <- app_assoc.
  - eapply Permutation_NoDup; [exact Hperm|]. apply Hnd2, Hnd1. constructor.
  - intros k. split.
    + intros Hk. apply (Permutation_in _ (Permutation_sym Hperm)) in Hk.
      apply Hkeys2 in Hk. destruct Hk as [Hk|Hk]; [|auto].
      apply Hkeys1 in Hk. destruct Hk as [[]|Hk]. auto.
    + intros Hk. apply (Permutation_in _ Hperm). apply Hkeys2.
      destruct Hk as [Hk|Hk]; [left|auto]. apply Hkeys1. auto.
  - intros k m Hkm. apply Hin in Hkm. apply Hget2 in Hkm.
    rewrite Hget1 in Hkm. unfold group_member.
    destruct (last_opt (members_named k bl)); exact Hkm.
  - eapply sorted_one_kind; eauto.
Qed.

Lemma in_merge_list_keys_In key :
  in_merge_list_keys key = true <-> In key MERGE_LIST_KEYS.
Proof.
  unfold in_merge_list_keys. rewrite existsb_exists. split.
  - intros (x & Hin & E). apply String.eqb_eq in E. now subst.
  - intros Hin. exists key. split; [exact Hin | apply String.eqb_refl].
Qed.

(** What [deep_merge] stores under a member-group key that holds a list on
    both sides. *)
Lemma deep_merge_member_group bm cm key bl cl r :
  wf_dict cm ->
  In key MERGE_LIST_KEYS ->
  Dict.get key bm = Some (VList bl) ->
  Dict.get key cm = Some (VList cl) ->
  deep_merge (VMap bm) (VMap cm) = Ok r ->
  exists rm out,
    r = VMap rm
    /\ merge_members deep_merge bl cl = Ok out
    /\ Dict.get key rm = Some (VList out).
Proof.
  intros Hwf Hkey Hb Hc Hmerge.
  destruct (deep_merge_maps _ _ Hmerge) as [rm ->].
  apply deep_merge_maps_fields in Hmerge.
  destruct (merge_fields_child_key _ _ _ Hwf Hmerge Hc) as (x & Hx & Hr).
  rewrite Hb in Hx. unfold merged_value in Hx.
  apply in_merge_list_keys_In in Hkey. rewrite Hkey in Hx.
  destruct (merge_members deep_merge bl cl) as [out|]; simpl in Hx;
    [|discriminate].
  injection Hx as <-. exists rm, out. auto.
Qed.

(** ** The merge returns on string-named members *)

Lemma str_names_list l :
  str_names (VList l) = true <-> Forall (fun v => str_names v = true) l.
Proof. simpl. rewrite forallb_forall, Forall_forall. tauto. Qed.

Lemma str_names_map_In m k v :
  str_names (VMap m) = true -> In (k, v) m ->
  str_names v = true /\ (k = "name" -> is_vstr v = true).
Proof.
  simpl. rewrite forallb_forall. intros H Hin.
  apply H in Hin. apply andb_true_iff in Hin. destruct Hin as [Hn Hv].
  split; [exact Hv|]. intros ->. exact Hn.
Qed.

Lemma str_names_map_set m k x :
  str_names (VMap m) = true ->
  str_names x = true ->
  (k = "name" -> is_vstr x = true) ->
  str_names (VMap (Dict.set k x m)) = true.
Proof.
  intros Hm Hx Hk.
  assert (Hkx : name_is_str (k, x) && str_names x = true).
  { rewrite Hx, andb_true_r. unfold name_is_str. simpl.
    destruct (String.eqb_spec k "name") as [E|_]; simpl; auto. }
  simpl in *. induction m as [|[k0 v0] m IH]; simpl in *.
  - now rewrite Hkx.
  - apply andb_true_iff in Hm. destruct Hm as [H0 Hm].
    destruct (String.eqb_spec k k0) as [->|Hne]; simpl.
    + now rewrite Hkx, Hm.
    + now rewrite H0, IH.
Qed.

Lemma item_name_str it nv :
  str_names it = true -> item_name it = Some nv -> exists s, nv = VStr s.
Proof.
  destruct it as [| | | | |m]; simpl; try discriminate.
  intros Hm Hget. apply get_In in Hget.
  destruct (@str_names_map_In m _ _ Hm Hget) as [_ Hs].
  specialize (Hs eq_refl). destruct nv; try discriminate. eauto.
Qed.

Lemma named_ok_set k v named :
  named_ok named -> is_str k = true -> str_names v = true ->
  named_ok (Named.set k v named).
Proof.
  unfold named_ok. intros Hn Hk Hv.
  induction named as [|[k0 v0] named IH]; simpl.
  - repeat constructor; auto.
  - inversion Hn as [|? ? [Hk0 Hv0] Hn']; subst. simpl in *.
    destruct (hkey_eqb k k0); constructor; auto.
Qed.

Lemma named_ok_get k v named :
  named_ok named -> Named.get k named = Some v -> str_names v = true.
Proof.
  unfold named_ok. rewrite Forall_forall. intros Hn Hget.
  apply named_get_In in Hget. apply Hn in Hget. apply Hget.
Qed.

Lemma base_items_total bl : forall merged named,
  Forall (fun it => str_names it = true) bl ->
  Forall (fun it => str_names it = true) merged ->
  named_ok named ->
  exists merged' named',
    base_items bl merged named = Ok (merged', named')
    /\ Forall (fun it => str_names it = true) merged'
    /\ named_ok named'.
Proof.
  induction bl as [|it bl IH]; intros merged named Hbl Hm Hn; simpl; [eauto|].
  inversion Hbl as [|? ? Hit Hbl']; subst.
  destruct (item_name it) as [nv|] eqn:Hname.
  - destruct (@item_name_str it nv Hit Hname) as [s ->]. simpl.
    apply IH; auto. now apply named_ok_set.
  - apply IH; auto. apply Forall_app. auto.
Qed.

Lemma child_items_total cl : forall merged named,
  Forall (fun it => str_names it = true) cl ->
  Forall merges_str_named cl ->
  Forall (fun it => str_names it = true) merged ->
  named_ok named ->
  exists merged' named',
    child_items deep_merge cl merged named = Ok (merged', named')
    /\ Forall (fun it => str_names it = true) merged'
    /\ named_ok named'.
Proof.
  induction cl as [|it cl IH]; intros merged named Hcl HP Hm Hn;
    cbn [child_items]; [eauto|].
  inversion Hcl as [|? ? Hit Hcl']; subst.
  inversion HP as [|? ? HPit HP']; subst.
  destruct (item_name it) as [nv|] eqn:Hname.
  - destruct (@item_name_str it nv Hit Hname) as [s ->]. cbn [hash_key].
    destruct (Named.get (KStr s) named) as [old|] eqn:Hold.
    + destruct (HPit old (@named_ok_get _ _ _ Hn Hold) Hit) as (r & -> & Hr).
      cbn [bind]. apply IH; auto. now apply named_ok_set.
    + apply IH; auto. now apply named_ok_set.
  - apply IH; auto. apply Forall_app. auto.
Qed.

Lemma named_ok_keys named :
  named_ok named -> forallb is_str (Named.keys named) = true.
Proof.
  unfold named_ok. induction 1 as [|[k v] named [Hk _] _ IH]; simpl; auto.
  simpl in Hk. now rewrite Hk.
Qed.

Lemma merge_members_total bl cl :
  Forall (fun it => str_names it = true) bl ->
  Forall (fun it => str_names it = true) cl ->
  Forall merges_str_named cl ->
  exists out, merge_members deep_merge bl cl = Ok out
              /\ Forall (fun it => str_names it = true) out.
Proof.
  intros Hbl Hcl HP. unfold merge_members.
  destruct (@base_items_total bl [] [] Hbl (Forall_nil _) (Forall_nil _))
    as (m1 & n1 & -> & Hm1 & Hn1). cbn [bind].
  destruct (@child_items_total cl m1 n1 Hcl HP Hm1 Hn1)
    as (m2 & n2 & -> & Hm2 & Hn2). cbn [bind].
  destruct (@sorted_str _ (named_ok_keys Hn2)) as [ks Hks]. rewrite Hks.
  cbn [bind].
  destruct (@sorted_spec _ _ Hks) as [Hperm _].
  destruct (@values_total n2 ks) as [vs Hvs].
  { intros k Hk. apply (Permutation_in _ (Permutation_sym Hperm)) in Hk.
    intros Hnone. apply named_get_None in Hnone. auto. }
  rewrite Hvs. cbn [bind]. eexists. split; [reflexivity|].
  apply Forall_app. split; [exact Hm2|].
  apply values_spec in Hvs. clear -Hvs Hn2.
  induction Hvs as [|k v ks vs Hget _ IH]; constructor; auto.
  eapply named_ok_get; eauto.
Qed.

Lemma merge_fields_total cm :
  Forall (fun kv => merges_str_named (snd kv)
                    /\ forall cl, snd kv = VList cl ->
                                  Forall merges_str_named cl) cm ->
  str_names (VMap cm) = true ->
  forall result,
    str_names (VMap result) = true ->
    exists r, merge_fields deep_merge cm result = Ok r
              /\ str_names (VMap r) = true.
Proof.
  induction 1 as [|[key cv] cm [HP HPl] _ IH]; intros Hcm result Hres.
  - simpl. eauto.
  - rewrite merge_fields_cons.
    assert (Hkv : str_names cv = true /\ (key = "name" -> is_vstr cv = true)).
    { apply (@str_names_map_In _ key cv Hcm (or_introl eq_refl)). }
    destruct Hkv as [Hcv Hkey].
    assert (Hcm' : str_names (VMap cm) = true).
    { simpl in Hcm |- *. apply andb_true_iff in Hcm. apply Hcm. }
    assert (Hx : exists x,
               merged_value deep_merge key (Dict.get key result) cv = Ok x
               /\ str_names x = true /\ (key = "name" -> is_vstr x = true)).
    { unfold merged_value.
      destruct (Dict.get key result) as [bv|] eqn:Hget; [|eauto].
      apply get_In in Hget.
      destruct (@str_names_map_In _ _ _ Hres Hget) as [Hbv _].
      destruct bv; eauto; destruct cv; eauto.
      - destruct (in_merge_list_keys key); [|eauto].
        destruct (@merge_members_total items items0) as (out & -> & Hout).
        + now apply str_names_list.
        + now apply str_names_list.
        + now apply HPl.
        + cbn [bind]. eexists. split; [reflexivity|].
          split; [now apply str_names_list|].
          intros E. specialize (Hkey E). discriminate.
      - simpl in HP. destruct (HP _ Hbv Hcv) as (r & -> & Hr).
        eexists. split; [reflexivity|]. split; [exact Hr|].
        intros E. specialize (Hkey E). discriminate. }
    destruct Hx as (x & -> & Hx & Hxk). cbn [bind].
    apply IH; auto. now apply str_names_map_set.
Qed.

Lemma deep_merge_total child : merges_str_named child.
Proof.
  induction child as [| | | |l IH|m IH] using value_ind_members;
    intros base Hbase Hchild;
    try (destruct base; (eexists; split; [reflexivity | exact Hchild])).
  destruct base; try (eexists; split; [reflexivity | exact Hchild]).
  cbn [deep_merge].
  destruct (@merge_fields_total m IH Hchild _ Hbase) as (r & -> & Hr).
  cbn [bind]. eauto.
Qed.

Lemma named_item_hashable it nv n :
  item_name it = Some nv -> hash_key nv = Some n ->
  is_unnamed it = false -> member_key it <> None.
Proof.
  intros Hname Hn _. unfold member_key. rewrite Hname, Hn. discriminate.
Qed.

Lemma unnamed_item_hashable it :
  item_name it = None ->
  is_unnamed it = false -> member_key it <> None.
Proof.
  intros Hname. unfold is_unnamed. rewrite Hname. discriminate.
Qed.

Lemma base_items_hashable bl : forall merged named r,
  base_items bl merged named = Ok r ->
  Forall (fun it => is_unnamed it = false -> member_key it <> None) bl.
Proof.
  induction bl as [|it bl IH]; intros merged named r; [constructor|].
  cbn [base_items].
  destruct (item_name it) as [nv|] eqn:Hname.
  - destruct (hash_key nv) as [n|] eqn:Hn; [|discriminate].
    intros H. constructor; [eapply named_item_hashable; eauto | eauto].
  - intros H. constructor; [now apply unnamed_item_hashable | eauto].
Qed.

Lemma child_items_hashable cl : forall merged named r,
  child_items deep_merge cl merged named = Ok r ->
  Forall (fun it => is_unnamed it = false -> member_key it <> None) cl.
Proof.
  induction cl as [|it cl IH]; intros merged named r; [constructor|].
  cbn [child_items].
  destruct (item_name it) as [nv|] eqn:Hname.
  - destruct (hash_key nv) as [n|] eqn:Hn; [|discriminate].
    destruct (Named.get n named) as [old|].
    + destruct (deep_merge old it); cbn [bind]; [|discriminate].
      intros H. constructor; [eapply named_item_hashable; eauto | eauto].
    + intros H. constructor; [eapply named_item_hashable; eauto | eauto].
  - intros H. constructor; [now apply unnamed_item_hashable | eauto].
Qed.

Lemma merge_members_hashable bl cl out :
  merge_members deep_merge bl cl = Ok out ->
  Forall (fun it => is_unnamed it = false -> member_key it <> None) (bl ++ cl).
Proof.
  unfold merge_members.
  destruct (base_items bl [] []) as [[m1 n1]|] eqn:Hbase; cbn [bind];
    [|discriminate].
  destruct (child_items deep_merge cl m1 n1) as [[m2 n2]|] eqn:Hchild;
    cbn [bind]; [|discriminate].
  intros _. apply Forall_app. split.
  - eapply base_items_hashable; eauto.
  - eapply child_items_hashable; eauto.
Qed.

(** C1, as stated, fails on two counts: two child members of one name (and
    no base member of that name) are merged into one, so neither appears
    unchanged; and with an integer name on one side and a string name on the
    other, sorting the names raises and no sequence is produced. *)
Lemma named_group_merge_fails_as_stated :
  (exists out,
      deep_merge dup_base dup_child = Ok (VMap [("members", VList out)])
      /\ out = [VMap [("name", VStr "Y"); ("a", VInt 1); ("b", VInt 2)]]
      /\ ~ In (VMap [("name", VStr "Y"); ("a", VInt 1)]) out
      /\ ~ In (VMap [("name", VStr "Y"); ("b", VInt 2)]) out)
  /\ deep_merge mixed_base mixed_child = Raise TypeError.
Proof.
  split; [|reflexivity].
  eexists. split; [reflexivity|]. split; [reflexivity|].
  split; intros [H|[]]; discriminate H.
Qed.

(** Within one side a repeated name is not kept twice: of two base members of
    one name the later stands for the name, and two child members of one name
    are merged into it in order. *)
Example repeated_member_names :
  deep_merge
    (VMap [("members", VList [VMap [("name", VStr "X"); ("a", VInt 1)];
                              VMap [("name", VStr "X"); ("b", VInt 2)]])])
    (VMap [("members", VList [VMap [("name", VStr "X"); ("c", VInt 3)];
                              VMap [("name", VStr "X"); ("d", VInt 4)]])])
  = Ok (VMap [("members",
               VList [VMap [("name", VStr "X"); ("b", VInt 2); ("c", VInt 3);
                            ("d", VInt 4)]])]).
Proof. reflexivity. Qed.

Lemma merge_chain_one b c m : merge_chain b [c] = Ok m -> deep_merge b c = Ok m.
Proof.
  cbn [merge_chain]. destruct (deep_merge b c) as [m'|]; cbn [bind];
    [|discriminate].
  intros H. now injection H as <-.
Qed.

(** What [group_member] says for a name that each side has at most once. *)
Lemma group_member_once bl cl k m :
  group_member bl cl k m ->
  (forall b c, members_named k bl = [b] -> members_named k cl = [c] ->
               deep_merge b c = Ok m)
  /\ (forall b, members_named k bl = [b] -> members_named k cl = [] -> m = b)
  /\ (forall c, members_named k bl = [] -> members_named k cl = [c] -> m = c).
Proof.
  unfold group_member. intros H. split; [|split].
  - intros b c Hb Hc. rewrite Hb, Hc in H. now apply merge_chain_one.
  - intros b Hb Hc. rewrite Hb, Hc in H. simpl in H. congruence.
  - intros c Hb Hc. rewrite Hb, Hc in H. simpl in H. congruence.
Qed.

(** C1, amended: for two maps that hold sequences under a named-member-group
    key, the merge returns whenever all names are strings, and whenever it
    returns it stores under that key the unnamed entries of the base, then
    those of the child, then one member per name of either side, without
    duplicates and sorted by name.  The member of a name is the child members
    of that name merged one after another, in order, into the last base
    member of that name (into the first of them when the base has none; of
    several base members of one name only the last is used).  So a name that
    the base and the child each have once gives the recursive merge of the
    base member and the child member, and a name that one side has once and
    the other has not gives that member, unchanged.  When it returns, every
    entry of either side is unnamed or keyed by its (hashable) name, and the
    names are all numbers or all strings unless there is at most one: with an
    unhashable name, or names of mixed kinds, the merge does not return. *)
Theorem named_group_merge bm cm key bl cl :
  wf_dict cm ->
  In key MERGE_LIST_KEYS ->
  Dict.get key bm = Some (VList bl) ->
  Dict.get key cm = Some (VList cl) ->
  (str_names (VMap bm) = true -> str_names (VMap cm) = true ->
   exists r, deep_merge (VMap bm) (VMap cm) = Ok r)
  /\ forall r,
      deep_merge (VMap bm) (VMap cm) = Ok r ->
      exists rm named,
        r = VMap rm
        /\ Dict.get key rm
           = Some (VList (unnamed bl ++ unnamed cl ++ map snd named))
        /\ Sorted key_le (map fst named)
        /\ NoDup (map fst named)
        /\ (forall k, In k (map fst named)
                      <-> In k (Named.keys (keyed bl))
                          \/ In k (Named.keys (keyed cl)))
        /\ (forall k m, In (k, m) named ->
              group_member bl cl k m
              /\ (forall b c, members_named k bl = [b] ->
                              members_named k cl = [c] ->
                              deep_merge b c = Ok m)
              /\ (forall b, members_named k bl = [b] ->
                            members_named k cl = [] -> m = b)
              /\ (forall c, members_named k bl = [] ->
                            members_named k cl = [c] -> m = c))
        /\ one_kind (map fst named)
        /\ Forall (fun it => is_unnamed it = false -> member_key it <> None)
                  (bl ++ cl).
Proof.
  intros Hwf Hkey Hb Hc. split.
  - intros Hsb Hsc.
    destruct (@deep_merge_total (VMap cm) (VMap bm) Hsb Hsc) as (r & Hr & _).
    eauto.
  - intros r Hr.
    destruct (@deep_merge_member_group bm cm key bl cl r Hwf Hkey Hb Hc Hr)
      as (rm & out & -> & Hout & Hget).
    destruct (@merge_members_spec bl cl out Hout)
      as (named & -> & Hsorted & Hnd & Hkeys & Hexp & Hkind).
    exists rm, named.
    split; [reflexivity|]. split; [exact Hget|]. split; [exact Hsorted|].
    split; [exact Hnd|]. split; [exact Hkeys|]. split; [|split].
    + intros k m Hkm. split; [now apply Hexp|].
      apply group_member_once. now apply Hexp.
    + exact Hkind.
    + eapply merge_members_hashable; eauto.
Qed.

Lemma named_group_merge_witness :
  exists rm named,
    deep_merge example_base example_child = Ok (VMap rm)
    /\ Dict.get "members" rm = Some (VList (map snd named))
    /\ Sorted key_le (map fst named)
    /\ NoDup (map fst named)
    /\ forall m, In (KStr "X", m) named ->
         deep_merge (VMap [("name", VStr "X"); ("desc", VStr "b")])
                    (VMap [("name", VStr "X"); ("desc", VStr "c")]) = Ok m.
Proof.
  assert (H := @named_group_merge
                 [("members", VList [VMap [("name", VStr "X"); ("desc", VStr "b")]])]
                 [("members",
                   VList [VMap [("name", VStr "X"); ("desc", VStr "c")];
                          VMap [("name", VStr "Y"); ("desc", VStr "c2")]])]
                 "members"
                 [VMap [("name", VStr "X"); ("desc", VStr "b")]]
                 [VMap [("name", VStr "X"); ("desc", VStr "c")];
                  VMap [("name", VStr "Y"); ("desc", VStr "c2")]]).
  destruct H as [_ H].
  - unfold wf_dict. simpl. repeat constructor. intros [].
  - simpl. tauto.
  - reflexivity.
  - reflexivity.
  - destruct (H (VMap [("members",
                        VList [VMap [("name", VStr "X"); ("desc", VStr "c")];
                               VMap [("name", VStr "Y"); ("desc", VStr "c2")]])])
                eq_refl) as (rm & named & E & Hget & Hsorted & Hnd & _ & Hmem & _).
    exists rm, named. split; [rewrite <- E; reflexivity|].
    split; [exact Hget|]. split; [exact Hsorted|]. split; [exact Hnd|].
    intros m Hm. destruct (Hmem _ _ Hm) as (_ & Hboth & _).
    apply Hboth; reflexivity.
Defined.

(** ** Frame properties over the store *)

Module StoreFacts.
Import Store StoreSpec.
#[local] Unset Implicit Arguments.

Lemma length_write l o h : List.length (write l o h) = List.length h.
Proof.
  revert l. induction h as [|x h IH]; intros [|l]; simpl; auto.
Qed.

Lemma nth_error_write_other l l' o h :
  l <> l' -> nth_error (write l o h) l' = nth_error h l'.
Proof.
  revert l l'. induction h as [|x h IH]; intros [|l] [|l'] Hne; simpl; auto.
  - congruence.
Qed.

Lemma nth_error_write_same l o h :
  l < List.length h -> nth_error (write l o h) l = Some o.
Proof.
  revert l. induction h as [|x h IH]; intros [|l] Hl; simpl in *; auto; try lia.
  apply IH. lia.
Qed.

Lemma fresh_mono n h h' r :
  fresh n h r -> List.length h <= List.length h' -> fresh n h' r.
Proof. destruct r; simpl; auto. lia. Qed.

Lemma fresh_weaken n n' h r : fresh n h r -> n' <= n -> fresh n' h r.
Proof. destruct r; simpl; auto. lia. Qed.

Lemma Forall_fresh_mono n h h' rs :
  Forall (fresh n h) rs -> List.length h <= List.length h' ->
  Forall (fresh n h') rs.
Proof.
  intros H Hle. eapply Forall_impl; [|exact H].
  intros r Hr. eapply fresh_mono; eauto.
Qed.

Lemma frame_refl m h : frame m h h.
Proof. split; auto. Qed.

Lemma frame_trans m m' h h1 h2 :
  frame m h h1 -> frame m' h1 h2 -> m <= m' -> frame m h h2.
Proof.
  intros [Hl1 H1] [Hl2 H2] Hm. split; [lia|].
  intros l Hl. rewrite H2 by lia. now apply H1.
Qed.

Lemma frame_weaken m m' h h' : frame m h h' -> m' <= m -> frame m' h h'.
Proof.
  intros [Hl H] Hm. split; auto. intros l Hlt. apply H. lia.
Qed.

Lemma frame_alloc o h : frame (List.length h) h (h ++ [o]).
Proof.
  split; [rewrite length_app; simpl; lia|].
  intros l Hl. now apply nth_error_app1.
Qed.

Lemma frame_write m y o h : m <= y -> frame m h (write y o h).
Proof.
  intros Hy. split; [rewrite length_write; lia|].
  intros l Hl. apply nth_error_write_other. lia.
Qed.

Lemma closed_alloc n o h :
  closed_from n h ->
  Forall (fresh n (h ++ [o])) (refs_of o) ->
  closed_from n (h ++ [o]).
Proof.
  intros Hc Ho l o' Hl Hget.
  destruct (Nat.lt_ge_cases l (List.length h)) as [Hlt|Hge].
  - rewrite nth_error_app1 in Hget by exact Hlt.
    eapply Forall_fresh_mono; [eapply Hc; eauto|].
    rewrite length_app. simpl. lia.
  - rewrite nth_error_app2 in Hget by exact Hge.
    destruct (l - List.length h) as [|k]; simpl in Hget.
    + injection Hget as <-. exact Ho.
    + destruct k; discriminate.
Qed.

Lemma closed_write n y o h :
  closed_from n h ->
  Forall (fresh n h) (refs_of o) ->
  closed_from n (write y o h).
Proof.
  intros Hc Ho l o' Hl Hget.
  assert (Hlen : List.length h <= List.length (write y o h))
    by (rewrite length_write; lia).
  destruct (Nat.eq_dec y l) as [->|Hne].
  - assert (Hlt : l < List.length h).
    { rewrite <- (length_write l o h). apply nth_error_Some. congruence. }
    rewrite nth_error_write_same in Hget by exact Hlt.
    injection Hget as <-. eapply Forall_fresh_mono; eauto.
  - rewrite nth_error_write_other in Hget by exact Hne.
    eapply Forall_fresh_mono; [eapply Hc; eauto | exact Hlen].
Qed.

Lemma refs_set_fresh n h k v fields :
  Forall (fresh n h) (map snd fields) -> fresh n h v ->
  Forall (fresh n h) (map snd (Dict.set k v fields)).
Proof.
  intros Hf Hv. induction fields as [|[k0 v0] fields IH]; simpl in *.
  - constructor; auto.
  - inversion Hf; subst.
    destruct (String.eqb k k0); simpl; constructor; auto.
Qed.

Lemma refs_del_fresh n h k (fields : list (string * ref)) :
  Forall (fresh n h) (map snd fields) ->
  Forall (fresh n h) (map snd (Dict.del k fields)).
Proof.
  intros Hf. unfold Dict.del. induction fields as [|[k0 v0] fields IH];
    simpl in *; auto.
  inversion Hf; subst.
  destruct (String.eqb k k0); simpl; auto.
Qed.

(** The three writes: only the target changes, and it stays closed. *)
Lemma list_append_frame n m y a h h' :
  n <= m -> m <= y ->
  list_append y a h = Ok h' ->
  frame m h h'
  /\ List.length h' = List.length h
  /\ (closed_from n h -> fresh n h a -> closed_from n h').
Proof.
  intros Hn Hm. unfold list_append.
  destruct (nth_error h y) as [[items|fields]|] eqn:Hy; try discriminate.
  intros H. injection H as <-.
  split; [now apply frame_write|]. split; [apply length_write|].
  intros Hc Ha. apply closed_write; auto. simpl.
  apply Forall_app. split; [|auto].
  apply (Hc y (OList items)); [lia | exact Hy].
Qed.

Lemma dict_store_frame n m y k v h h' :
  n <= m -> m <= y ->
  dict_store y k v h = Ok h' ->
  frame m h h'
  /\ List.length h' = List.length h
  /\ (closed_from n h -> fresh n h v -> closed_from n h').
Proof.
  intros Hn Hm. unfold dict_store.
  destruct (nth_error h y) as [[items|fields]|] eqn:Hy; try discriminate.
  intros H. injection H as <-.
  split; [now apply frame_write|]. split; [apply length_write|].
  intros Hc Hv. apply closed_write; auto. simpl.
  apply refs_set_fresh; auto.
  apply (Hc y (ODict fields)); [lia | exact Hy].
Qed.

Lemma dict_delete_frame n m y k h h' :
  n <= m -> m <= y ->
  dict_delete y k h = Ok h' ->
  frame m h h'
  /\ List.length h' = List.length h
  /\ (closed_from n h -> closed_from n h').
Proof.
  intros Hn Hm. unfold dict_delete.
  destruct (nth_error h y) as [[items|fields]|] eqn:Hy; try discriminate.
  intros H. injection H as <-.
  split; [now apply frame_write|]. split; [apply length_write|].
  intros Hc. apply closed_write; auto. simpl.
  apply refs_del_fresh.
  apply (Hc y (ODict fields)); [lia | exact Hy].
Qed.

(** *** [copy.deepcopy] *)

Lemma memo_fresh_mono n h h' memo :
  memo_fresh n h memo -> List.length h <= List.length h' ->
  memo_fresh n h' memo.
Proof.
  intros H Hle. eapply Forall_impl; [|exact H]. simpl. intros p Hp. lia.
Qed.

Lemma memo_get_fresh n h memo l y :
  memo_fresh n h memo -> memo_get l memo = Some y -> fresh n h (RObj y).
Proof.
  induction 1 as [|[l0 y0] memo Hp _ IH]; simpl; [discriminate|].
  destruct (Nat.eqb l l0); auto.
  intros H. injection H as <-. exact Hp.
Qed.

Section CopyLoops.
Variable n : nat.
Variable copy : ref -> list (nat * nat) -> heap ->
                res (ref * list (nat * nat) * heap).
Hypothesis Hcopy : copy_spec n copy.

Lemma copy_items_frame m y items : forall memo h memo' h',
  n <= m -> m <= y -> m <= List.length h ->
  closed_from n h -> memo_fresh n h memo ->
  copy_items copy items y memo h = Ok (memo', h') ->
  frame m h h' /\ closed_from n h' /\ memo_fresh n h' memo'.
Proof.
  induction items as [|a items IH]; intros memo h memo' h' Hn Hm Hlen Hc Hmemo.
  - simpl. intros H. injection H as <- <-. auto using frame_refl.
  - cbn [copy_items].
    destruct (copy a memo h) as [[[a' memo1] h1]|] eqn:Ha; cbn [bind];
      [|discriminate].
    destruct (Hcopy a memo h _ _ _ (Nat.le_trans _ _ _ Hn Hlen) Hc Hmemo Ha)
      as (Hf1 & Hc1 & Hm1 & Ha' & _).
    destruct (list_append y a' h1) as [h2|] eqn:Happ; cbn [bind];
      [|discriminate].
    destruct (list_append_frame n m y a' h1 h2 Hn Hm Happ)
      as (Hf2 & Hl2 & Hc2).
    intros Hrest.
    destruct (IH memo1 h2 memo' h') as (Hf3 & Hc3 & Hm3); auto.
    + destruct Hf1. lia.
    + eapply memo_fresh_mono; eauto. lia.
    + split; [|auto].
      eapply frame_trans; [|exact Hf3|lia].
      eapply frame_trans; [|exact Hf2|lia].
      eapply frame_weaken; eauto.
Qed.

Lemma copy_fields_frame m y fields : forall memo h memo' h',
  n <= m -> m <= y -> m <= List.length h ->
  closed_from n h -> memo_fresh n h memo ->
  copy_fields copy fields y memo h = Ok (memo', h') ->
  frame m h h' /\ closed_from n h' /\ memo_fresh n h' memo'.
Proof.
  induction fields as [|[key v] fields IH];
    intros memo h memo' h' Hn Hm Hlen Hc Hmemo.
  - simpl. intros H. injection H as <- <-. auto using frame_refl.
  - cbn [copy_fields].
    destruct (copy v memo h) as [[[v' memo1] h1]|] eqn:Hv; cbn [bind];
      [|discriminate].
    destruct (Hcopy v memo h _ _ _ (Nat.le_trans _ _ _ Hn Hlen) Hc Hmemo Hv)
      as (Hf1 & Hc1 & Hm1 & Hv' & _).
    destruct (dict_store y key v' h1) as [h2|] eqn:Hst; cbn [bind];
      [|discriminate].
    destruct (dict_store_frame n m y key v' h1 h2 Hn Hm Hst)
      as (Hf2 & Hl2 & Hc2).
    intros Hrest.
    destruct (IH memo1 h2 memo' h') as (Hf3 & Hc3 & Hm3); auto.
    + destruct Hf1. lia.
    + eapply memo_fresh_mono; eauto. lia.
    + split; [|auto].
      eapply frame_trans; [|exact Hf3|lia].
      eapply frame_trans; [|exact Hf2|lia].
      eapply frame_weaken; eauto.
Qed.
End CopyLoops.

Lemma deepcopy_memo_spec n fuel : copy_spec n (deepcopy_memo fuel).
Proof.
  induction fuel as [|fuel IH]; intros x memo h r memo' h' Hn Hc Hmemo;
    destruct x as [| | | |l];
    try (simpl; intros H; injection H as <- <- <-;
         repeat split; auto using frame_refl; exact I).
  - discriminate.
  - cbn [deepcopy_memo].
    destruct (memo_get l memo) as [y|] eqn:Hget.
    + intros H. injection H as <- <- <-.
      split; [apply frame_refl|]. split; [exact Hc|]. split; [exact Hmemo|].
      split; [eapply memo_get_fresh; eauto|].
      intros ->. discriminate.
    + assert (Hnew : forall o, refs_of o = [] ->
                closed_from n (h ++ [o])
                /\ memo_fresh n (h ++ [o]) ((l, List.length h) :: memo)).
      { intros o Ho. split.
        - apply closed_alloc; auto. rewrite Ho. constructor.
        - constructor.
          + simpl. rewrite length_app. simpl. lia.
          + eapply memo_fresh_mono; eauto. rewrite length_app. lia. }
      destruct (nth_error h l) as [[items|fields]|]; [| |discriminate];
        cbn [alloc].
      * destruct (Hnew (OList []) eq_refl) as [Hc1 Hm1].
        destruct (copy_items _ _ _ _ _) as [[memo2 h2]|] eqn:Hitems;
          cbn [bind]; [|discriminate].
        intros H. injection H as <- <- <-.
        assert (Hle1 : List.length h <= List.length (h ++ [OList []]))
          by (rewrite length_app; lia).
        destruct (copy_items_frame n _ IH (List.length h) (List.length h)
                    items _ _ _ _ Hn (le_n _) Hle1 Hc1 Hm1 Hitems)
          as (Hf & Hc2 & Hm2).
        assert (Hlt : List.length h < List.length h2).
        { destruct Hf as [Hf _]. rewrite length_app in Hf. simpl in Hf. lia. }
        split; [eapply frame_trans; [apply frame_alloc|exact Hf|lia]|].
        split; [exact Hc2|]. split; [exact Hm2|].
        split; [simpl; lia | intros _; simpl; lia].
      * destruct (Hnew (ODict []) eq_refl) as [Hc1 Hm1].
        destruct (copy_fields _ _ _ _ _) as [[memo2 h2]|] eqn:Hfields;
          cbn [bind]; [|discriminate].
        intros H. injection H as <- <- <-.
        assert (Hle1 : List.length h <= List.length (h ++ [ODict []]))
          by (rewrite length_app; lia).
        destruct (copy_fields_frame n _ IH (List.length h) (List.length h)
                    fields _ _ _ _ Hn (le_n _) Hle1 Hc1 Hm1 Hfields)
          as (Hf & Hc2 & Hm2).
        assert (Hlt : List.length h < List.length h2).
        { destruct Hf as [Hf _]. rewrite length_app in Hf. simpl in Hf. lia. }
        split; [eapply frame_trans; [apply frame_alloc|exact Hf|lia]|].
        split; [exact Hc2|]. split; [exact Hm2|].
        split; [simpl; lia | intros _; simpl; lia].
Qed.

Lemma deepcopy_allocates n fuel x : allocates n (deepcopy fuel x).
Proof.
  intros h r h' Hn Hc. unfold deepcopy.
  destruct (deepcopy_memo fuel x [] h) as [[[y memo] h1]|] eqn:Hcopy;
    cbn [bind]; [|discriminate].
  intros H. injection H as <- <-.
  destruct (deepcopy_memo_spec n fuel x [] h y memo h1 Hn Hc
              (Forall_nil _) Hcopy) as (Hf & Hc1 & _ & _ & Hfresh).
  auto.
Qed.

(** *** [deep_merge] *)

Lemma refs_fresh_mono {K : Type} n h h' (d : list (K * ref)) :
  refs_fresh n h d -> List.length h <= List.length h' -> refs_fresh n h' d.
Proof.
  intros H Hle. unfold refs_fresh in *. eapply Forall_impl; [|exact H].
  intros kv Hkv. simpl in *. eapply fresh_mono; [exact Hkv | exact Hle].
Qed.

Lemma named_refs_set n h k v d :
  refs_fresh n h d -> fresh n h v -> refs_fresh n h (named_set k v d).
Proof.
  intros Hd Hv. unfold refs_fresh in *.
  induction Hd as [|[k0 v0] d Hv0 Hd IH]; simpl.
  - constructor; [exact Hv | constructor].
  - destruct (hkey_eqb k k0); constructor; simpl; auto.
Qed.

Lemma named_refs_get n h k v d :
  refs_fresh n h d -> named_get k d = Some v -> fresh n h v.
Proof.
  induction 1 as [|[k0 v0] d Hv _ IH]; simpl; [discriminate|].
  destruct (hkey_eqb k k0); auto. intros H. injection H as <-. exact Hv.
Qed.

Lemma allocates_fresh n f h r h' :
  allocates n f -> n <= List.length h -> closed_from n h ->
  f h = Ok (r, h') ->
  frame (List.length h) h h' /\ closed_from n h' /\ fresh n h' r
  /\ List.length h <= List.length h'.
Proof.
  intros Hf Hn Hc Hrun. destruct (Hf h r h' Hn Hc Hrun) as (Hfr & Hc' & Hr).
  repeat split; auto; try apply Hfr.
  eapply fresh_weaken; eauto.
Qed.

Section MergeLoops.
Variable n : nat.
Variable merge : ref -> ref -> heap -> res (ref * heap).
Variable copy : ref -> heap -> res (ref * heap).
Hypothesis Hmerge : forall b c, allocates n (merge b c).
Hypothesis Hcopy : forall x, allocates n (copy x).

Lemma base_items_frame m merged bl : forall named h named' h',
  n <= m -> m <= merged -> m <= List.length h ->
  closed_from n h -> refs_fresh n h named ->
  base_items copy bl merged named h = Ok (named', h') ->
  frame m h h' /\ closed_from n h' /\ refs_fresh n h' named'.
Proof.
  induction bl as [|it bl IH]; intros named h named' h' Hn Hm Hlen Hc Hnamed.
  - simpl. intros H. injection H as <- <-. auto using frame_refl.
  - cbn [base_items].
    destruct (copy it h) as [[it_copy h1]|] eqn:Hit; cbn [bind]; [|discriminate].
    destruct (allocates_fresh n _ h it_copy h1 (Hcopy it)
                (Nat.le_trans _ _ _ Hn Hlen) Hc Hit) as (Hf1 & Hc1 & Hi1 & Hl1).
    assert (Hfm : frame m h h1) by (eapply frame_weaken; eauto).
    assert (Hnamed1 : refs_fresh n h1 named)
      by (eapply refs_fresh_mono; eauto).
    destruct (item_name h1 it_copy) as [nv|].
    + destruct (ref_key nv) as [k|]; [|discriminate].
      intros Hrest.
      destruct (IH _ _ _ _ Hn Hm (Nat.le_trans _ _ _ Hlen Hl1) Hc1
                  (named_refs_set n h1 k it_copy named Hnamed1 Hi1) Hrest)
        as (Hf2 & Hc2 & Hn2).
      split; [|auto]. eapply frame_trans; eauto.
    + destruct (list_append merged it_copy h1) as [h2|] eqn:Happ; cbn [bind];
        [|discriminate].
      destruct (list_append_frame n m merged it_copy h1 h2 Hn Hm Happ)
        as (Hf2 & Hl2 & Hc2).
      intros Hrest.
      destruct (IH named h2 named' h') as (Hf3 & Hc3 & Hn3); auto.
      * lia.
      * eapply refs_fresh_mono; eauto. lia.
      * split; [|auto].
        eapply frame_trans; [|exact Hf3|lia].
        eapply frame_trans; eauto.
Qed.

Lemma child_items_frame m merged cl : forall named h named' h',
  n <= m -> m <= merged -> m <= List.length h ->
  closed_from n h -> refs_fresh n h named ->
  child_items merge copy cl merged named h = Ok (named', h') ->
  frame m h h' /\ closed_from n h' /\ refs_fresh n h' named'.
Proof.
  induction cl as [|it cl IH]; intros named h named' h' Hn Hm Hlen Hc Hnamed.
  - simpl. intros H. injection H as <- <-. auto using frame_refl.
  - cbn [child_items].
    destruct (copy it h) as [[it_copy h1]|] eqn:Hit; cbn [bind]; [|discriminate].
    destruct (allocates_fresh n _ h it_copy h1 (Hcopy it)
                (Nat.le_trans _ _ _ Hn Hlen) Hc Hit) as (Hf1 & Hc1 & Hi1 & Hl1).
    assert (Hfm : frame m h h1) by (eapply frame_weaken; eauto).
    assert (Hnamed1 : refs_fresh n h1 named)
      by (eapply refs_fresh_mono; eauto).
    destruct (item_name h1 it_copy) as [nv|].
    + destruct (ref_key nv) as [k|]; [|discriminate].
      destruct (named_get k named) as [old|] eqn:Hold.
      * destruct (merge old it_copy h1) as [[x h2]|] eqn:Hx; cbn [bind];
          [|discriminate].
        destruct (allocates_fresh n _ h1 x h2 (Hmerge old it_copy)
                    (Nat.le_trans _ _ _ (Nat.le_trans _ _ _ Hn Hlen) Hl1)
                    Hc1 Hx) as (Hf2 & Hc2 & Hx2 & Hl2).
        intros Hrest.
        destruct (IH (named_set k x named) h2 named' h') as (Hf3 & Hc3 & Hn3);
          auto.
        -- lia.
        -- apply named_refs_set; auto. eapply refs_fresh_mono; eauto.
        -- split; [|auto].
           eapply frame_trans; [|exact Hf3|lia].
           apply (frame_trans m m h h1 h2); [exact Hfm| |lia].
           eapply frame_weaken; [exact Hf2|]. lia.
      * intros Hrest.
        destruct (IH _ _ _ _ Hn Hm (Nat.le_trans _ _ _ Hlen Hl1) Hc1
                    (named_refs_set n h1 k it_copy named Hnamed1 Hi1) Hrest)
          as (Hf2 & Hc2 & Hn2).
        split; [|auto]. eapply frame_trans; eauto.
    + destruct (list_append merged it_copy h1) as [h2|] eqn:Happ; cbn [bind];
        [|discriminate].
      destruct (list_append_frame n m merged it_copy h1 h2 Hn Hm Happ)
        as (Hf2 & Hl2 & Hc2).
      intros Hrest.
      destruct (IH named h2 named' h') as (Hf3 & Hc3 & Hn3); auto.
      * lia.
      * eapply refs_fresh_mono; eauto. lia.
      * split; [|auto].
        eapply frame_trans; [|exact Hf3|lia].
        eapply frame_trans; eauto.
Qed.

Lemma append_named_frame m merged named ks : forall h h',
  n <= m -> m <= merged ->
  closed_from n h -> refs_fresh n h named ->
  append_named ks named merged h = Ok h' ->
  frame m h h' /\ closed_from n h' /\ List.length h' = List.length h.
Proof.
  induction ks as [|k ks IH]; intros h h' Hn Hm Hc Hnamed.
  - simpl. intros H. injection H as <-. auto using frame_refl.
  - cbn [append_named].
    destruct (named_get k named) as [v|] eqn:Hk; [|discriminate].
    destruct (list_append merged v h) as [h1|] eqn:Happ; cbn [bind];
      [|discriminate].
    destruct (list_append_frame n m merged v h h1 Hn Hm Happ)
      as (Hf1 & Hl1 & Hc1).
    intros Hrest.
    destruct (IH h1 h') as (Hf2 & Hc2 & Hl2); auto.
    + apply Hc1; auto. eapply named_refs_get; eauto.
    + eapply refs_fresh_mono; eauto. lia.
    + split; [|split; [auto|lia]].
      eapply frame_trans; eauto.
Qed.

Lemma merge_members_allocates bl cl :
  allocates n (merge_members merge copy bl cl).
Proof.
  intros h r h' Hn Hc. unfold merge_members. cbn [alloc].
  set (y := List.length h).
  assert (Hl1 : List.length (h ++ [OList []]) = S y)
    by (rewrite length_app; simpl; lia).
  assert (Hc1 : closed_from n (h ++ [OList []]))
    by (apply closed_alloc; auto; constructor).
  destruct (base_items copy bl y [] (h ++ [OList []])) as [[named1 h2]|] eqn:Hb;
    cbn [bind]; [|discriminate].
  assert (Hy1 : y <= List.length (h ++ [OList []])) by lia.
  destruct (base_items_frame y y bl [] (h ++ [OList []]) named1 h2
              Hn (le_n y) Hy1 Hc1 (Forall_nil _) Hb) as (Hf2 & Hc2 & Hn2).
  destruct (child_items merge copy cl y named1 h2) as [[named2 h3]|] eqn:Hch;
    cbn [bind]; [|discriminate].
  assert (Hl2 : S y <= List.length h2) by (destruct Hf2; lia).
  assert (Hy2 : y <= List.length h2) by lia.
  destruct (child_items_frame y y cl named1 h2 named2 h3
              Hn (le_n y) Hy2 Hc2 Hn2 Hch) as (Hf3 & Hc3 & Hn3).
  destruct (sorted (map fst named2)) as [ks|]; cbn [bind]; [|discriminate].
  destruct (append_named ks named2 y h3) as [h4|] eqn:Hap; cbn [bind];
    [|discriminate].
  destruct (append_named_frame y y named2 ks h3 h4 Hn (le_n y) Hc3 Hn3 Hap)
    as (Hf4 & Hc4 & Hl4).
  intros H. injection H as <- <-.
  assert (Hl3 : S y <= List.length h3) by (destruct Hf3; lia).
  split; [|split; [exact Hc4|simpl; lia]].
  eapply frame_trans; [apply frame_alloc| |apply le_n].
  eapply frame_trans; [exact Hf2| |apply le_n].
  eapply frame_trans; [exact Hf3|exact Hf4|apply le_n].
Qed.

Lemma merged_ref_allocates key bv cv :
  allocates n (merged_ref merge copy key bv cv).
Proof.
  unfold merged_ref. intros h.
  destruct bv as [bv|]; [|apply Hcopy].
  destruct (as_dict h bv) as [[? ?]|], (as_dict h cv) as [[? ?]|];
    try apply Hmerge;
    destruct (as_list h bv) as [[? bl]|], (as_list h cv) as [[? cl]|];
    try apply Hcopy;
    destruct (in_merge_list_keys key);
    try apply Hcopy; apply merge_members_allocates.
Qed.

Lemma merge_fields_frame m y child : forall h h',
  n <= m -> m <= y -> m <= List.length h ->
  closed_from n h ->
  merge_fields merge copy child y h = Ok h' ->
  frame m h h' /\ closed_from n h'.
Proof.
  induction child as [|[key cv] child IH]; intros h h' Hn Hm Hlen Hc.
  - simpl. intros H. injection H as <-. auto using frame_refl.
  - cbn [merge_fields].
    destruct (nth_error h y) as [[items|rfields]|]; try discriminate.
    destruct (merged_ref merge copy key (Dict.get key rfields) cv h)
      as [[x h1]|] eqn:Hx; cbn [bind]; [|discriminate].
    destruct (allocates_fresh n _ h x h1 (merged_ref_allocates _ _ _)
                (Nat.le_trans _ _ _ Hn Hlen) Hc Hx) as (Hf1 & Hc1 & Hx1 & Hl1).
    destruct (dict_store y key x h1) as [h2|] eqn:Hst; cbn [bind];
      [|discriminate].
    destruct (dict_store_frame n m y key x h1 h2 Hn Hm Hst)
      as (Hf2 & Hl2 & Hc2).
    intros Hrest.
    destruct (IH h2 h') as (Hf3 & Hc3); auto; [lia|].
    split; [|auto].
    eapply frame_trans; [|exact Hf3|lia].
    eapply frame_trans; [|exact Hf2|lia].
    eapply frame_weaken; eauto.
Qed.
End MergeLoops.

Lemma deep_merge_allocates n fuel : forall base child,
  allocates n (deep_merge fuel base child).
Proof.
  induction fuel as [|fuel IH]; intros base child h r h' Hn Hc;
    [discriminate|].
  cbn [deep_merge].
  destruct (as_dict h base) as [[? ?]|];
    [|apply (deepcopy_allocates n fuel child); auto].
  destruct (as_dict h child) as [[? cfields]|];
    [|apply (deepcopy_allocates n fuel child); auto].
  destruct (deepcopy fuel base h) as [[result h1]|] eqn:Hres; cbn [bind];
    [|discriminate].
  destruct (deepcopy_allocates n fuel base h result h1 Hn Hc Hres)
    as (Hf1 & Hc1 & Hr1).
  destruct result as [| | | |y]; try discriminate.
  destruct (merge_fields _ _ cfields y h1) as [h2|] eqn:Hm; cbn [bind];
    [|discriminate].
  intros H. injection H as <- <-.
  simpl in Hr1.
  destruct (merge_fields_frame n _ _ IH (deepcopy_allocates n fuel)
              (List.length h) y cfields h1 h2 Hn (proj1 Hr1)
              (proj1 Hf1) Hc1 Hm) as (Hf2 & Hc2).
  split; [|split; [exact Hc2|]].
  - eapply frame_trans; eauto.
  - simpl. destruct Hf2. lia.
Qed.

(** *** [build_merged_for_entry] *)

Lemma cache_get_fresh n h (cache : list (string * ref)) k v :
  refs_fresh n h cache -> Dict.get k cache = Some v -> fresh n h v.
Proof.
  intros Hc Hget. apply get_In in Hget.
  unfold refs_fresh in Hc. rewrite Forall_forall in Hc.
  apply (Hc (k, v) Hget).
Qed.

Lemma cache_set_fresh n h (cache : list (string * ref)) k v :
  refs_fresh n h cache -> fresh n h v -> refs_fresh n h (Dict.set k v cache).
Proof.
  intros Hc Hv. unfold refs_fresh in *.
  induction Hc as [|[k0 v0] cache Hv0 Hc IH]; simpl.
  - constructor; [exact Hv | constructor].
  - destruct (String.eqb k k0); constructor; simpl; auto.
Qed.

Lemma dedup_loop_hashable ancestors : forall seen deduped out,
  Forall (fun r => ref_key r <> None) deduped ->
  dedup_loop ancestors seen deduped = Ok out ->
  Forall (fun r => ref_key r <> None) out.
Proof.
  induction ancestors as [|a rest IH]; intros seen deduped out Hd; simpl.
  - intros H. injection H as <-. exact Hd.
  - destruct (ref_key a) as [k|] eqn:Hk; [|discriminate].
    destruct (existsb (hkey_eqb k) seen); [now apply IH|].
    apply IH. apply Forall_app. split; [exact Hd|].
    constructor; [congruence | constructor].
Qed.

Lemma hashable_fresh n h r : ref_key r <> None -> fresh n h r.
Proof. destruct r; simpl; auto. intros H. now elim H. Qed.

Section ResolverLoop.
Variable n : nat.
Variable build : entry -> list (string * entry) -> list (string * ref) -> heap ->
                 res (ref * list (string * ref) * heap).
Variable merge : ref -> ref -> heap -> res (ref * heap).
Hypothesis Hbuild : build_spec n build.
Hypothesis Hmerge : forall b c, allocates n (merge b c).

Lemma bases_loop_frame m idx names :
  forall merged ancestors cache h merged' ancestors' cache' h',
    n <= m -> m <= List.length h ->
    closed_from n h -> refs_fresh n h cache -> fresh m h merged ->
    bases_loop build merge names idx merged ancestors cache h
    = Ok (merged', ancestors', cache', h') ->
    frame m h h' /\ closed_from n h' /\ refs_fresh n h' cache'
    /\ fresh m h' merged'.
Proof.
  induction names as [|b names IH];
    intros merged ancestors cache h merged' ancestors' cache' h'
           Hn Hlen Hc Hcache Hmerged.
  - simpl. intros H. injection H as <- <- <- <-. auto using frame_refl.
  - cbn [bases_loop].
    destruct (Dict.get b idx) as [be|]; [|now apply IH].
    destruct (build be idx cache h) as [[[bm cache1] h1]|] eqn:Hb;
      cbn [bind]; [|discriminate].
    destruct (Hbuild be idx cache h bm cache1 h1
                (Nat.le_trans _ _ _ Hn Hlen) Hc Hcache Hb)
      as (Hf1 & Hc1 & Hcache1 & _).
    assert (Hl1 : List.length h <= List.length h1) by apply Hf1.
    destruct (merge bm merged h1) as [[merged1 h2]|] eqn:Hm; cbn [bind];
      [|discriminate].
    destruct (Hmerge bm merged h1 merged1 h2
                (Nat.le_trans _ _ _ (Nat.le_trans _ _ _ Hn Hlen) Hl1) Hc1 Hm)
      as (Hf2 & Hc2 & Hm2).
    assert (Hl2 : List.length h1 <= List.length h2) by apply Hf2.
    intros Hrest.
    destruct (IH merged1 (ancestors ++ RStr b :: base_ancestors h2 bm)
                cache1 h2 merged' ancestors' cache' h')
      as (Hf3 & Hc3 & Hcache3 & Hm3); auto.
    + lia.
    + eapply refs_fresh_mono; eauto.
    + eapply fresh_weaken; [exact Hm2|]. lia.
    + split; [|auto].
      apply (frame_trans m m h h2 h'); [|exact Hf3|lia].
      apply (frame_trans m m h h1 h2); [| |lia].
      * eapply frame_weaken; [exact Hf1|]. lia.
      * eapply frame_weaken; [exact Hf2|]. lia.
Qed.
End ResolverLoop.

Lemma build_merged_for_entry_spec n fuel :
  build_spec n (build_merged_for_entry fuel).
Proof.
  induction fuel as [|fuel IH];
    intros e idx cache h v cache' h' Hn Hc Hcache; [discriminate|].
  cbn [build_merged_for_entry].
  destruct (Dict.get (entry_name e) cache) as [w|] eqn:Hhit.
  { intros H. injection H as <- <- <-.
    split; [apply frame_refl|]. split; [exact Hc|]. split; [exact Hcache|].
    eapply cache_get_fresh; eauto. }
  destruct (as_dict h (entry_data e)) as [[l0 fields]|]; [|discriminate].
  set (m := List.length h).
  match goal with
  | |- context [match fields with [] => ?a | _ :: _ => ?b end] =>
      destruct (match fields with [] => a | _ :: _ => b end)
        as [data h0] eqn:Hdata
  end.
  assert (Hdata' : frame m h h0 /\ closed_from n h0).
  { destruct fields; cbn [alloc] in Hdata; injection Hdata as <- <-.
    - split; [apply frame_alloc|].
      apply closed_alloc; [exact Hc | constructor].
    - split; [apply frame_refl | exact Hc]. }
  destruct Hdata' as [Hf0 Hc0].
  assert (Hl0 : m <= List.length h0) by apply Hf0.
  destruct (deepcopy fuel data h0) as [[merged h1]|] eqn:Hcopy; cbn [bind];
    [|discriminate].
  destruct (deepcopy_allocates n fuel data h0 merged h1
              (Nat.le_trans _ _ _ Hn Hl0) Hc0 Hcopy) as (Hf1 & Hc1 & Hm1).
  assert (Hl1 : List.length h0 <= List.length h1) by apply Hf1.
  destruct (bases_loop _ _ _ idx merged [] cache h1)
    as [[[[merged2 ancestors] cache2] h2]|] eqn:Hloop; cbn [bind];
    [|discriminate].
  destruct (bases_loop_frame n _ _ IH (deep_merge_allocates n fuel) m idx
              (get_base_names h1 fields)
              merged [] cache h1 merged2 ancestors cache2 h2)
    as (Hf2 & Hc2 & Hcache2 & Hm2); auto; try lia.
  { eapply refs_fresh_mono; eauto. lia. }
  { eapply fresh_weaken; [exact Hm1|]. lia. }
  assert (Hl2 : List.length h1 <= List.length h2) by apply Hf2.
  destruct (dedup_loop ancestors [] []) as [deduped|] eqn:Hded; cbn [bind];
    [|discriminate].
  cbn [alloc].
  set (d := List.length h2). set (h3 := h2 ++ [OList deduped]).
  assert (Hl3 : List.length h3 = S d)
    by (unfold h3; rewrite length_app; simpl; lia).
  assert (Hc3 : closed_from n h3).
  { apply closed_alloc; auto. simpl.
    eapply Forall_impl; [|eapply dedup_loop_hashable; [|exact Hded]];
      [|constructor].
    intros r Hr. now apply hashable_fresh. }
  destruct merged2 as [| | | |mm]; try discriminate.
  simpl in Hm2.
  destruct (dict_store mm "_ancestors" (RObj d) h3) as [h4|] eqn:Hst;
    cbn [bind]; [|discriminate].
  destruct (dict_store_frame n m mm "_ancestors" (RObj d) h3 h4 Hn
              (proj1 Hm2) Hst) as (Hf4 & Hl4 & Hc4).
  assert (Hc4' : closed_from n h4)
    by (apply Hc4; auto; simpl; unfold d; lia).
  assert (Hfm4 : frame m h h4).
  { apply (frame_trans m m h h3 h4); [|exact Hf4|lia].
    apply (frame_trans m m h h2 h3); [| |lia].
    - apply (frame_trans m m h h1 h2); [|exact Hf2|lia].
      apply (frame_trans m m h h0 h1); [exact Hf0| |lia].
      eapply frame_weaken; [exact Hf1|]. lia.
    - eapply frame_weaken; [apply frame_alloc|]. lia. }
  assert (Hfinal : forall h5,
             frame m h4 h5 -> closed_from n h5 ->
             List.length h4 <= List.length h5 ->
             frame (List.length h) h h5
             /\ closed_from n h5
             /\ refs_fresh n h5 (Dict.set (entry_name e) (RObj mm) cache2)
             /\ fresh n h5 (RObj mm)).
  { intros h5 Hf5 Hc5 Hl5.
    assert (Hmm : fresh n h5 (RObj mm)) by (simpl; lia).
    split; [apply (frame_trans m m h h4 h5); auto|].
    split; [exact Hc5|]. split; [|exact Hmm].
    apply cache_set_fresh; auto.
    eapply refs_fresh_mono; eauto. lia. }
  destruct (Dict.get "descendants" fields) as [dv|].
  - destruct (deepcopy fuel dv h4) as [[c h5]|] eqn:Hdv; cbn [bind];
      [|discriminate].
    assert (Hn4 : n <= List.length h4) by lia.
    destruct (allocates_fresh n _ h4 c h5 (deepcopy_allocates n fuel dv)
                Hn4 Hc4' Hdv) as (Hf5 & Hc5 & Hc5' & Hl5).
    destruct (dict_store mm "descendants" c h5) as [h6|] eqn:Hst2;
      cbn [bind]; [|discriminate].
    destruct (dict_store_frame n m mm "descendants" c h5 h6 Hn
                (proj1 Hm2) Hst2) as (Hf6 & Hl6 & Hc6).
    intros H. injection H as <- <- <-.
    apply (Hfinal h6); auto; try lia.
    apply (frame_trans m m h4 h5 h6); [|exact Hf6|lia].
    eapply frame_weaken; [exact Hf5|]. lia.
  - destruct (dict_delete mm "descendants" h4) as [h5|] eqn:Hdel;
      cbn [bind]; [|discriminate].
    destruct (dict_delete_frame n m mm "descendants" h4 h5 Hn
                (proj1 Hm2) Hdel) as (Hf5 & Hl5 & Hc5).
    intros H. injection H as <- <- <-.
    apply (Hfinal h5); auto; lia.
Qed.

(** *** Reading values off the store *)

Section ReifyFolds.
Variables f g : ref -> option value.
Hypothesis Hfg : forall r v, f r = Some v -> g r = Some v.

Lemma fold_items_frame items : forall vs,
  fold_right (fun a acc =>
                match f a, acc with
                | Some v, Some vs => Some (v :: vs)
                | _, _ => None
                end) (Some []) items = Some vs ->
  fold_right (fun a acc =>
                match g a, acc with
                | Some v, Some vs => Some (v :: vs)
                | _, _ => None
                end) (Some []) items = Some vs.
Proof.
  induction items as [|a items IH]; intros vs; simpl; auto.
  destruct (f a) as [va|] eqn:Ha; [|discriminate].
  rewrite (Hfg _ _ Ha).
  destruct (fold_right _ _ items) as [vs'|]; [|discriminate].
  now rewrite (IH vs' eq_refl).
Qed.

Lemma fold_fields_frame (fields : list (string * ref)) : forall vs,
  fold_right (fun kv acc =>
                match f (snd kv), acc with
                | Some v, Some vs => Some ((fst kv, v) :: vs)
                | _, _ => None
                end) (Some []) fields = Some vs ->
  fold_right (fun kv acc =>
                match g (snd kv), acc with
                | Some v, Some vs => Some ((fst kv, v) :: vs)
                | _, _ => None
                end) (Some []) fields = Some vs.
Proof.
  induction fields as [|kv fields IH]; intros vs; simpl; auto.
  destruct (f (snd kv)) as [va|] eqn:Ha; [|discriminate].
  rewrite (Hfg _ _ Ha).
  destruct (fold_right _ _ fields) as [vs'|]; [|discriminate].
  now rewrite (IH vs' eq_refl).
Qed.
End ReifyFolds.

Section ReifyFrame.
Variables h h' : heap.
Hypothesis Hold : forall l, l < List.length h -> nth_error h' l = nth_error h l.

Lemma reify_frame fuel : forall r v,
  reify fuel h r = Some v -> reify fuel h' r = Some v.
Proof.
  induction fuel as [|fuel IH]; intros r v; destruct r as [| | | |l];
    simpl; auto.
  destruct (nth_error h l) as [o|] eqn:Hl; [|discriminate].
  rewrite Hold by (apply nth_error_Some; congruence). rewrite Hl.
  destruct o as [items|fields].
  - destruct (fold_right _ _ items) as [vs|] eqn:Hvs; [|discriminate].
    now rewrite (fold_items_frame _ _ IH items vs Hvs).
  - destruct (fold_right _ _ fields) as [vs|] eqn:Hvs; [|discriminate].
    now rewrite (fold_fields_frame _ _ IH fields vs Hvs).
Qed.
End ReifyFrame.

Lemma closed_from_length h : closed_from (List.length h) h.
Proof.
  intros l o Hl Hget. exfalso.
  assert (l < List.length h) by (apply nth_error_Some; congruence). lia.
Qed.

(** *** Resolution is read-only *)

(** C10: [deep_merge] and [build_merged_for_entry] write to no object that
    existed when they were called, so every value readable off the store
    before the call, the record bodies and both arguments of the merge among
    them, reads the same after it; what [deep_merge] returns was allocated by
    the call and reaches only objects allocated by the call; and in a run
    whose views live at or after a location [n] (the records having been
    loaded before), the view returned by a resolution and every view in the
    cache reach only objects allocated at or after [n]: they share no mutable
    structure with the records. *)
Theorem resolution_is_read_only :
  (forall fuel base child h r h',
      deep_merge fuel base child h = Ok (r, h') ->
      (forall l, l < List.length h -> nth_error h' l = nth_error h l)
      /\ (forall k x v, reify k h x = Some v -> reify k h' x = Some v)
      /\ fresh (List.length h) h' r
      /\ closed_from (List.length h) h')
  /\ (forall n fuel e idx cache h v cache' h',
        n <= List.length h -> closed_from n h -> refs_fresh n h cache ->
        build_merged_for_entry fuel e idx cache h = Ok (v, cache', h') ->
        (forall l, l < List.length h -> nth_error h' l = nth_error h l)
        /\ (forall k x w, reify k h x = Some w -> reify k h' x = Some w)
        /\ closed_from n h'
        /\ refs_fresh n h' cache'
        /\ fresh n h' v).
Proof.
  split.
  - intros fuel base child h r h' Hrun.
    destruct (deep_merge_allocates (List.length h) fuel base child h r h'
                (le_n _) (closed_from_length h) Hrun) as ([_ Hf] & Hc & Hr).
    split; [exact Hf|]. split; [|auto].
    intros k x v. now apply reify_frame.
  - intros n fuel e idx cache h v cache' h' Hn Hc Hcache Hrun.
    destruct (build_merged_for_entry_spec n fuel e idx cache h v cache' h'
                Hn Hc Hcache Hrun) as ([_ Hf] & Hc' & Hcache' & Hv).
    split; [exact Hf|]. split; [|auto].
    intros k x w. now apply reify_frame.
Qed.

Lemma resolution_is_read_only_witness :
  exists v cache' h',
    build_merged_for_entry 6 ex_leaf ex_index [] ex_heap = Ok (v, cache', h')
    /\ (forall l, l < 8 -> nth_error h' l = nth_error ex_heap l)
    /\ fresh 8 h' v
    /\ closed_from 8 h'.
Proof.
  destruct (build_merged_for_entry 6 ex_leaf ex_index [] ex_heap)
    as [[[v cache'] h']|] eqn:Hrun; [|vm_compute in Hrun; discriminate Hrun].
  exists v, cache', h'. split; [reflexivity|].
  destruct (proj2 resolution_is_read_only 8 6 ex_leaf ex_index [] ex_heap
              v cache' h' (le_n 8) (closed_from_length ex_heap)
              (Forall_nil _) Hrun) as (Hf & _ & Hc & _ & Hv).
  auto.
Defined.

(** The two embeddings agree on the records of the example store: the
    bodies read off the store are the value-level bodies, and reading the view
    of Leaf off the store gives the view the value-level resolver computes. *)
Example store_view_agrees_with_values :
  reify 3 ex_heap (RObj 0) = Some (VMap ex_base_body)
  /\ reify 3 ex_heap (RObj 2) = Some (VMap ex_leaf_body)
  /\ exists v cache' h' view st',
      build_merged_for_entry 6 ex_leaf ex_index [] ex_heap = Ok (v, cache', h')
      /\ reify 4 h' v = Some (VMap view)
      /\ resolve_example = Ok (view, st').
Proof.
  split; [reflexivity|]. split; [reflexivity|].
  vm_compute. repeat eexists.
Qed.

End StoreFacts.

(** * Further properties of the merge *)

Section DictOrder.
Context {V : Type}.
Implicit Types (d : list (string * V)).

Lemma set_absent k (v : V) d :
  Dict.get k d = None -> Dict.set k v d = d ++ [(k, v)].
Proof.
  induction d as [|[k0 v0] d IH]; simpl; [reflexivity|].
  destruct (String.eqb k k0); [discriminate|].
  intros H. now rewrite IH.
Qed.

Lemma keys_set_present k (v : V) d :
  Dict.get k d <> None -> Dict.keys (Dict.set k v d) = Dict.keys d.
Proof.
  induction d as [|[k0 v0] d IH]; simpl; [congruence|].
  destruct (String.eqb k k0); simpl; [reflexivity|].
  intros H. now rewrite IH.
Qed.

Lemma has_set k k' (v : V) d :
  Dict.has k' (Dict.set k v d) = String.eqb k' k || Dict.has k' d.
Proof.
  unfold Dict.has.
  destruct (String.eqb_spec k' k) as [->|Hne]; simpl.
  - now rewrite get_set_same.
  - now rewrite get_set_other.
Qed.
End DictOrder.

Section MergeOrder.
Variable merge : value -> value -> res value.

Lemma merge_fields_keys child : forall result r,
  wf_dict child ->
  merge_fields merge child result = Ok r ->
  Dict.keys r = Dict.keys result ++ new_keys result child.
Proof.
  unfold new_keys.
  induction child as [|[key cv] rest IH]; intros result r Hwf.
  - simpl. intros H. injection H as <-. now rewrite app_nil_r.
  - rewrite merge_fields_cons.
    destruct (merged_value _ _ _ _) as [x|]; simpl; [|discriminate].
    inversion Hwf as [|? ? Hnotin Hwf']; subst.
    intros H. rewrite (IH _ _ Hwf' H).
    assert (Hfilter :
      filter (fun k => negb (Dict.has k (Dict.set key x result)))
             (Dict.keys rest)
      = filter (fun k => negb (Dict.has k result)) (Dict.keys rest)).
    { apply filter_ext_in. intros k Hk. rewrite has_set.
      destruct (String.eqb_spec k key) as [->|Hne]; [contradiction|reflexivity]. }
    rewrite Hfilter. unfold Dict.has at 2.
    destruct (Dict.get key result) as [bv|] eqn:Hb; simpl.
    + rewrite keys_set_present by congruence. reflexivity.
    + rewrite set_absent by exact Hb. unfold Dict.keys at 1.
      rewrite map_app. simpl. now rewrite <- app_assoc.
Qed.

Lemma merge_fields_fresh_total child : forall result,
  wf_dict child ->
  (forall k, In k (Dict.keys child) -> Dict.get k result = None) ->
  merge_fields merge child result = Ok (result ++ child).
Proof.
  induction child as [|[key cv] rest IH]; intros result Hwf Hnew.
  - simpl. now rewrite app_nil_r.
  - simpl. rewrite (Hnew key) by (now left).
    inversion Hwf as [|? ? Hnotin Hwf']; subst.
    rewrite IH.
    + rewrite set_absent by (apply Hnew; now left).
      now rewrite <- app_assoc.
    + exact Hwf'.
    + intros k Hk. rewrite get_set_other.
      * apply Hnew. now right.
      * intros ->. contradiction.
Qed.

Lemma merged_value_replaced key bv cv :
  (forall b, bv = Some b -> merged_in_depth key b cv = false) ->
  merged_value merge key bv cv = Ok cv.
Proof.
  unfold merged_value, merged_in_depth. destruct bv as [b|]; [|reflexivity].
  intros H. specialize (H b eq_refl).
  destruct b; try reflexivity; destruct cv; try reflexivity;
    simpl in H; try discriminate H.
  now rewrite H.
Qed.
End MergeOrder.

(** X1: the merged dict lists the keys of the base first, in the base's
    order, then the keys only the child has, in the child's order. *)
Theorem deep_merge_key_order b c r :
  wf_dict c ->
  deep_merge (VMap b) (VMap c) = Ok (VMap r) ->
  Dict.keys r = Dict.keys b ++ new_keys b c.
Proof.
  intros Hwf H. apply deep_merge_maps_fields in H.
  now apply (merge_fields_keys _ _ Hwf H).
Qed.

Lemma deep_merge_key_order_witness :
  Dict.keys [("a", VInt 1); ("tags", VList [VStr "x"]); ("z", VInt 0)]
  = ["a"; "tags"] ++ ["z"].
Proof.
  apply (@deep_merge_key_order
           [("a", VInt 1); ("tags", VList [VStr "y"])]
           [("z", VInt 0); ("tags", VList [VStr "x"])]
           [("a", VInt 1); ("tags", VList [VStr "x"]); ("z", VInt 0)]).
  - unfold wf_dict. simpl. repeat constructor; simpl; intuition discriminate.
  - reflexivity.
Defined.

(** X2: a value of the child replaces the base's value of the same key
    whenever the two are not both maps and not both lists under a
    member-group key: a scalar, a list under any other key ([tags] among
    them: the base's tags are dropped, not concatenated), a value of another
    type than the base's, or a key the base does not have. *)
Theorem deep_merge_child_replaces b c r k cv :
  wf_dict c ->
  deep_merge (VMap b) (VMap c) = Ok (VMap r) ->
  Dict.get k c = Some cv ->
  (forall bv, Dict.get k b = Some bv -> merged_in_depth k bv cv = false) ->
  Dict.get k r = Some cv.
Proof.
  intros Hwf H Hk Hrep. apply deep_merge_maps_fields in H.
  destruct (merge_fields_child_key _ _ _ Hwf H Hk) as (x & Hx & Hr).
  rewrite merged_value_replaced in Hx by exact Hrep.
  injection Hx as <-. exact Hr.
Qed.

Lemma deep_merge_child_replaces_witness :
  Dict.get "tags" [("a", VInt 1); ("tags", VList [VStr "x"]); ("z", VInt 0)]
  = Some (VList [VStr "x"]).
Proof.
  apply (@deep_merge_child_replaces
           [("a", VInt 1); ("tags", VList [VStr "y"])]
           [("z", VInt 0); ("tags", VList [VStr "x"])]).
  - unfold wf_dict. simpl. repeat constructor; simpl; intuition discriminate.
  - reflexivity.
  - reflexivity.
  - intros bv H. injection H as <-. reflexivity.
Defined.

(** X3: a key that only the base has keeps the base's value. *)
Theorem deep_merge_base_only_kept b c r k :
  deep_merge (VMap b) (VMap c) = Ok (VMap r) ->
  Dict.get k c = None ->
  Dict.get k r = Dict.get k b.
Proof.
  intros H Hk. apply deep_merge_maps_fields in H.
  exact (merge_fields_base_only _ _ _ k H Hk).
Qed.

Lemma deep_merge_base_only_kept_witness :
  Dict.get "a" [("a", VInt 1); ("tags", VList [VStr "x"])]
  = Dict.get "a" [("a", VInt 1); ("tags", VList [VStr "y"])].
Proof.
  apply (@deep_merge_base_only_kept
           [("a", VInt 1); ("tags", VList [VStr "y"])]
           [("tags", VList [VStr "x"])]).
  - reflexivity.
  - reflexivity.
Defined.

(** X4: when the base and the child both hold a map under a key, the merged
    dict holds under that key the merge of the two maps. *)
Theorem deep_merge_nested_maps b c r k bm cm :
  wf_dict c ->
  deep_merge (VMap b) (VMap c) = Ok (VMap r) ->
  Dict.get k b = Some (VMap bm) ->
  Dict.get k c = Some (VMap cm) ->
  exists m, deep_merge (VMap bm) (VMap cm) = Ok (VMap m)
            /\ Dict.get k r = Some (VMap m).
Proof.
  intros Hwf H Hb Hc. apply deep_merge_maps_fields in H.
  destruct (merge_fields_child_key _ _ _ Hwf H Hc) as (x & Hx & Hr).
  rewrite Hb in Hx. unfold merged_value in Hx.
  destruct (deep_merge_maps _ _ Hx) as [m ->].
  exists m. auto.
Qed.

Lemma deep_merge_nested_maps_witness :
  exists m,
    deep_merge (VMap [("x", VInt 1); ("y", VInt 2)]) (VMap [("y", VInt 3)])
    = Ok (VMap m)
    /\ Dict.get "s" [("s", VMap [("x", VInt 1); ("y", VInt 3)])]
       = Some (VMap m).
Proof.
  apply (@deep_merge_nested_maps
           [("s", VMap [("x", VInt 1); ("y", VInt 2)])]
           [("s", VMap [("y", VInt 3)])]
           [("s", VMap [("x", VInt 1); ("y", VInt 3)])] "s").
  - unfold wf_dict. simpl. repeat constructor; simpl; intuition discriminate.
  - reflexivity.
  - reflexivity.
  - reflexivity.
Defined.

(** X5: the empty dict is neutral for the merge: merging a dict over the
    empty base, or the empty child over a dict, returns that dict. *)
Theorem deep_merge_empty_neutral d :
  wf_dict d ->
  deep_merge (VMap []) (VMap d) = Ok (VMap d)
  /\ deep_merge (VMap d) (VMap []) = Ok (VMap d).
Proof.
  intros Hwf. split; [|reflexivity].
  simpl. rewrite merge_fields_fresh_total; auto.
Qed.

Lemma deep_merge_empty_neutral_witness :
  deep_merge (VMap []) (VMap [("name", VStr "A"); ("tags", VList [])])
  = Ok (VMap [("name", VStr "A"); ("tags", VList [])])
  /\ deep_merge (VMap [("name", VStr "A"); ("tags", VList [])]) (VMap [])
     = Ok (VMap [("name", VStr "A"); ("tags", VList [])]).
Proof.
  apply deep_merge_empty_neutral.
  unfold wf_dict. simpl. repeat constructor; simpl; intuition discriminate.
Defined.

(** ** The lookups by name never miss *)

Lemma no_key_error_bind {A B : Type} (m : res A) (k : A -> res B) :
  no_key_error m -> (forall a, m = Ok a -> no_key_error (k a)) ->
  no_key_error (bind m k).
Proof.
  unfold no_key_error. destruct m as [a|e]; simpl; intros Hm Hk.
  - now apply Hk.
  - intros E. apply Hm. congruence.
Qed.

Lemma base_items_no_key_error bl : forall merged named,
  no_key_error (base_items bl merged named).
Proof.
  induction bl as [|it bl IH]; intros merged named; simpl; [discriminate|].
  destruct (item_name it) as [nv|]; [|apply IH].
  destruct (hash_key nv); [apply IH | discriminate].
Qed.

Lemma sorted_no_key_error ks : no_key_error (sorted ks).
Proof.
  unfold sorted. destruct ks as [|k [|k' ks]]; try discriminate.
  destruct (_ || _); discriminate.
Qed.

(** [named_items[n]] never misses for [n] among the sorted keys. *)
Lemma values_of_sorted_keys named ks :
  sorted (Named.keys named) = Ok ks ->
  exists vs, Named.values ks named = Ok vs.
Proof.
  intros H. apply sorted_spec in H. destruct H as [Hperm _].
  apply values_total. intros k Hk.
  apply Permutation_sym in Hperm.
  pose proof (Permutation_in _ Hperm Hk) as Hin.
  intros Hnone. apply named_get_None in Hnone. contradiction.
Qed.

Section MergeNoKeyError.
Variable merge : value -> value -> res value.

Lemma child_items_no_key_error cl :
  Forall (merge_no_key_error_at merge) cl ->
  forall merged named, no_key_error (child_items merge cl merged named).
Proof.
  induction 1 as [|it cl Hit Hcl IH]; intros merged named; simpl;
    [discriminate|].
  destruct (item_name it) as [nv|]; [|apply IH].
  destruct (hash_key nv) as [n|]; [|discriminate].
  destruct (Named.get n named) as [old|]; [|apply IH].
  apply no_key_error_bind; [apply Hit | intros; apply IH].
Qed.

Lemma merge_members_no_key_error bl cl :
  Forall (merge_no_key_error_at merge) cl ->
  no_key_error (merge_members merge bl cl).
Proof.
  intros Hcl. unfold merge_members.
  apply no_key_error_bind; [apply base_items_no_key_error|].
  intros [merged named] _.
  apply no_key_error_bind; [now apply child_items_no_key_error|].
  intros [merged' named'] _.
  apply no_key_error_bind; [apply sorted_no_key_error|]. intros ks Hks.
  destruct (values_of_sorted_keys _ Hks) as [vs ->]. simpl. discriminate.
Qed.

Lemma merge_fields_no_key_error child :
  Forall (fun kv => merge_no_key_error_at merge (snd kv)
                    /\ forall cl, snd kv = VList cl ->
                                  Forall (merge_no_key_error_at merge) cl) child ->
  forall result, no_key_error (merge_fields merge child result).
Proof.
  induction 1 as [|[key child_val] child [Hv Hl] Hchild IH]; intros result;
    simpl in *; [discriminate|].
  destruct (Dict.get key result) as [base_val|]; [|apply IH].
  destruct base_val; try apply IH;
    destruct child_val; try apply IH.
  - destruct (in_merge_list_keys key); [|apply IH].
    apply no_key_error_bind; [|intros; apply IH].
    apply merge_members_no_key_error. now apply Hl.
  - apply no_key_error_bind; [apply Hv | intros; apply IH].
Qed.
End MergeNoKeyError.

(** X6: the lookups [named_items[n]] over the sorted names never miss: the
    merge never raises [KeyError], whatever the two values are. *)
Theorem deep_merge_never_KeyError child :
  forall base, deep_merge base child <> Raise KeyError.
Proof.
  induction child as [| | | |l IH|m IH] using value_ind_members;
    intros base; try (destruct base; discriminate).
  destruct base; try discriminate. simpl.
  apply no_key_error_bind; [|discriminate].
  apply merge_fields_no_key_error. exact IH.
Qed.

(** * Further properties of the resolver *)

Lemma build_cache_stable idx : forall fuel e st v st',
  build_merged_for_entry fuel e idx st = Ok (v, st') ->
  forall y w, Dict.get y (cache st) = Some w -> Dict.get y (cache st') = Some w.
Proof.
  induction fuel as [|fuel IH]; intros e st v st'; [discriminate|].
  destruct (Dict.get (entry_name e) (cache st)) as [w0|] eqn:Hc.
  - rewrite (build_hit _ _ _ _ Hc). intros H. injection H as _ <-. auto.
  - rewrite (build_miss _ _ _ _ Hc).
    destruct (bases_loop _ _ _ _ _ _ _) as [[[merged ancestors] st1]|] eqn:Hloop;
      simpl; [|discriminate].
    assert (Hinv : forall y w, Dict.get y (cache st) = Some w ->
                               Dict.get y (cache st1) = Some w).
    { refine (@bases_loop_invariant _ _ _
                (fun _ _ s => forall y w, Dict.get y (cache st) = Some w ->
                                          Dict.get y (cache s) = Some w)
                _ _ _ _ _ _ _ _ (fun y w H => H) Hloop).
      intros m a s b be bm s1 m' Hs _ _ Hbuild _ y w Hy. simpl.
      eapply IH; eauto. }
    destruct (dedup_loop ancestors [] []) as [deduped|]; simpl; [|discriminate].
    intros H. injection H as _ <-. intros y w Hy. unfold cache_view. simpl.
    rewrite get_set_other; [now apply Hinv|].
    intros ->. congruence.
Qed.

Lemma build_trace_grows idx : forall fuel e st v st',
  build_merged_for_entry fuel e idx st = Ok (v, st') ->
  exists tr, trace st' = trace st ++ tr.
Proof.
  induction fuel as [|fuel IH]; intros e st v st'; [discriminate|].
  destruct (Dict.get (entry_name e) (cache st)) as [w0|] eqn:Hc.
  - rewrite (build_hit _ _ _ _ Hc). intros H. injection H as _ <-.
    exists []. now rewrite app_nil_r.
  - rewrite (build_miss _ _ _ _ Hc).
    destruct (bases_loop _ _ _ _ _ _ _) as [[[merged ancestors] st1]|] eqn:Hloop;
      simpl; [|discriminate].
    assert (Hinv : exists tr, trace st1 = trace st ++ tr).
    { refine (@bases_loop_invariant _ _ _
                (fun _ _ s => exists tr, trace s = trace st ++ tr)
                _ _ _ _ _ _ _ _ _ Hloop).
      - intros m a s b be bm s1 m' [tr Hs] _ _ Hbuild _. simpl.
        destruct (IH _ _ _ _ Hbuild) as [tr1 H1].
        exists (tr ++ tr1 ++ [Merged b (entry_name e)]).
        rewrite H1, Hs. now rewrite <- !app_assoc.
      - exists []. now rewrite app_nil_r. }
    destruct Hinv as [tr Htr].
    destruct (dedup_loop ancestors [] []) as [deduped|]; simpl; [|discriminate].
    intros H. injection H as _ <-. unfold cache_view. simpl.
    exists (tr ++ [Computed (entry_name e)]). rewrite Htr.
    now rewrite <- app_assoc.
Qed.

(** X7: a resolution never changes or removes a view that was already in
    the cache, and never rewrites the part of the instrumentation trace that
    was already there: the cache and the trace only grow. *)
Theorem resolution_keeps_cached_views fuel e idx st v st' :
  build_merged_for_entry fuel e idx st = Ok (v, st') ->
  (forall y w, Dict.get y (cache st) = Some w ->
               Dict.get y (cache st') = Some w)
  /\ exists tr, trace st' = trace st ++ tr.
Proof.
  intros H. split.
  - exact (build_cache_stable _ _ _ _ H).
  - exact (build_trace_grows _ _ _ _ H).
Qed.

Lemma resolution_keeps_cached_views_witness :
  exists v st',
    build_merged_for_entry 3 leaf_entry small_index
      (mkState [("Other", [("name", VStr "Other")])] []) = Ok (v, st')
    /\ Dict.get "Other" (cache st') = Some [("name", VStr "Other")].
Proof.
  destruct (build_merged_for_entry 3 leaf_entry small_index
              (mkState [("Other", [("name", VStr "Other")])] []))
    as [[v st']|] eqn:Hrun; [|vm_compute in Hrun; discriminate Hrun].
  exists v, st'. split; [reflexivity|].
  apply (proj1 (resolution_keeps_cached_views _ _ _ _ Hrun)).
  reflexivity.
Defined.

(** X8: the cache is keyed by the record name alone: once a record has been
    resolved, any record of the same name, whatever its body and whatever the
    index, gets that cached view, and the state is left as it is. *)
Theorem cache_keyed_by_name_only fuel e idx st v st' e2 :
  build_merged_for_entry fuel e idx st = Ok (v, st') ->
  entry_name e2 = entry_name e ->
  forall fuel' idx', build_merged_for_entry (S fuel') e2 idx' st' = Ok (v, st').
Proof.
  intros H Hname fuel' idx'. apply build_hit. rewrite Hname.
  eapply build_result_cached. exact H.
Qed.

Lemma cache_keyed_by_name_only_witness :
  exists v st',
    build_merged_for_entry 1 ghost_leaf [] empty_state = Ok (v, st')
    /\ build_merged_for_entry 1
         (mkEntry "Leaf" VNull "enums/Leaf.yaml" [("summary", VStr "another")])
         small_index st' = Ok (v, st').
Proof.
  eexists. eexists. split; [reflexivity|].
  apply (@cache_keyed_by_name_only 1 ghost_leaf [] empty_state).
  - reflexivity.
  - reflexivity.
Defined.

(** ** The ancestor chain *)

Lemma hash_key_str a s : hash_key a = Some (KStr s) -> a = VStr s.
Proof.
  destruct a as [|b|z|s'|l|m]; simpl; try discriminate.
  intros H. now injection H as ->.
Qed.

Lemma existsb_hkey k seen : existsb (hkey_eqb k) seen = true <-> In k seen.
Proof.
  rewrite existsb_exists. split.
  - intros (x & Hx & E). apply hkey_eqb_eq in E. now subst.
  - intros H. exists k. split; [exact H | apply hkey_eqb_refl].
Qed.

Lemma dedup_loop_spec ancestors : forall seen deduped out,
  (forall k, In k seen <-> In (Some k) (map hash_key deduped)) ->
  NoDup (map hash_key deduped) ->
  dedup_loop ancestors seen deduped = Ok out ->
  NoDup (map hash_key out)
  /\ (forall a, In a deduped -> In a out)
  /\ (forall a, In a ancestors ->
                exists a', In a' out /\ hash_key a' = hash_key a)
  /\ (forall a, In a out -> In a deduped \/ In a ancestors)
  /\ (forall a, In a ancestors -> hash_key a <> None).
Proof.
  induction ancestors as [|a rest IH]; intros seen deduped out Hseen Hnd.
  - simpl. intros H. injection H as <-.
    repeat split; auto; intros a [].
  - simpl. destruct (hash_key a) as [k|] eqn:Hk; [|discriminate].
    destruct (existsb (hkey_eqb k) seen) eqn:Hex.
    + intros H. destruct (IH _ _ _ Hseen Hnd H) as (H1 & H2 & H3 & H4 & H5).
      split; [exact H1|]. split; [exact H2|]. split; [|split].
      * intros x [<-|Hx]; [|auto].
        apply existsb_hkey, Hseen, in_map_iff in Hex.
        destruct Hex as (a0 & Ha0 & Hin). exists a0. split; [auto|congruence].
      * intros x Hx. destruct (H4 x Hx) as [Hd|Hr]; [now left | right; now right].
      * intros x [<-|Hx]; [congruence | auto].
    + intros H.
      assert (Hnot : ~ In k seen).
      { intros Hin. apply existsb_hkey in Hin. congruence. }
      destruct (IH (k :: seen) (deduped ++ [a]) out) as (H1 & H2 & H3 & H4 & H5).
      * intros k'. rewrite map_app, in_app_iff. simpl. rewrite Hk.
        rewrite <- Hseen. split.
        -- intros [<-|Hin]; auto.
        -- intros [Hin|[E|[]]]; [auto | left; congruence].
      * rewrite map_app. simpl. rewrite Hk.
        apply NoDup_app; auto.
        -- constructor; [intros []|constructor].
        -- intros x Hx [<-|[]]. apply Hnot. now apply Hseen.
      * exact H.
      * split; [exact H1|]. split; [|split; [|split]].
        -- intros x Hx. apply H2. apply in_or_app. now left.
        -- intros x [<-|Hx]; [|auto].
           exists a. split; [|reflexivity].
           apply H2. apply in_or_app. right. now left.
        -- intros x Hx. destruct (H4 x Hx) as [Hd|Hr]; [|right; now right].
           apply in_app_or in Hd.
           destruct Hd as [Hd|[<-|[]]]; [now left | right; now left].
        -- intros x [<-|Hx]; [congruence | auto].
Qed.

Lemma bases_loop_ancestors (build : entry -> list (string * entry) -> state ->
                                    res (dict * state))
    leaf idx names : forall merged ancestors st merged' ancestors' st',
  bases_loop build leaf names idx merged ancestors st
  = Ok (merged', ancestors', st') ->
  (forall a, In a ancestors -> In a ancestors')
  /\ (forall b be, In b names -> Dict.get b idx = Some be ->
                   In (VStr b) ancestors').
Proof.
  induction names as [|b names IH]; intros merged ancestors st m' a' s'.
  - simpl. intros H. injection H as _ <- _. split; [auto|]. intros b be [].
  - simpl. destruct (Dict.get b idx) as [be|] eqn:Hb.
    + destruct (build be idx st) as [[base_merged st1]|]; simpl; [|discriminate].
      destruct (merge_fields deep_merge merged base_merged) as [r|]; simpl;
        [|discriminate].
      intros H. destruct (IH _ _ _ _ _ _ H) as [Hkeep Hnames].
      split.
      * intros a Ha. apply Hkeep. apply in_or_app. now left.
      * intros b' be' [<-|Hin] Hb'; [|eauto].
        apply Hkeep. apply in_or_app. right. now left.
    + intros H. destruct (IH _ _ _ _ _ _ H) as [Hkeep Hnames].
      split; [exact Hkeep|].
      intros b' be' [<-|Hin] Hb'; [congruence | eauto].
Qed.

(** X9: the view computed for a record always carries [_ancestors], whatever
    the bodies hold under that key: a list without duplicates, of hashable
    values, that contains the name of every declared base that has a record
    in the index. *)
Theorem view_ancestors_deduplicated fuel e idx st v st' :
  Dict.get (entry_name e) (cache st) = None ->
  build_merged_for_entry fuel e idx st = Ok (v, st') ->
  exists deduped,
    Dict.get "_ancestors" v = Some (VList deduped)
    /\ NoDup deduped
    /\ (forall a, In a deduped -> hash_key a <> None)
    /\ (forall b be, In b (get_base_names (entry_data e)) ->
                     Dict.get b idx = Some be -> In (VStr b) deduped).
Proof.
  intros Hc. destruct fuel as [|fuel]; [discriminate|].
  rewrite (build_miss _ _ _ _ Hc).
  destruct (bases_loop _ _ _ _ _ _ _) as [[[merged ancestors] st1]|] eqn:Hloop;
    simpl; [|discriminate].
  destruct (bases_loop_ancestors _ _ _ _ _ _ _ Hloop) as [_ Hnames].
  destruct (dedup_loop ancestors [] []) as [deduped|] eqn:Hd; simpl;
    [|discriminate].
  intros H. injection H as <- _. exists deduped.
  destruct (@dedup_loop_spec ancestors [] [] deduped) as (H1 & _ & H3 & H4 & H5).
  { intros k. simpl. tauto. }
  { constructor. }
  { exact Hd. }
  split; [|split; [|split]].
  - rewrite own_only_get_other by discriminate. apply get_set_same.
  - eapply NoDup_map_inv. exact H1.
  - intros a Ha. destruct (H4 a Ha) as [[]|Hin]. now apply H5.
  - intros b be Hin Hb.
    destruct (H3 _ (Hnames b be Hin Hb)) as (a' & Ha' & Hk).
    simpl in Hk. apply hash_key_str in Hk. now subst.
Qed.

Lemma view_ancestors_deduplicated_witness :
  exists v st' deduped,
    build_merged_for_entry 3 dia_d diamond_index empty_state = Ok (v, st')
    /\ Dict.get "_ancestors" v = Some (VList deduped)
    /\ NoDup deduped
    /\ In (VStr "B") deduped /\ In (VStr "C") deduped.
Proof.
  destruct (build_merged_for_entry 3 dia_d diamond_index empty_state)
    as [[v st']|] eqn:Hrun; [|vm_compute in Hrun; discriminate Hrun].
  destruct (@view_ancestors_deduplicated 3 dia_d diamond_index empty_state
              v st' eq_refl Hrun) as (deduped & Hget & Hnd & _ & Hin).
  exists v, st', deduped. split; [reflexivity|].
  split; [exact Hget|]. split; [exact Hnd|]. split.
  - apply (Hin "B" dia_b); [simpl; auto | reflexivity].
  - apply (Hin "C" dia_c); [simpl; auto | reflexivity].
Defined.

(** X10: a computed view holds under [descendants] exactly what the record's
    own body holds there: the body's value, or no such key when the body has
    none, whatever the bases' views hold. *)
Theorem descendants_own_only fuel e idx st v st' :
  Dict.get (entry_name e) (cache st) = None ->
  build_merged_for_entry fuel e idx st = Ok (v, st') ->
  Dict.get "descendants" v = Dict.get "descendants" (entry_data e).
Proof.
  intros Hc. destruct fuel as [|fuel]; [discriminate|].
  rewrite (build_miss _ _ _ _ Hc).
  destruct (bases_loop _ _ _ _ _ _ _) as [[[merged ancestors] st1]|];
    simpl; [|discriminate].
  destruct (dedup_loop ancestors [] []) as [deduped|]; simpl; [|discriminate].
  intros H. injection H as <- _. apply own_only_get_same.
Qed.

Lemma descendants_own_only_witness :
  exists v st',
    build_merged_for_entry 2
      (mkEntry "Leaf" VNull "classes/Leaf.yaml" [("inherits", VStr "Base")])
      [("Base", mkEntry "Base" VNull "classes/Base.yaml"
                  [("descendants", VList [VStr "Leaf"])])]
      empty_state = Ok (v, st')
    /\ Dict.get "descendants" v = None.
Proof.
  eexists. eexists. split; [reflexivity|].
  eapply (@descendants_own_only 2
           (mkEntry "Leaf" VNull "classes/Leaf.yaml" [("inherits", VStr "Base")])
           [("Base", mkEntry "Base" VNull "classes/Base.yaml"
                       [("descendants", VList [VStr "Leaf"])])]
           empty_state).
  - reflexivity.
  - reflexivity.
Defined.

(** ** The first definition of the resolver *)

(** X11: the first definition of [build_merged_for_entry], the one the module
    rebinds, does force the leaf's own fields on a computed view: [inherits]
    and [descendants] are the body's or absent, [name] is the body's name or
    else the indexed name, the body's [tags] replace the merged ones, and a
    truthy [deprecation_message] of the body is kept. *)
Theorem shadowed_definition_forces_leaf_fields fuel e idx st v st' :
  Dict.get (entry_name e) (cache st) = None ->
  build_merged_for_entry_shadowed fuel e idx st = Ok (v, st') ->
  Dict.get "inherits" v = Dict.get "inherits" (entry_data e)
  /\ Dict.get "descendants" v = Dict.get "descendants" (entry_data e)
  /\ Dict.get "name" v = Some (leaf_name e)
  /\ (forall t, Dict.get "tags" (entry_data e) = Some t ->
                Dict.get "tags" v = Some t)
  /\ (forall m, Dict.get "deprecation_message" (entry_data e) = Some m ->
                truthy m = true ->
                Dict.get "deprecation_message" v = Some m).
Proof.
  intros Hc. destruct fuel as [|fuel]; [discriminate|].
  cbn [build_merged_for_entry_shadowed]. rewrite Hc.
  destruct (bases_loop _ _ _ _ _ _ _) as [[[merged ancestors] st1]|];
    cbn [bind]; [|discriminate].
  destruct (dedup_loop ancestors [] []) as [deduped|]; cbn [bind];
    [|discriminate].
  intros H. injection H as <- _.
  set (m1 := Dict.set "_ancestors" (VList deduped) merged).
  fold (leaf_name e).
  set (m2 := Dict.set "name" (leaf_name e) m1).
  set (m3 := own_only "inherits" (entry_data e) m2).
  set (m4 := own_only "descendants" (entry_data e) m3).
  set (m5 := match Dict.get "tags" (entry_data e) with
             | Some t => Dict.set "tags" t m4
             | None => m4
             end).
  assert (H5 : forall k, k <> "tags" -> Dict.get k m5 = Dict.get k m4).
  { intros k Hk. unfold m5. destruct (Dict.get "tags" (entry_data e));
      [now apply get_set_other | reflexivity]. }
  assert (H6 : forall k, k <> "deprecation_message" ->
     Dict.get k
       match Dict.get "deprecation_message" (entry_data e) with
       | Some m => if truthy m then Dict.set "deprecation_message" m m5 else m5
       | None => m5
       end = Dict.get k m5).
  { intros k Hk. destruct (Dict.get "deprecation_message" (entry_data e)) as [m|];
      [|reflexivity].
    destruct (truthy m); [now apply get_set_other | reflexivity]. }
  split; [|split; [|split; [|split]]].
  - rewrite H6, H5 by discriminate. unfold m4.
    rewrite own_only_get_other by discriminate. apply own_only_get_same.
  - rewrite H6, H5 by discriminate. apply own_only_get_same.
  - rewrite H6, H5 by discriminate. unfold m4, m3.
    rewrite !own_only_get_other by discriminate. apply get_set_same.
  - intros t Ht. rewrite H6 by discriminate. unfold m5. rewrite Ht.
    apply get_set_same.
  - intros m Hm Ht. rewrite Hm, Ht. apply get_set_same.
Qed.

Lemma shadowed_definition_forces_leaf_fields_witness :
  exists v st',
    build_merged_for_entry_shadowed 3 unnamed_entry small_index empty_state
    = Ok (v, st')
    /\ Dict.get "name" v = Some (VStr "Anon")
    /\ Dict.get "inherits" v = Some (VStr "Base").
Proof.
  destruct (build_merged_for_entry_shadowed 3 unnamed_entry small_index
              empty_state) as [[v st']|] eqn:Hrun;
    [|vm_compute in Hrun; discriminate Hrun].
  destruct (@shadowed_definition_forces_leaf_fields 3 unnamed_entry small_index
              empty_state v st' eq_refl Hrun) as (Hi & _ & Hn & _).
  exists v, st'. split; [reflexivity|]. split; [exact Hn | exact Hi].
Defined.

(** * Further properties of the walker *)

Lemma under_app bc bc' r : under bc (under bc' r) = under (bc ++ bc') r.
Proof. unfold under. simpl. now rewrite app_assoc. Qed.

Lemma under_nil r : under [] r = r.
Proof. now destruct r. Qed.

(** X12: the breadcrumbs given to the walker are only ever a prefix: walking
    a node under given breadcrumbs yields what walking it under none yields,
    with the given breadcrumbs put in front of every trail. *)
Theorem iter_reference_objects_under node :
  forall breadcrumbs,
    iter_reference_objects node breadcrumbs
    = map (under breadcrumbs) (iter_reference_objects node []).
Proof.
  induction node as [| | | |items IH|fields IH] using value_ind;
    intros breadcrumbs; try reflexivity.
  - rewrite !iter_list_unfold.
    induction IH as [|item items Hitem _ IHitems]; simpl; [reflexivity|].
    rewrite map_app, <- IHitems, <- Hitem. reflexivity.
  - assert (Hch : forall t,
              children_references fields (breadcrumbs ++ t)
              = map (under breadcrumbs) (children_references fields t)).
    { intros t. unfold children_references.
      induction IH as [|[k v] rest Hv _ IHrest]; simpl; [reflexivity|].
      rewrite map_app, <- IHrest. f_equal. simpl in Hv.
      rewrite (Hv (breadcrumbs ++ t)), (Hv t), map_map.
      apply map_ext. intros r. now rewrite under_app. }
    assert (Hown : forall t,
              own_reference fields (breadcrumbs ++ t)
              = map (under breadcrumbs) (own_reference fields t)).
    { intros t. unfold own_reference.
      destruct (Dict.get "path" fields) as [[| | |p| |]|]; reflexivity. }
    rewrite !iter_map_unfold, map_app, !extend_breadcrumbs_trail.
    rewrite Hown, Hch. reflexivity.
Qed.

(** ** What a view inherits *)

Section MergeHas.
Variable merge : value -> value -> res value.

Lemma merge_fields_has child : forall result r k,
  merge_fields merge child result = Ok r ->
  Dict.get k child <> None \/ Dict.get k result <> None ->
  Dict.get k r <> None.
Proof.
  induction child as [|[key cv] rest IH]; intros result r k.
  - simpl. intros H [Hk|Hk]; [congruence|]. now injection H as <-.
  - rewrite merge_fields_cons.
    destruct (merged_value _ _ _ _) as [x|]; simpl; [|discriminate].
    intros H Hk. apply (IH _ _ _ H).
    destruct (String.eqb_spec k key) as [->|Hne].
    + right. rewrite get_set_same. discriminate.
    + rewrite get_set_other by exact Hne. exact Hk.
Qed.
End MergeHas.

Lemma bases_loop_cache_stable idx leaf names fuel :
  forall merged ancestors st merged' ancestors' st',
    bases_loop (build_merged_for_entry fuel) leaf names idx merged ancestors st
    = Ok (merged', ancestors', st') ->
    forall y w, Dict.get y (cache st) = Some w ->
                Dict.get y (cache st') = Some w.
Proof.
  intros merged ancestors st merged' ancestors' st' Hloop.
  refine (@bases_loop_invariant _ _ _
            (fun _ _ s => forall y w, Dict.get y (cache st) = Some w ->
                                      Dict.get y (cache s) = Some w)
            _ _ _ _ _ _ _ _ (fun y w H => H) Hloop).
  intros m a s b be bm s1 m' Hs _ _ Hbuild _ y w Hy. simpl.
  eapply build_cache_stable; eauto.
Qed.

Lemma bases_loop_views idx leaf fuel names :
  forall merged ancestors st merged' ancestors' st',
    bases_loop (build_merged_for_entry fuel) leaf names idx merged ancestors st
    = Ok (merged', ancestors', st') ->
    forall b be, In b names -> Dict.get b idx = Some be ->
      exists base_merged,
        Dict.get (entry_name be) (cache st') = Some base_merged
        /\ incl (base_ancestors base_merged) ancestors'.
Proof.
  induction names as [|b names IH]; intros merged ancestors st m' a' s'.
  - intros _ b be [].
  - simpl. destruct (Dict.get b idx) as [be|] eqn:Hb.
    + destruct (build_merged_for_entry fuel be idx st)
        as [[base_merged st1]|] eqn:Hbuild; simpl; [|discriminate].
      destruct (merge_fields deep_merge merged base_merged) as [r|]; simpl;
        [|discriminate].
      intros H b' be' [<-|Hin] Hb'; [|eapply IH; eauto].
      rewrite Hb in Hb'. injection Hb' as <-.
      exists base_merged. split.
      * eapply bases_loop_cache_stable; [exact H|]. simpl.
        eapply build_result_cached; eauto.
      * destruct (bases_loop_ancestors _ _ _ _ _ _ _ H) as [Hkeep _].
        intros a Ha. apply Hkeep. apply in_or_app. right. now right.
    + intros H b' be' [<-|Hin] Hb'; [congruence | eapply IH; eauto].
Qed.

(** X13: the ancestor chain is transitive: for a declared base whose
    record has another name than the leaf, every name in the [_ancestors] of
    the base's view (the view the cache holds for that base when the
    resolution returns) is in the [_ancestors] of the leaf's view. *)
Theorem view_ancestors_transitive fuel e idx st v st' b be :
  Dict.get (entry_name e) (cache st) = None ->
  build_merged_for_entry fuel e idx st = Ok (v, st') ->
  In b (get_base_names (entry_data e)) ->
  Dict.get b idx = Some be ->
  entry_name be <> entry_name e ->
  exists base_merged deduped,
    Dict.get (entry_name be) (cache st') = Some base_merged
    /\ Dict.get "_ancestors" v = Some (VList deduped)
    /\ forall s, In (VStr s) (base_ancestors base_merged) ->
                 In (VStr s) deduped.
Proof.
  intros Hc Hrun Hin Hb Hname. destruct fuel as [|fuel]; [discriminate|].
  rewrite (build_miss _ _ _ _ Hc) in Hrun.
  destruct (bases_loop _ _ _ _ _ _ _) as [[[merged ancestors] st1]|] eqn:Hloop;
    simpl in Hrun; [|discriminate].
  destruct (bases_loop_views _ _ _ _ _ _ _ Hloop b Hin Hb)
    as (base_merged & Hcached & Hincl).
  destruct (dedup_loop ancestors [] []) as [deduped|] eqn:Hd; simpl in Hrun;
    [|discriminate].
  injection Hrun as <- <-. exists base_merged, deduped.
  destruct (@dedup_loop_spec ancestors [] [] deduped) as (_ & _ & H3 & _).
  { intros k. simpl. tauto. }
  { constructor. }
  { exact Hd. }
  split; [|split].
  - unfold cache_view. simpl. rewrite get_set_other by exact Hname.
    exact Hcached.
  - rewrite own_only_get_other by discriminate. apply get_set_same.
  - intros s Hs. destruct (H3 _ (Hincl _ Hs)) as (a' & Ha' & Hk).
    simpl in Hk. apply hash_key_str in Hk. now subst.
Qed.

Lemma view_ancestors_transitive_witness :
  exists v st' deduped,
    build_merged_for_entry 3 leaf_entry small_index empty_state = Ok (v, st')
    /\ Dict.get "_ancestors" v = Some (VList deduped)
    /\ In (VStr "Root") deduped.
Proof.
  destruct (build_merged_for_entry 3 leaf_entry small_index empty_state)
    as [[v st']|] eqn:Hrun; [|vm_compute in Hrun; discriminate Hrun].
  destruct (@view_ancestors_transitive 3 leaf_entry small_index empty_state
              v st' "Base" base_entry eq_refl Hrun)
    as (base_merged & deduped & Hcached & Hget & Hall).
  - simpl. auto.
  - reflexivity.
  - discriminate.
  - exists v, st', deduped. split; [reflexivity|]. split; [exact Hget|].
    apply Hall. vm_compute in Hrun. injection Hrun as _ <-.
    vm_compute in Hcached. injection Hcached as <-. simpl. auto.
Defined.

(** X14: no field of the record's own body is lost: every key of the body
    is a key of the computed view. *)
Theorem view_keeps_leaf_fields fuel e idx st v st' k :
  Dict.get (entry_name e) (cache st) = None ->
  build_merged_for_entry fuel e idx st = Ok (v, st') ->
  Dict.get k (entry_data e) <> None ->
  Dict.get k v <> None.
Proof.
  intros Hc Hrun Hk. destruct fuel as [|fuel]; [discriminate|].
  rewrite (build_miss _ _ _ _ Hc) in Hrun.
  destruct (bases_loop _ _ _ _ _ _ _) as [[[merged ancestors] st1]|] eqn:Hloop;
    simpl in Hrun; [|discriminate].
  assert (Hm : Dict.get k merged <> None).
  { refine (@bases_loop_invariant _ _ _
              (fun m _ _ => Dict.get k m <> None)
              _ _ _ _ _ _ _ _ Hk Hloop).
    intros m a s b be bm s1 m' Hm _ _ _ Hmerge.
    eapply merge_fields_has; eauto. }
  destruct (dedup_loop ancestors [] []) as [deduped|]; simpl in Hrun;
    [|discriminate].
  injection Hrun as <- _.
  destruct (String.eqb_spec k "descendants") as [->|Hd].
  - now rewrite own_only_get_same.
  - rewrite own_only_get_other by exact Hd.
    destruct (String.eqb_spec k "_ancestors") as [->|Ha].
    + rewrite get_set_same. discriminate.
    + now rewrite get_set_other.
Qed.

Lemma view_keeps_leaf_fields_witness :
  exists v st',
    build_merged_for_entry 3 leaf_entry small_index empty_state = Ok (v, st')
    /\ Dict.get "extends" v <> None.
Proof.
  destruct (build_merged_for_entry 3 leaf_entry small_index empty_state)
    as [[v st']|] eqn:Hrun; [|vm_compute in Hrun; discriminate Hrun].
  exists v, st'. split; [reflexivity|].
  apply (@view_keeps_leaf_fields 3 leaf_entry small_index empty_state v st'
           "extends" eq_refl Hrun).
  discriminate.
Defined.

(** * Paths *)

(** ** Strings *)

Lemma append_nil_r s : (s ++ "")%string = s.
Proof. induction s as [|c s IH]; simpl; congruence. Qed.

Lemma append_assoc s t u : ((s ++ t) ++ u)%string = (s ++ (t ++ u))%string.
Proof. induction s as [|c s IH]; simpl; congruence. Qed.

Lemma length_append s t :
  String.length (s ++ t) = String.length s + String.length t.
Proof. induction s as [|c s IH]; simpl; congruence. Qed.

Lemma str_drop_append s t : str_drop (String.length s) (s ++ t) = t.
Proof. induction s as [|c s IH]; simpl; auto. Qed.

Lemma str_take_append s t : str_take (String.length s) (s ++ t) = s.
Proof. induction s as [|c s IH]; simpl; congruence. Qed.

Lemma startswith_append s t : startswith s (s ++ t) = true.
Proof.
  unfold startswith. induction s as [|c s IH]; simpl.
  - now destruct t.
  - destruct (Ascii.ascii_dec c c); [exact IH | congruence].
Qed.

Lemma endswith_append s t : endswith t (s ++ t) = true.
Proof.
  unfold endswith. rewrite length_append.
  replace (String.length s + String.length t - String.length t)
    with (String.length s) by lia.
  rewrite str_drop_append, String.eqb_refl.
  apply andb_true_iff. split; [apply Nat.leb_le; lia | reflexivity].
Qed.

Lemma drop_last_append s t : drop_last (String.length t) (s ++ t) = s.
Proof.
  unfold drop_last. rewrite length_append.
  replace (String.length s + String.length t - String.length t)
    with (String.length s) by lia.
  apply str_take_append.
Qed.

Lemma lower_append s t : lower (s ++ t) = (lower s ++ lower t)%string.
Proof. induction s as [|c s IH]; simpl; congruence. Qed.

Lemma length_lower s : String.length (lower s) = String.length s.
Proof. induction s as [|c s IH]; simpl; congruence. Qed.

(** ** Components *)

Lemma join_cons c c' rest :
  join_slash (c :: c' :: rest) = (c ++ "/" ++ join_slash (c' :: rest))%string.
Proof. reflexivity. Qed.

Lemma split_slash_cons_slash s cur :
  split_slash (String slash s) cur = cur :: split_slash s "".
Proof. reflexivity. Qed.

Lemma split_slash_no_slash c : forall s cur,
  no_slash c = true ->
  split_slash (c ++ s) cur = split_slash s (cur ++ c).
Proof.
  induction c as [|ch c IH]; intros s cur; simpl.
  - intros _. now rewrite append_nil_r.
  - intros H. apply andb_true_iff in H. destruct H as [Hch Hc].
    apply negb_true_iff in Hch. rewrite Hch.
    rewrite IH by exact Hc. now rewrite append_assoc.
Qed.

(** Splitting what was joined gives the components back. *)
Lemma split_join c rest :
  forallb no_slash (c :: rest) = true ->
  split_slash (join_slash (c :: rest)) "" = c :: rest.
Proof.
  revert c. induction rest as [|c' rest IH]; intros c H.
  - simpl in H. apply andb_true_iff in H. destruct H as [Hc _].
    change (join_slash [c]) with c.
    rewrite <- (append_nil_r c) at 1.
    now rewrite split_slash_no_slash.
  - change (forallb no_slash (c :: c' :: rest))
      with (no_slash c && forallb no_slash (c' :: rest)) in H.
    apply andb_true_iff in H. destruct H as [Hc Hrest].
    rewrite join_cons, split_slash_no_slash by exact Hc.
    change ("/" ++ join_slash (c' :: rest))%string
      with (String slash (join_slash (c' :: rest))).
    rewrite split_slash_cons_slash. simpl append. now rewrite IH.
Qed.

Lemma no_slash_append s t :
  no_slash (s ++ t) = no_slash s && no_slash t.
Proof.
  induction s as [|c s IH]; simpl; [reflexivity|].
  now rewrite IH, andb_assoc.
Qed.

(** The components of a split hold no slash. *)
Lemma split_slash_parts s : forall cur,
  no_slash cur = true -> forallb no_slash (split_slash s cur) = true.
Proof.
  induction s as [|ch s IH]; intros cur Hcur; simpl.
  - now rewrite Hcur.
  - destruct (Ascii.eqb ch slash) eqn:E; simpl.
    + rewrite Hcur. now apply IH.
    + apply IH. rewrite no_slash_append, Hcur. simpl. now rewrite E.
Qed.

Lemma kept_parts_ok p :
  forallb part_ok
    (filter (fun c => negb (String.eqb c "" || String.eqb c "."))
            (split_slash p "")) = true.
Proof.
  pose proof (split_slash_parts p "" eq_refl) as H.
  induction (split_slash p "") as [|c l IH]; simpl; [reflexivity|].
  simpl in H. apply andb_true_iff in H. destruct H as [Hc Hl].
  destruct (negb (String.eqb c "" || String.eqb c ".")) eqn:E; simpl.
  - unfold part_ok. rewrite Hc, E. simpl. now apply IH.
  - now apply IH.
Qed.

(** ** Stripping the leading dots and slashes *)

Lemma lstrip_clean_head s : clean_head s = true -> lstrip_dot_slash s = s.
Proof.
  destruct s as [|c s]; simpl; [discriminate|].
  intros H. apply negb_true_iff in H. now rewrite H.
Qed.

Lemma lstrip_component c : forall t,
  no_slash c = true ->
  lstrip_dot_slash (c ++ t)
  = if String.eqb (strip_dots c) "" then lstrip_dot_slash t
    else (strip_dots c ++ t)%string.
Proof.
  induction c as [|ch c IH]; intros t; simpl; [reflexivity|].
  intros H. apply andb_true_iff in H. destruct H as [Hch Hc].
  apply negb_true_iff in Hch. rewrite Hch, orb_false_r.
  destruct (Ascii.eqb ch dot); [now apply IH | reflexivity].
Qed.

Lemma strip_dots_ok c :
  no_slash c = true -> strip_dots c <> "" ->
  part_ok (strip_dots c) = true /\ clean_head (strip_dots c) = true.
Proof.
  induction c as [|ch c IH]; simpl; [congruence|].
  intros H. pose proof H as H'.
  apply andb_true_iff in H. destruct H as [Hch Hc].
  destruct (Ascii.eqb ch dot) eqn:E; [now apply IH|].
  intros _. apply negb_true_iff in Hch. split.
  - unfold part_ok. cbn [no_slash]. rewrite Hch, Hc.
    cbn [String.eqb]. unfold dot in E. now rewrite E.
  - cbn [clean_head]. now rewrite E, Hch.
Qed.

Lemma part_ok_no_slash c : part_ok c = true -> no_slash c = true.
Proof. unfold part_ok. intros H. now apply andb_true_iff in H. Qed.

Lemma lstrip_join parts :
  forallb part_ok parts = true ->
  normal_path (lstrip_dot_slash (join_slash parts)).
Proof.
  induction parts as [|c rest IH]; [intros _; now left|].
  intros H. simpl in H. apply andb_true_iff in H. destruct H as [Hc Hrest].
  pose proof (part_ok_no_slash _ Hc) as Hns.
  destruct rest as [|c' rest].
  - change (join_slash [c]) with c. rewrite <- (append_nil_r c).
    rewrite lstrip_component by exact Hns.
    destruct (String.eqb_spec (strip_dots c) "") as [E|E]; [now left|].
    right. exists (strip_dots c), [].
    destruct (strip_dots_ok c Hns E) as [Hok Hhead].
    split; [now rewrite append_nil_r|]. split; [|exact Hhead].
    simpl. now rewrite Hok.
  - rewrite join_cons, lstrip_component by exact Hns.
    destruct (String.eqb_spec (strip_dots c) "") as [E|E].
    + change (lstrip_dot_slash ("/" ++ join_slash (c' :: rest)))
        with (lstrip_dot_slash (join_slash (c' :: rest))).
      now apply IH.
    + right. exists (strip_dots c), (c' :: rest).
      destruct (strip_dots_ok c Hns E) as [Hok Hhead].
      split; [reflexivity|]. split; [|exact Hhead].
      change (forallb part_ok (strip_dots c :: c' :: rest))
        with (part_ok (strip_dots c) && forallb part_ok (c' :: rest)).
      now rewrite Hok, Hrest.
Qed.

Lemma lstrip_root p s :
  lstrip_dot_slash
    (match leading_slashes p with O => "" | 2 => "//" | _ => "/" end ++ s)
  = lstrip_dot_slash s.
Proof.
  destruct (leading_slashes p) as [|[|[|n]]]; reflexivity.
Qed.

(** What [normalize_rel_path] returns is a normalised relative path. *)
Lemma normalize_normal p : normal_path (normalize_rel_path p).
Proof.
  unfold normalize_rel_path, as_posix.
  set (parts := filter _ (split_slash p "")).
  destruct (String.eqb _ "") eqn:E.
  - now left.
  - rewrite lstrip_root. apply lstrip_join. apply kept_parts_ok.
Qed.

Lemma join_head c rest :
  exists t, join_slash (c :: rest) = (c ++ t)%string.
Proof.
  destruct rest as [|c' rest].
  - exists "". change (join_slash [c]) with c. now rewrite append_nil_r.
  - exists ("/" ++ join_slash (c' :: rest))%string. apply join_cons.
Qed.

Lemma clean_head_append c t : clean_head c = true -> clean_head (c ++ t) = true.
Proof. destruct c; simpl; [discriminate | auto]. Qed.

Lemma clean_head_leading s : clean_head s = true -> leading_slashes s = 0.
Proof.
  destruct s as [|c s]; simpl; [discriminate|].
  intros H. apply negb_true_iff, orb_false_iff in H. destruct H as [_ H].
  now rewrite H.
Qed.

Lemma filter_parts_ok parts :
  forallb part_ok parts = true ->
  filter (fun c => negb (String.eqb c "" || String.eqb c ".")) parts = parts.
Proof.
  induction parts as [|c parts IH]; simpl; [reflexivity|].
  intros H. apply andb_true_iff in H. destruct H as [Hc Hparts].
  unfold part_ok in Hc. apply andb_true_iff in Hc. destruct Hc as [_ Hc].
  rewrite Hc. now rewrite IH.
Qed.

Lemma forallb_part_ok_no_slash parts :
  forallb part_ok parts = true -> forallb no_slash parts = true.
Proof.
  induction parts as [|c parts IH]; simpl; [reflexivity|].
  intros H. apply andb_true_iff in H. destruct H as [Hc Hparts].
  now rewrite (part_ok_no_slash _ Hc), IH.
Qed.

(** A normalised relative path is left as it is. *)
Lemma normal_fixed q : normal_path q -> normalize_rel_path q = q.
Proof.
  intros [->|(c & rest & -> & Hok & Hhead)]; [reflexivity|].
  destruct (join_head c rest) as [t Ht].
  assert (Hq : clean_head (join_slash (c :: rest)) = true).
  { rewrite Ht. now apply clean_head_append. }
  unfold normalize_rel_path, as_posix.
  rewrite (clean_head_leading _ Hq).
  rewrite split_join by (now apply forallb_part_ok_no_slash).
  rewrite filter_parts_ok by exact Hok.
  change ("" ++ join_slash (c :: rest))%string with (join_slash (c :: rest)).
  destruct (String.eqb_spec (join_slash (c :: rest)) "") as [E|E].
  - rewrite E in Hq. discriminate Hq.
  - now apply lstrip_clean_head.
Qed.

(** X15: normalising a path twice is normalising it once. *)
Theorem normalize_rel_path_idempotent p :
  normalize_rel_path (normalize_rel_path p) = normalize_rel_path p.
Proof. apply normal_fixed, normalize_normal. Qed.

(** X16: a normalised path is empty, or it starts with a character other
    than [.] and [/] and none of its components between slashes is empty or
    [.]: it has no leading, doubled or trailing slash. *)
Theorem normalize_rel_path_clean p :
  normalize_rel_path p <> "" ->
  clean_head (normalize_rel_path p) = true
  /\ Forall (fun c => c <> "" /\ c <> ".")
            (split_slash (normalize_rel_path p) "").
Proof.
  intros Hne. destruct (normalize_normal p) as [E|(c & rest & E & Hok & Hhead)];
    [contradiction|].
  rewrite E. split.
  - destruct (join_head c rest) as [t ->]. now apply clean_head_append.
  - rewrite split_join by (now apply forallb_part_ok_no_slash).
    apply Forall_forall. intros x Hx.
    rewrite forallb_forall in Hok. specialize (Hok x Hx).
    unfold part_ok in Hok. apply andb_true_iff in Hok. destruct Hok as [_ Hok].
    apply negb_true_iff, orb_false_iff in Hok. destruct Hok as [H1 H2].
    split; intros ->; discriminate.
Qed.

Lemma normalize_rel_path_clean_witness :
  clean_head (normalize_rel_path "./a//b/./c/") = true
  /\ Forall (fun c => c <> "" /\ c <> ".")
            (split_slash (normalize_rel_path "./a//b/./c/") "").
Proof.
  apply normalize_rel_path_clean. vm_compute. discriminate.
Defined.

(** ** Prefixes of navigation paths *)

Lemma normal_parts k :
  normalize_rel_path k = k -> k <> "" ->
  exists c rest,
    k = join_slash (c :: rest)
    /\ forallb part_ok (c :: rest) = true
    /\ clean_head c = true.
Proof.
  intros Hfix Hne. destruct (normalize_normal k) as [E|H].
  - rewrite Hfix in E. contradiction.
  - now rewrite Hfix in H.
Qed.

Lemma normal_clean_head k :
  normalize_rel_path k = k -> k <> "" -> clean_head k = true.
Proof.
  intros Hfix Hne. destruct (normal_parts Hfix Hne) as (c & rest & -> & _ & Hc).
  destruct (join_head c rest) as [t ->]. now apply clean_head_append.
Qed.

Lemma join_app a A k K :
  join_slash ((a :: A) ++ k :: K)
  = (join_slash (a :: A) ++ "/" ++ join_slash (k :: K))%string.
Proof.
  revert a. induction A as [|a' A IH]; intros a.
  - reflexivity.
  - change ((a :: a' :: A) ++ k :: K) with (a :: ((a' :: A) ++ k :: K)).
    change ((a' :: A) ++ k :: K) with (a' :: (A ++ k :: K)).
    rewrite join_cons.
    change (a' :: (A ++ k :: K)) with ((a' :: A) ++ k :: K).
    rewrite IH, join_cons. now rewrite !append_assoc.
Qed.

(** A normalised path below normalised directories is normalised. *)
Lemma normal_below a A k :
  forallb part_ok (a :: A) = true -> clean_head a = true ->
  normalize_rel_path k = k -> k <> "" ->
  normalize_rel_path (join_slash (a :: A) ++ "/" ++ k)
  = (join_slash (a :: A) ++ "/" ++ k)%string.
Proof.
  intros HA Ha Hfix Hne.
  destruct (normal_parts Hfix Hne) as (c & rest & -> & HK & _).
  rewrite <- join_app. apply normal_fixed. right.
  exists a, (A ++ c :: rest). split; [reflexivity|]. split; [|exact Ha].
  change (a :: A ++ c :: rest) with ((a :: A) ++ c :: rest).
  rewrite forallb_app. now rewrite HA, HK.
Qed.

Lemma startswith_slash_clean t q :
  clean_head q = true -> startswith (String slash t) q = false.
Proof.
  destruct q as [|ch q]; [reflexivity|]. unfold startswith.
  cbn [String.prefix clean_head].
  intros H. apply negb_true_iff, orb_false_iff in H. destruct H as [_ H].
  destruct (ascii_dec slash ch) as [<-|Hne]; [|reflexivity].
  discriminate H.
Qed.

(** X17: the three prefixes of [resolve_doc_rel_path] that begin with a
    slash never match: the path is normalised first, so it does not start
    with one.  Only [reference/engine/], [en-us/reference/engine/] and
    [engine/] are ever stripped. *)
Theorem resolve_doc_rel_path_live_prefixes nav_path :
  resolve_doc_rel_path nav_path
  = strip_prefix live_prefixes (normalize_rel_path nav_path).
Proof.
  unfold resolve_doc_rel_path, prefixes, live_prefixes.
  destruct (String.eqb_spec (normalize_rel_path nav_path) "") as [->|Hne];
    [reflexivity|].
  pose proof (normal_clean_head (normal_fixed (normalize_normal nav_path)) Hne)
    as Hhead.
  cbn [strip_prefix].
  change "/reference/engine/" with (String slash "reference/engine/").
  change "/en-us/reference/engine/" with (String slash "en-us/reference/engine/").
  change "/engine/" with (String slash "engine/").
  rewrite !(startswith_slash_clean _ _ Hhead). reflexivity.
Qed.

Lemma resolve_doc_rel_path_strips_prefix_lemma prefix k :
  In prefix live_prefixes ->
  normalize_rel_path k = k -> k <> "" ->
  resolve_doc_rel_path (prefix ++ k) = k.
Proof.
  intros Hin Hfix Hne. unfold resolve_doc_rel_path.
  assert (Hnorm : normalize_rel_path (prefix ++ k) = (prefix ++ k)%string).
  { simpl in Hin. destruct Hin as [<-|[<-|[<-|[]]]].
    - apply (@normal_below "reference" ["engine"] k); auto.
    - apply (@normal_below "en-us" ["reference"; "engine"] k); auto.
    - apply (@normal_below "engine" [] k); auto. }
  rewrite Hnorm.
  simpl in Hin. destruct Hin as [<-|[<-|[<-|[]]]].
  - unfold prefixes. cbn [strip_prefix].
    rewrite startswith_append. apply str_drop_append.
  - unfold prefixes. cbn [strip_prefix].
    change (startswith "reference/engine/" ("en-us/reference/engine/" ++ k))
      with false.
    change (startswith "/reference/engine/" ("en-us/reference/engine/" ++ k))
      with false.
    cbv iota.
    rewrite startswith_append. apply str_drop_append.
  - unfold prefixes. cbn [strip_prefix].
    change (startswith "reference/engine/" ("engine/" ++ k)) with false.
    change (startswith "/reference/engine/" ("engine/" ++ k)) with false.
    change (startswith "en-us/reference/engine/" ("engine/" ++ k)) with false.
    change (startswith "/en-us/reference/engine/" ("engine/" ++ k)) with false.
    cbv iota.
    rewrite startswith_append. apply str_drop_append.
Qed.

(** X18: for a normalised, non-empty path [k], a navigation path made of
    one of the known prefixes followed by [k] resolves to [k]: exactly one
    prefix is removed, whatever [k] itself starts with; and a normalised path
    that starts with none of them resolves to itself. *)
Theorem resolve_doc_rel_path_strips_prefix k :
  normalize_rel_path k = k -> k <> "" ->
  (forall prefix, In prefix live_prefixes ->
                  resolve_doc_rel_path (prefix ++ k) = k)
  /\ ((forall prefix, In prefix live_prefixes -> startswith prefix k = false) ->
      resolve_doc_rel_path k = k).
Proof.
  intros Hfix Hne. split.
  - intros prefix Hin. now apply resolve_doc_rel_path_strips_prefix_lemma.
  - intros Hnone. unfold resolve_doc_rel_path. rewrite Hfix.
    unfold prefixes. cbn [strip_prefix].
    pose proof (normal_clean_head Hfix Hne) as Hhead.
    rewrite (Hnone "reference/engine/"), (Hnone "en-us/reference/engine/"),
      (Hnone "engine/") by (simpl; auto).
    change "/reference/engine/" with (String slash "reference/engine/").
    change "/en-us/reference/engine/"
      with (String slash "en-us/reference/engine/").
    change "/engine/" with (String slash "engine/").
    now rewrite !(startswith_slash_clean _ _ Hhead).
Qed.

Lemma resolve_doc_rel_path_strips_prefix_witness :
  resolve_doc_rel_path "en-us/reference/engine/engine/classes/BasePart.yaml"
  = "engine/classes/BasePart.yaml".
Proof.
  apply (proj1 (@resolve_doc_rel_path_strips_prefix
                  "engine/classes/BasePart.yaml" eq_refl
                  ltac:(discriminate))
           "en-us/reference/engine/").
  simpl. auto.
Defined.

(** ** URLs *)

Lemma rstrip_base_url : rstrip_slash ENGINE_BASE_URL = ENGINE_BASE_URL.
Proof. reflexivity. Qed.

Lemma lstrip_slash_clean s : clean_head s = true -> lstrip_slash s = s.
Proof.
  destruct s as [|c s]; simpl; [discriminate|].
  intros H. apply negb_true_iff, orb_false_iff in H. destruct H as [_ H].
  now rewrite H.
Qed.

Lemma path_to_url_ext s ext :
  lower ext = ".yaml" ->
  path_to_url (s ++ ext) = (ENGINE_BASE_URL ++ "/" ++ lstrip_slash s)%string.
Proof.
  intros Hext. unfold path_to_url.
  assert (Hlen : String.length ext = 5).
  { rewrite <- length_lower, Hext. reflexivity. }
  rewrite lower_append, Hext, endswith_append, <- Hlen, drop_last_append.
  now rewrite rstrip_base_url.
Qed.

(** X19: a path that ends in [.yaml], in any mix of upper and lower case,
    gets the URL of the path without that ending: the base URL, one slash,
    and the rest without its leading slashes; any other path gets the base
    URL, one slash, and the whole path without its leading slashes. *)
Theorem path_to_url_drops_yaml s :
  (forall ext, lower ext = ".yaml" ->
     path_to_url (s ++ ext) = (ENGINE_BASE_URL ++ "/" ++ lstrip_slash s)%string)
  /\ (endswith ".yaml" (lower s) = false ->
      path_to_url s = (ENGINE_BASE_URL ++ "/" ++ lstrip_slash s)%string).
Proof.
  split.
  - intros ext Hext. now apply path_to_url_ext.
  - intros Hend. unfold path_to_url. now rewrite Hend, rstrip_base_url.
Qed.

Lemma path_to_url_drops_yaml_witness :
  path_to_url "/classes/BasePart.YAML"
  = "https://create.roblox.com/docs/reference/engine/classes/BasePart".
Proof.
  apply (proj1 (path_to_url_drops_yaml "/classes/BasePart") ".YAML").
  reflexivity.
Defined.

(** ** The lookup by path *)

Lemma lookup_candidates_sound cands idx key e :
  lookup_candidates cands idx = Some (key, e) ->
  Dict.get key idx = Some e /\ normalize_rel_path key = key.
Proof.
  induction cands as [|cand rest IH]; simpl; [discriminate|].
  destruct (Dict.get (normalize_rel_path cand) idx) as [e'|] eqn:Hget; [|exact IH].
  intros H. injection H as <- <-. split; [exact Hget|].
  apply normal_fixed, normalize_normal.
Qed.

Lemma lookup_sound raw idx key e :
  lookup_entry_for_nav_path raw idx = Some (key, e) ->
  Dict.get key idx = Some e /\ normalize_rel_path key = key.
Proof. apply lookup_candidates_sound. Qed.

Lemma candidates_In base_rel cand :
  In cand (candidates base_rel) ->
  cand = base_rel \/ cand = (base_rel ++ ".yaml")%string.
Proof.
  unfold candidates. destruct (endswith ".yaml" (lower base_rel)); simpl;
    intuition.
Qed.

(** X20: what the lookup returns is an entry of the path index together
    with its key, the key is a normalised path, and it is the resolved
    navigation path or that path with [.yaml] appended, normalised. *)
Theorem lookup_entry_for_nav_path_sound raw_nav_path path_index key e :
  lookup_entry_for_nav_path raw_nav_path path_index = Some (key, e) ->
  Dict.get key path_index = Some e
  /\ normalize_rel_path key = key
  /\ (key = normalize_rel_path (resolve_doc_rel_path raw_nav_path)
      \/ key = normalize_rel_path (resolve_doc_rel_path raw_nav_path ++ ".yaml")).
Proof.
  intros H. destruct (lookup_sound _ _ H) as [Hget Hfix].
  split; [exact Hget|]. split; [exact Hfix|].
  unfold lookup_entry_for_nav_path in H.
  assert (Hc : exists cand,
             In cand (candidates (resolve_doc_rel_path raw_nav_path))
             /\ key = normalize_rel_path cand).
  { induction (candidates (resolve_doc_rel_path raw_nav_path)) as [|c l IH];
      simpl in H; [discriminate|].
    destruct (Dict.get (normalize_rel_path c) path_index).
    - injection H as <- _. exists c. split; [now left | reflexivity].
    - destruct (IH H) as (cand & Hin & E). exists cand. split; [now right|auto]. }
  destruct Hc as (cand & Hin & ->).
  apply candidates_In in Hin. destruct Hin as [->| ->]; auto.
Qed.

Lemma lookup_entry_for_nav_path_sound_witness :
  Dict.get "classes/Base.yaml" [("classes/Base.yaml", base_entry)]
  = Some base_entry
  /\ normalize_rel_path "classes/Base.yaml" = "classes/Base.yaml"
  /\ ("classes/Base.yaml"
      = normalize_rel_path (resolve_doc_rel_path "engine/classes/Base")
      \/ "classes/Base.yaml"
         = normalize_rel_path
             (resolve_doc_rel_path "engine/classes/Base" ++ ".yaml")).
Proof.
  apply (@lookup_entry_for_nav_path_sound "engine/classes/Base"
           [("classes/Base.yaml", base_entry)]).
  reflexivity.
Defined.

(** X21: a normalised key of the path index is found from a navigation
    path that puts one of the known prefixes in front of it. *)
Theorem lookup_entry_for_nav_path_prefixed prefix k path_index e :
  In prefix live_prefixes ->
  normalize_rel_path k = k -> k <> "" ->
  Dict.get k path_index = Some e ->
  lookup_entry_for_nav_path (prefix ++ k) path_index = Some (k, e).
Proof.
  intros Hin Hfix Hne Hget. unfold lookup_entry_for_nav_path.
  rewrite (resolve_doc_rel_path_strips_prefix_lemma Hin Hfix Hne).
  unfold candidates. cbn [lookup_candidates]. now rewrite Hfix, Hget.
Qed.

Lemma lookup_entry_for_nav_path_prefixed_witness :
  lookup_entry_for_nav_path "reference/engine/classes/Base.yaml"
    [("classes/Root.yaml", root_entry); ("classes/Base.yaml", base_entry)]
  = Some ("classes/Base.yaml", base_entry).
Proof.
  apply (@lookup_entry_for_nav_path_prefixed "reference/engine/"
           "classes/Base.yaml").
  - simpl. auto.
  - reflexivity.
  - discriminate.
  - reflexivity.
Defined.

Lemma append_not_dot c t : c <> "" -> c <> "." -> (c ++ t)%string <> ".".
Proof.
  destruct c as [|ch c]; [congruence|]. intros _ Hc H. simpl in H.
  injection H as -> H. destruct c; [congruence | discriminate H].
Qed.

Lemma part_ok_append c t :
  part_ok c = true -> no_slash t = true -> part_ok (c ++ t) = true.
Proof.
  unfold part_ok. intros H Ht.
  apply andb_true_iff in H. destruct H as [Hns H].
  apply negb_true_iff, orb_false_iff in H. destruct H as [H1 H2].
  rewrite no_slash_append, Hns, Ht. simpl.
  apply negb_true_iff, orb_false_iff.
  apply String.eqb_neq in H1. apply String.eqb_neq in H2.
  split; apply String.eqb_neq.
  - destruct c; [congruence | discriminate].
  - now apply append_not_dot.
Qed.

(** Appending to the last component keeps a path normalised. *)
Lemma parts_append t : no_slash t = true ->
  forall rest c,
    forallb part_ok (c :: rest) = true ->
    exists c2 rest2,
      (join_slash (c :: rest) ++ t)%string = join_slash (c2 :: rest2)
      /\ forallb part_ok (c2 :: rest2) = true
      /\ (clean_head c = true -> clean_head c2 = true).
Proof.
  intros Ht. induction rest as [|c' rest IH]; intros c H.
  - simpl in H. apply andb_true_iff in H. destruct H as [Hc _].
    exists (c ++ t)%string, []. split; [reflexivity|]. split.
    + simpl. now rewrite part_ok_append.
    + apply clean_head_append.
  - change (forallb part_ok (c :: c' :: rest))
      with (part_ok c && forallb part_ok (c' :: rest)) in H.
    apply andb_true_iff in H. destruct H as [Hc Hrest].
    destruct (IH c' Hrest) as (c2 & rest2 & E & Hok & _).
    exists c, (c2 :: rest2). split; [|split; [|auto]].
    + rewrite !join_cons, !append_assoc.
      change (("/" ++ join_slash (c' :: rest)) ++ t)%string
        with ("/" ++ (join_slash (c' :: rest) ++ t))%string.
      now rewrite E.
    + change (forallb part_ok (c :: c2 :: rest2))
        with (part_ok c && forallb part_ok (c2 :: rest2)).
      now rewrite Hc, Hok.
Qed.

Lemma normal_append s t :
  normalize_rel_path s = s -> s <> "" -> no_slash t = true ->
  normalize_rel_path (s ++ t) = (s ++ t)%string.
Proof.
  intros Hfix Hne Ht.
  destruct (normal_parts Hfix Hne) as (c & rest & -> & Hok & Hc).
  destruct (@parts_append t Ht rest c Hok) as (c2 & rest2 & -> & Hok2 & Hc2).
  apply normal_fixed. right. exists c2, rest2. auto.
Qed.

(** X22: a navigation path without the [.yaml] ending finds the record
    indexed under the path with that ending, when the index has no entry under
    the path as it is. *)
Theorem lookup_entry_for_nav_path_adds_yaml raw_nav_path s path_index e :
  resolve_doc_rel_path raw_nav_path = s ->
  normalize_rel_path s = s -> s <> "" ->
  endswith ".yaml" (lower s) = false ->
  Dict.get s path_index = None ->
  Dict.get (s ++ ".yaml")%string path_index = Some e ->
  lookup_entry_for_nav_path raw_nav_path path_index
  = Some ((s ++ ".yaml")%string, e).
Proof.
  intros Hres Hfix Hne Hend Hnone Hget. unfold lookup_entry_for_nav_path.
  rewrite Hres. unfold candidates. rewrite Hend. cbn [lookup_candidates].
  rewrite Hfix, Hnone. rewrite normal_append by auto. now rewrite Hget.
Qed.

Lemma lookup_entry_for_nav_path_adds_yaml_witness :
  lookup_entry_for_nav_path "engine/classes/Base"
    [("classes/Root.yaml", root_entry); ("classes/Base.yaml", base_entry)]
  = Some ("classes/Base.yaml", base_entry).
Proof.
  apply (@lookup_entry_for_nav_path_adds_yaml "engine/classes/Base"
           "classes/Base").
  - reflexivity.
  - reflexivity.
  - discriminate.
  - reflexivity.
  - reflexivity.
  - reflexivity.
Defined.

(** ** The walker yields normalised paths *)

(** X23: every path the walker yields is normalised: normalising it again,
    as the lookup does, leaves it as it is. *)
Theorem iter_reference_objects_paths_normal node breadcrumbs r :
  In r (iter_reference_objects node breadcrumbs) ->
  normalize_rel_path (ref_path r) = ref_path r.
Proof.
  intros H. apply iter_reference_objects_descends in H.
  destruct H as (trail & target & p & _ & _ & ->). simpl.
  apply normal_fixed, normalize_normal.
Qed.

Lemma iter_reference_objects_paths_normal_witness :
  normalize_rel_path "classes/Foo.yaml" = "classes/Foo.yaml".
Proof.
  apply (@iter_reference_objects_paths_normal
           (VList [VMap [("path", VStr ".//classes/./Foo.yaml")]]) []
           (mkReference "classes/Foo.yaml" []
              (VMap [("path", VStr ".//classes/./Foo.yaml")]))).
  simpl. now left.
Defined.

(** * Loading the records *)

Lemma load_loop_by_name files : forall ni pi ni' pi',
  index_by_name ni ->
  load_loop files ni pi = Some (ni', pi') ->
  index_by_name ni'.
Proof.
  induction files as [|f files IH]; intros ni pi ni' pi' Hni; simpl.
  - intros H. now injection H as <- _.
  - destruct (entry_of_file f) as [e|]; [|discriminate].
    apply IH. intros n e'.
    destruct (String.eqb_spec n (entry_name e)) as [->|Hne].
    + rewrite get_set_same. intros H. now injection H as <-.
    + rewrite get_set_other by exact Hne. apply Hni.
Qed.

Lemma entry_of_file_path f e : entry_of_file f = Some e -> entry_path e = file_rel f.
Proof.
  unfold entry_of_file.
  destruct (or_else _ _); try discriminate. intros H. now injection H as <-.
Qed.

Lemma load_loop_sources all files : forall ni pi ni' pi',
  incl files all ->
  names_of_files all ni -> paths_of_files all pi ->
  load_loop files ni pi = Some (ni', pi') ->
  names_of_files all ni' /\ paths_of_files all pi'.
Proof.
  induction files as [|f files IH]; intros ni pi ni' pi' Hincl Hni Hpi; simpl.
  - intros H. now injection H as <- <-.
  - destruct (entry_of_file f) as [e|] eqn:He; [|discriminate].
    apply IH.
    + intros x Hx. apply Hincl. now right.
    + intros n e'. destruct (String.eqb_spec n (entry_name e)) as [->|Hne].
      * rewrite get_set_same. intros H. injection H as <-.
        exists f. split; [apply Hincl; now left | exact He].
      * rewrite get_set_other by exact Hne. apply Hni.
    + intros k e'.
      destruct (String.eqb_spec k (normalize_rel_path (file_rel f))) as [->|Hne].
      * rewrite get_set_same. intros H. injection H as <-.
        exists f. split; [apply Hincl; now left|]. split; [exact He|].
        now rewrite (entry_of_file_path _ He).
      * rewrite get_set_other by exact Hne. apply Hpi.
Qed.

(** X24: the indexes the loader returns hold only entries built from the
    files; the name index has every entry under its own name, and the path
    index has every entry under the normalised path of its file. *)
Theorem load_engine_objects_indexes files name_index path_index :
  load_engine_objects files = Some (name_index, path_index) ->
  index_by_name name_index
  /\ names_of_files files name_index
  /\ paths_of_files files path_index.
Proof.
  unfold load_engine_objects. intros H. split.
  - refine (@load_loop_by_name files [] [] name_index path_index _ H).
    intros n e Hget. discriminate Hget.
  - apply (@load_loop_sources files files [] [] name_index path_index);
      [apply incl_refl | | | exact H]; intros k e Hget; discriminate Hget.
Qed.

Lemma load_engine_objects_indexes_witness :
  exists name_index path_index,
    load_engine_objects
      [mkFile "classes/Base.yaml" "Base"
         [("name", VStr "Base"); ("type", VStr "class")];
       mkFile "./datatypes/Color.yaml" "Color" []]
    = Some (name_index, path_index)
    /\ index_by_name name_index
    /\ Dict.keys path_index = ["classes/Base.yaml"; "datatypes/Color.yaml"].
Proof.
  destruct (load_engine_objects
              [mkFile "classes/Base.yaml" "Base"
                 [("name", VStr "Base"); ("type", VStr "class")];
               mkFile "./datatypes/Color.yaml" "Color" []])
    as [[name_index path_index]|] eqn:Hload;
    [|vm_compute in Hload; discriminate Hload].
  exists name_index, path_index. split; [reflexivity|]. split.
  - exact (proj1 (@load_engine_objects_indexes _ _ _ Hload)).
  - vm_compute in Hload. injection Hload as _ <-. reflexivity.
Defined.

Lemma load_loop_keeps files : forall ni pi ni' pi',
  load_loop files ni pi = Some (ni', pi') ->
  (forall n e,
      Dict.get n ni = Some e ->
      (forall g e', In g files -> entry_of_file g = Some e' ->
                    entry_name e' <> n) ->
      Dict.get n ni' = Some e)
  /\ (forall k e,
        Dict.get k pi = Some e ->
        (forall g, In g files -> normalize_rel_path (file_rel g) <> k) ->
        Dict.get k pi' = Some e).
Proof.
  induction files as [|f files IH]; intros ni pi ni' pi'; simpl.
  - intros H. injection H as <- <-. auto.
  - destruct (entry_of_file f) as [e0|] eqn:He; [|discriminate].
    intros H. destruct (IH _ _ _ _ H) as [Hn Hp]. split.
    + intros n e Hget Hlater. apply Hn.
      * rewrite get_set_other; [exact Hget|].
        intros ->. eapply Hlater; eauto.
      * intros g e' Hg. apply Hlater. now right.
    + intros k e Hget Hlater. apply Hp.
      * rewrite get_set_other; [exact Hget|].
        intros ->. eapply Hlater; eauto.
      * intros g Hg. apply Hlater. now right.
Qed.

Lemma load_loop_app l1 l2 : forall ni pi,
  load_loop (l1 ++ l2) ni pi
  = match load_loop l1 ni pi with
    | Some (ni1, pi1) => load_loop l2 ni1 pi1
    | None => None
    end.
Proof.
  induction l1 as [|f l1 IH]; intros ni pi; simpl; [reflexivity|].
  destruct (entry_of_file f); [apply IH | reflexivity].
Qed.

(** X25: the last file wins: a file's entry is in the name index under its
    name unless a file visited later has the same name, and in the path index
    under its normalised path unless a later file has the same normalised
    path. *)
Theorem load_engine_objects_last_wins l1 f l2 e name_index path_index :
  load_engine_objects (l1 ++ f :: l2) = Some (name_index, path_index) ->
  entry_of_file f = Some e ->
  ((forall g e', In g l2 -> entry_of_file g = Some e' ->
                 entry_name e' <> entry_name e) ->
   Dict.get (entry_name e) name_index = Some e)
  /\ ((forall g, In g l2 ->
                 normalize_rel_path (file_rel g)
                 <> normalize_rel_path (file_rel f)) ->
      Dict.get (normalize_rel_path (file_rel f)) path_index = Some e).
Proof.
  unfold load_engine_objects. rewrite load_loop_app.
  destruct (load_loop l1 [] []) as [[ni1 pi1]|]; [|discriminate].
  simpl. intros H He. rewrite He in H.
  destruct (load_loop_keeps _ _ _ H) as [Hn Hp]. split.
  - intros Hlater. apply Hn; [apply get_set_same | exact Hlater].
  - intros Hlater. apply Hp; [apply get_set_same | exact Hlater].
Qed.

Lemma load_engine_objects_last_wins_witness :
  exists name_index path_index,
    load_engine_objects
      [mkFile "classes/Part.yaml" "Part" [("name", VStr "Part")];
       mkFile "enums/Part.yaml" "Part" []]
    = Some (name_index, path_index)
    /\ Dict.get "Part" name_index
       = Some (mkEntry "Part" VNull "enums/Part.yaml" [])
    /\ Dict.get "classes/Part.yaml" path_index
       = Some (mkEntry "Part" VNull "classes/Part.yaml" [("name", VStr "Part")]).
Proof.
  eexists. eexists. split; [reflexivity|]. split.
  - apply (proj1 (@load_engine_objects_last_wins
                    [mkFile "classes/Part.yaml" "Part" [("name", VStr "Part")]]
                    (mkFile "enums/Part.yaml" "Part" []) []
                    (mkEntry "Part" VNull "enums/Part.yaml" [])
                    _ _ eq_refl eq_refl)).
    intros g e' [].
  - apply (proj2 (@load_engine_objects_last_wins
                    []
                    (mkFile "classes/Part.yaml" "Part" [("name", VStr "Part")])
                    [mkFile "enums/Part.yaml" "Part" []]
                    (mkEntry "Part" VNull "classes/Part.yaml"
                       [("name", VStr "Part")])
                    _ _ eq_refl eq_refl)).
    intros g [<-|[]]. discriminate.
Defined.

Lemma file_names_In g e files :
  In g files -> entry_of_file g = Some e -> In (entry_name e) (file_names files).
Proof.
  intros Hg He. unfold file_names. apply in_flat_map.
  exists g. split; [exact Hg|]. rewrite He. now left.
Qed.

(** X26: when no two files are indexed under the same name, every entry of
    the path index is the entry the name index holds for its name: the
    records [main] resolves are then the records the resolver finds as
    bases. *)
Theorem load_engine_objects_distinct_names files name_index path_index k e :
  load_engine_objects files = Some (name_index, path_index) ->
  NoDup (file_names files) ->
  Dict.get k path_index = Some e ->
  Dict.get (entry_name e) name_index = Some e.
Proof.
  intros Hload Hnd Hget.
  assert (Hpaths : paths_of_files files path_index).
  { apply (@load_loop_sources files files [] [] name_index path_index);
      [apply incl_refl | | | exact Hload]; intros n e' H; discriminate H. }
  destruct (Hpaths k e Hget) as (f & Hf & He & _).
  destruct (in_split _ _ Hf) as (l1 & l2 & ->).
  unfold load_engine_objects in Hload. rewrite load_loop_app in Hload.
  destruct (load_loop l1 [] []) as [[ni1 pi1]|]; [|discriminate].
  simpl in Hload. rewrite He in Hload.
  destruct (load_loop_keeps _ _ _ Hload) as [Hn _].
  apply Hn; [apply get_set_same|].
  intros g e' Hg He' Hname.
  unfold file_names in Hnd. rewrite flat_map_app in Hnd. simpl in Hnd.
  rewrite He in Hnd. simpl in Hnd.
  apply NoDup_remove_2 in Hnd. apply Hnd.
  apply in_or_app. right. rewrite <- Hname.
  eapply file_names_In; eauto.
Qed.

Lemma load_engine_objects_distinct_names_witness :
  exists name_index path_index,
    load_engine_objects
      [mkFile "classes/Base.yaml" "Base" [("name", VStr "Base")];
       mkFile "datatypes/Color.yaml" "Color" []]
    = Some (name_index, path_index)
    /\ Dict.get "Color" name_index
       = Some (mkEntry "Color" VNull "datatypes/Color.yaml" []).
Proof.
  destruct (load_engine_objects
              [mkFile "classes/Base.yaml" "Base" [("name", VStr "Base")];
               mkFile "datatypes/Color.yaml" "Color" []])
    as [[name_index path_index]|] eqn:Hload;
    [|vm_compute in Hload; discriminate Hload].
  exists name_index, path_index. split; [reflexivity|].
  apply (@load_engine_objects_distinct_names _ _ _ "datatypes/Color.yaml"
           (mkEntry "Color" VNull "datatypes/Color.yaml" []) Hload).
  - vm_compute. repeat constructor; simpl; intuition discriminate.
  - vm_compute in Hload. injection Hload as _ <-. reflexivity.
Defined.

(** * The main loop *)

Lemma falsy_yields_nothing v breadcrumbs :
  truthy v = false -> iter_reference_objects v breadcrumbs = [].
Proof.
  destruct v as [|b|z|s|[|x l]|[|kv m]]; try reflexivity; discriminate.
Qed.

Lemma nav_objects_or_empty ref_data :
  iter_reference_objects (or_else ref_data (VMap [])) []
  = iter_reference_objects ref_data [].
Proof.
  unfold or_else. destruct (truthy ref_data) eqn:E; [reflexivity|].
  now rewrite (@falsy_yields_nothing ref_data [] E).
Qed.

Lemma main_loop_counts fuel name_index path_index nav_objects :
  forall st written missing written' missing' st',
    main_loop fuel nav_objects name_index path_index st written missing
    = Ok (written', missing', st') ->
    List.length written' + missing'
    = List.length written + missing + List.length nav_objects.
Proof.
  induction nav_objects as [|obj rest IH];
    intros st written missing written' missing' st'; simpl.
  - intros H. injection H as <- <- _. lia.
  - destruct (lookup_entry_for_nav_path (ref_path obj) path_index)
      as [[doc_rel_path e]|].
    + destruct (build_merged_for_entry fuel e name_index st)
        as [[merged_yaml st1]|]; simpl; [|discriminate].
      intros H. apply IH in H. rewrite H, length_app. simpl. lia.
    + intros H. apply IH in H. lia.
Qed.

(** X27: when [main] returns, every object of the navigation tree was
    either written or counted as missing: the number of records plus
    [missing] is the number of references the walker yields. *)
Theorem main_accounts_for_every_reference fuel name_index path_index ref_data
    written missing st :
  main fuel name_index path_index ref_data = Ok (written, missing, st) ->
  List.length written + missing
  = List.length (iter_reference_objects ref_data []).
Proof.
  unfold main. rewrite nav_objects_or_empty. intros H.
  apply main_loop_counts in H. simpl in H. lia.
Qed.

Lemma main_accounts_for_every_reference_witness :
  exists written missing st,
    main 3 small_index [("classes/Leaf.yaml", leaf_entry)]
      (VList [VMap [("path", VStr "engine/classes/Leaf")];
              VMap [("path", VStr "classes/Nowhere.yaml")]])
    = Ok (written, missing, st)
    /\ List.length written + missing = 2.
Proof.
  destruct (main 3 small_index [("classes/Leaf.yaml", leaf_entry)]
              (VList [VMap [("path", VStr "engine/classes/Leaf")];
                      VMap [("path", VStr "classes/Nowhere.yaml")]]))
    as [[[written missing] st]|] eqn:Hrun;
    [|vm_compute in Hrun; discriminate Hrun].
  exists written, missing, st. split; [reflexivity|].
  exact (@main_accounts_for_every_reference _ _ _ _ _ _ _ Hrun).
Defined.

Lemma main_loop_records fuel name_index path_index all nav_objects :
  forall st written missing written' missing' st',
    incl nav_objects all ->
    (forall r, In r written -> record_of path_index all r) ->
    main_loop fuel nav_objects name_index path_index st written missing
    = Ok (written', missing', st') ->
    forall r, In r written' -> record_of path_index all r.
Proof.
  induction nav_objects as [|obj rest IH];
    intros st written missing written' missing' st' Hincl Hw; simpl.
  - intros H. now injection H as <- _ _.
  - assert (Hrest : incl rest all) by (intros x Hx; apply Hincl; now right).
    destruct (lookup_entry_for_nav_path (ref_path obj) path_index)
      as [[doc_rel_path e]|] eqn:Hlook.
    + destruct (build_merged_for_entry fuel e name_index st)
        as [[merged_yaml st1]|]; simpl; [|discriminate].
      apply IH; [exact Hrest|].
      intros r Hr. apply in_app_or in Hr. destruct Hr as [Hr|[<-|[]]]; [auto|].
      exists e, obj. simpl.
      destruct (lookup_sound _ _ Hlook) as [Hget _].
      split; [apply Hincl; now left|]. auto 10.
    + apply IH; assumption.
Qed.

(** X28: every record [main] writes is made from an entry of the path
    index, found under the record's path, and from one of the references the
    walker yields: it has the entry's name, kind and body and the reference's
    breadcrumbs and node. *)
Theorem main_records_of_index fuel name_index path_index ref_data
    written missing st :
  main fuel name_index path_index ref_data = Ok (written, missing, st) ->
  forall r, In r written ->
    record_of path_index (iter_reference_objects ref_data []) r.
Proof.
  unfold main. rewrite nav_objects_or_empty. intros H.
  refine (@main_loop_records fuel name_index path_index _ _
            empty_state [] 0 written missing st (incl_refl _) _ H).
  intros r [].
Qed.

Lemma main_records_of_index_witness :
  exists written missing st,
    main 3 small_index [("classes/Leaf.yaml", leaf_entry)]
      (VList [VMap [("path", VStr "engine/classes/Leaf")]])
    = Ok (written, missing, st)
    /\ forall r, In r written ->
         record_of [("classes/Leaf.yaml", leaf_entry)]
           (iter_reference_objects
              (VList [VMap [("path", VStr "engine/classes/Leaf")]]) []) r.
Proof.
  destruct (main 3 small_index [("classes/Leaf.yaml", leaf_entry)]
              (VList [VMap [("path", VStr "engine/classes/Leaf")]]))
    as [[[written missing] st]|] eqn:Hrun;
    [|vm_compute in Hrun; discriminate Hrun].
  exists written, missing, st. split; [reflexivity|].
  exact (@main_records_of_index _ _ _ _ _ _ _ Hrun).
Defined.

Lemma removesuffix_append s t :
  t <> "" -> removesuffix t (s ++ t) = s.
Proof.
  intros Ht. unfold removesuffix. rewrite endswith_append.
  apply String.eqb_neq in Ht. rewrite Ht. simpl. apply drop_last_append.
Qed.

Lemma slug_clean_head slug :
  clean_head (slug ++ ".yaml") = true -> clean_head slug = true.
Proof. destruct slug; [discriminate | auto]. Qed.

Lemma main_loop_ids fuel name_index path_index nav_objects :
  forall st written missing written' missing' st',
    (forall r, In r written ->
       normalize_rel_path (record_path r) = record_path r
       /\ record_id r = ("engine/" ++ removesuffix ".yaml" (record_path r))%string
       /\ record_url r = path_to_url (record_path r)) ->
    main_loop fuel nav_objects name_index path_index st written missing
    = Ok (written', missing', st') ->
    forall r, In r written' ->
      normalize_rel_path (record_path r) = record_path r
      /\ record_id r = ("engine/" ++ removesuffix ".yaml" (record_path r))%string
      /\ record_url r = path_to_url (record_path r).
Proof.
  induction nav_objects as [|obj rest IH];
    intros st written missing written' missing' st' Hw; simpl.
  - intros H. now injection H as <- _ _.
  - destruct (lookup_entry_for_nav_path (ref_path obj) path_index)
      as [[doc_rel_path e]|] eqn:Hlook.
    + destruct (build_merged_for_entry fuel e name_index st)
        as [[merged_yaml st1]|]; simpl; [|discriminate].
      apply IH.
      intros r Hr. apply in_app_or in Hr. destruct Hr as [Hr|[<-|[]]]; [auto|].
      simpl. destruct (lookup_sound _ _ Hlook) as [_ Hfix]. auto.
    + apply IH; assumption.
Qed.

(** X29: the path of every record [main] writes is normalised, and when it
    ends in [.yaml] the record's id and URL name the same slug, the path
    without that ending: the id is [engine/] and the slug, the URL is the base
    URL, a slash and the slug. *)
Theorem main_record_id_and_url fuel name_index path_index ref_data
    written missing st r :
  main fuel name_index path_index ref_data = Ok (written, missing, st) ->
  In r written ->
  normalize_rel_path (record_path r) = record_path r
  /\ forall slug,
       record_path r = (slug ++ ".yaml")%string ->
       record_id r = ("engine/" ++ slug)%string
       /\ record_url r = (ENGINE_BASE_URL ++ "/" ++ slug)%string.
Proof.
  unfold main. intros H Hr.
  destruct (@main_loop_ids fuel name_index path_index _ empty_state [] 0
              written missing st (fun r (F : In r []) => match F with end) H r Hr)
    as (Hfix & Hid & Hurl).
  split; [exact Hfix|]. intros slug Hpath.
  rewrite Hid, Hurl, Hpath. split.
  - now rewrite removesuffix_append by discriminate.
  - rewrite path_to_url_ext by reflexivity.
    rewrite lstrip_slash_clean; [reflexivity|].
    apply slug_clean_head. rewrite <- Hpath.
    apply normal_clean_head; [exact Hfix|].
    rewrite Hpath. destruct slug; discriminate.
Qed.

Lemma main_record_id_and_url_witness :
  exists written missing st r,
    main 3 small_index [("classes/Leaf.yaml", leaf_entry)]
      (VList [VMap [("path", VStr "engine/classes/Leaf")]])
    = Ok (written, missing, st)
    /\ In r written
    /\ record_id r = "engine/classes/Leaf"
    /\ record_url r
       = "https://create.roblox.com/docs/reference/engine/classes/Leaf".
Proof.
  destruct (main 3 small_index [("classes/Leaf.yaml", leaf_entry)]
              (VList [VMap [("path", VStr "engine/classes/Leaf")]]))
    as [[[written missing] st]|] eqn:Hrun;
    [|vm_compute in Hrun; discriminate Hrun].
  pose proof Hrun as Hrun'. vm_compute in Hrun'.
  injection Hrun' as Hw _ _.
  assert (Hin : exists r, In r written /\ record_path r = "classes/Leaf.yaml").
  { rewrite <- Hw. eexists. split; [now left | reflexivity]. }
  destruct Hin as (r & Hr & Hpath).
  exists written, missing, st, r. split; [reflexivity|]. split; [exact Hr|].
  exact (proj2 (@main_record_id_and_url _ _ _ _ _ _ _ r Hrun Hr)
           "classes/Leaf" Hpath).
Defined.

Lemma main_loop_cached fuel name_index path_index nav_objects :
  forall st written missing written' missing' st',
    (forall r, In r written ->
       Dict.get (record_name r) (cache st) = Some (record_merged_yaml r)) ->
    main_loop fuel nav_objects name_index path_index st written missing
    = Ok (written', missing', st') ->
    forall r, In r written' ->
      Dict.get (record_name r) (cache st') = Some (record_merged_yaml r).
Proof.
  induction nav_objects as [|obj rest IH];
    intros st written missing written' missing' st' Hw; simpl.
  - intros H. now injection H as <- _ <-.
  - destruct (lookup_entry_for_nav_path (ref_path obj) path_index)
      as [[doc_rel_path e]|] eqn:Hlook.
    + destruct (build_merged_for_entry fuel e name_index st)
        as [[merged_yaml st1]|] eqn:Hbuild; simpl; [|discriminate].
      apply IH.
      intros r Hr. apply in_app_or in Hr. destruct Hr as [Hr|[<-|[]]].
      * eapply build_cache_stable; eauto.
      * simpl. eapply build_result_cached; eauto.
    + apply IH; assumption.
Qed.

(** X30: the merged view of every record [main] writes is the view the
    cache holds under the record's name when the run ends: two records of one
    name are written with the same merged view. *)
Theorem main_records_share_cached_views fuel name_index path_index ref_data
    written missing st :
  main fuel name_index path_index ref_data = Ok (written, missing, st) ->
  (forall r, In r written ->
     Dict.get (record_name r) (cache st) = Some (record_merged_yaml r))
  /\ (forall r1 r2, In r1 written -> In r2 written ->
        record_name r1 = record_name r2 ->
        record_merged_yaml r1 = record_merged_yaml r2).
Proof.
  unfold main. intros H.
  assert (Hc : forall r, In r written ->
             Dict.get (record_name r) (cache st) = Some (record_merged_yaml r)).
  { refine (@main_loop_cached fuel name_index path_index _ empty_state [] 0
              written missing st _ H).
    intros r []. }
  split; [exact Hc|].
  intros r1 r2 H1 H2 Hname.
  pose proof (Hc r1 H1) as E1. pose proof (Hc r2 H2) as E2.
  rewrite Hname in E1. congruence.
Qed.

Lemma main_records_share_cached_views_witness :
  exists written missing st,
    main 3 small_index
      [("classes/Leaf.yaml", leaf_entry);
       ("enums/Leaf.yaml", mkEntry "Leaf" VNull "enums/Leaf.yaml" [])]
      (VList [VMap [("path", VStr "classes/Leaf.yaml")];
              VMap [("path", VStr "enums/Leaf.yaml")]])
    = Ok (written, missing, st)
    /\ List.length written = 2
    /\ forall r1 r2, In r1 written -> In r2 written ->
         record_name r1 = record_name r2 ->
         record_merged_yaml r1 = record_merged_yaml r2.
Proof.
  destruct (main 3 small_index
              [("classes/Leaf.yaml", leaf_entry);
               ("enums/Leaf.yaml", mkEntry "Leaf" VNull "enums/Leaf.yaml" [])]
              (VList [VMap [("path", VStr "classes/Leaf.yaml")];
                      VMap [("path", VStr "enums/Leaf.yaml")]]))
    as [[[written missing] st]|] eqn:Hrun;
    [|vm_compute in Hrun; discriminate Hrun].
  exists written, missing, st. split; [reflexivity|]. split.
  - vm_compute in Hrun. injection Hrun as <- _ _. reflexivity.
  - exact (proj2 (@main_records_share_cached_views _ _ _ _ _ _ _ Hrun)).
Defined.
